(** * A task list persisted in browser storage

    Shallow embedding of [src/hooks/useLocalStorage] (the storage hook), of
    [src/components/client/TodoList.tsx] (the list operations, the form and
    the footer) and of the two controls of a row in
    [src/components/ui/TodoItem.tsx], together with
    the parts of the JavaScript runtime they call: [String.prototype.trim],
    [Array.prototype.findIndex], [Array.prototype.splice], [JSON.stringify],
    [JSON.parse], and [arrayMove] of the drag-and-drop library.

    - A string is its sequence of UTF-16 code units.
    - The hook is a state machine over React's steps: a render commits the
      two state cells, the effects of a committed render run in order, each
      when its dependency array changed, and the setter calls they make are
      rendered next.  The browser is the content of [localStorage], whether
      its methods throw, and the log of the calls made, as the mock of the
      tests records them.
    - The list operations are functions on lists of records; what a handler
      gives to [setTodos] is kept apart from the list it is applied to, so
      that a handler of an older render can be told from one of the latest.
    - JSON is modelled on texts, for values without numbers; the parser
      reports a number literal as outside the model. *)

From Stdlib Require Import ZArith NArith Ascii String.
From stdpp Require Import base tactics option list gmap.

Local Open Scope Z_scope.
#[local] Set Warnings "-register-all".

(** ** JavaScript strings *)

(** A JavaScript string is a sequence of UTF-16 code units. *)
Definition jsstring := list N.

(** An ASCII literal as a JavaScript string. *)
Definition lit (s : string) : jsstring :=
  (fun a => N_of_ascii a) <$> list_ascii_of_string s.

(** [a === b] on strings. *)
Definition str_eqb (a b : jsstring) : bool := bool_decide (a = b).

(** WhiteSpace and LineTerminator code points, the ones [trim] strips. *)
Definition is_space (c : N) : bool :=
  ((9 <=? c) && (c <=? 13) || (c =? 32) || (c =? 160) || (c =? 5760)
   || (8192 <=? c) && (c <=? 8202) || (c =? 8232) || (c =? 8233)
   || (c =? 8239) || (c =? 8287) || (c =? 12288) || (c =? 65279))%N.

Fixpoint trimStart (s : jsstring) : jsstring :=
  match s with
  | c :: r => if is_space c then trimStart r else s
  | [] => []
  end.

Definition trimEnd (s : jsstring) : jsstring := rev (trimStart (rev s)).

(** [s.trim()] *)
Definition trim (s : jsstring) : jsstring := trimEnd (trimStart s).

(** ** Arrays *)

Section Arrays.
Context {A : Type}.

Fixpoint findIndex_from (p : A -> bool) (l : list A) (i : Z) : Z :=
  match l with
  | [] => -1
  | x :: r => if p x then i else findIndex_from p r (i + 1)
  end.

(** [l.findIndex(p)]: the first index whose element satisfies [p], or -1. *)
Definition findIndex (p : A -> bool) (l : list A) : Z := findIndex_from p l 0.

(** [l.splice(start, deleteCount, ...items)]: the removed elements and the
    array after the call.  A negative [start] counts from the end; both
    [start] and [deleteCount] are clamped to the array. *)
Definition splice (l : list A) (start deleteCount : Z) (items : list A)
  : list A * list A :=
  let len := Z.of_nat (length l) in
  let actualStart :=
    if start <? 0 then Z.max (len + start) 0 else Z.min start len in
  let actualDeleteCount := Z.min (Z.max deleteCount 0) (len - actualStart) in
  let a := Z.to_nat actualStart in
  let d := Z.to_nat actualDeleteCount in
  (take d (drop a l), take a l ++ items ++ drop (a + d) l).
End Arrays.

(** [arrayMove(array, from, to)] of the drag-and-drop library:
<<
  const newArray = array.slice();
  newArray.splice(to < 0 ? newArray.length + to : to, 0,
                  newArray.splice(from, 1)[0]);
  return newArray;
>>
    The first argument of the outer [splice] is evaluated before the inner
    [splice] shortens the array.  [splice(from, 1)[0]] is [undefined] when
    nothing was removed, so a slot of the result is an [option]: [None] is
    [undefined]. *)
Definition arrayMove {A} (array : list A) (from to : Z) : list (option A) :=
  let newArray := array in
  let start := if to <? 0 then Z.of_nat (length newArray) + to else to in
  let '(removed, newArray1) := splice newArray from 1 [] in
  snd (splice (Some <$> newArray1) start 0 [head removed]).

(** ** Task records *)

(** [createdAt] is a [Date] when the record is built by [addTodo]; a record
    read back from storage carries whatever [JSON.parse] produced for it, the
    text of the date. *)
Inductive timestamp :=
  | DateObj (ms : Z)
  | DateText (iso : jsstring).

(** Modelled from the spec: the declaration of [Todo] in [lib/types] is not
    among the sources; the fields are the ones [addTodo] fills in. *)
Record Todo := mkTodo {
  id : jsstring;
  text : jsstring;
  completed : bool;
  createdAt : timestamp
}.

#[global] Instance timestamp_eq_dec : EqDecision timestamp.
Proof. solve_decision. Defined.
#[global] Instance Todo_eq_dec : EqDecision Todo.
Proof. solve_decision. Defined.

(** ** The operations of [TodoList] *)

(** What a handler passes to [setTodos]: a value, or a function of the
    current value. *)
Inductive TodoAction :=
  | SetValue (v : list Todo)
  | SetUpdater (f : list Todo -> list (option Todo)).

(** [addTodo(text)], in a render whose list is [todos]; [uuid] is the result
    of [crypto.randomUUID()] and [now] the time of [new Date()].  [None]:
    [setTodos] is not called. *)
Definition addTodo (todos : list Todo) (text : jsstring) (uuid : jsstring) (now : Z)
  : option TodoAction :=
  if str_eqb (trim text) [] then None
  else
    let newTodo := {| id := uuid; text := trim text; completed := false;
                      createdAt := DateObj now |} in
    Some (SetValue (todos ++ [newTodo])).

(** [{ ...todo, completed: !todo.completed }] *)
Definition flip (todo : Todo) : Todo :=
  {| id := id todo; text := text todo; completed := negb (completed todo);
     createdAt := createdAt todo |}.

(** [toggleTodo(id)] *)
Definition toggleTodo (todos : list Todo) (i : jsstring) : option TodoAction :=
  Some (SetValue ((fun todo => if str_eqb (id todo) i then flip todo else todo) <$> todos)).

(** [deleteTodo(id)] *)
Definition deleteTodo (todos : list Todo) (i : jsstring) : option TodoAction :=
  Some (SetValue (List.filter (fun todo => negb (str_eqb (id todo) i)) todos)).

(** The function [handleDragEnd] gives to [setTodos]. *)
Definition moveTodos (active over : jsstring) (items : list Todo) : list (option Todo) :=
  let oldIndex := findIndex (fun item => str_eqb (id item) active) items in
  let newIndex := findIndex (fun item => str_eqb (id item) over) items in
  arrayMove items oldIndex newIndex.

(** [handleDragEnd(event)]: [active] is [event.active.id], [over] is
    [event.over] ([None] when the drop has no target). *)
Definition handleDragEnd (active : jsstring) (over : option jsstring)
  : option TodoAction :=
  match over with
  | Some o => if negb (str_eqb active o) then Some (SetUpdater (moveTodos active o)) else None
  | None => None
  end.

(** The value [setTodos(action)] makes of the current value [cur]. *)
Definition applyAction (a : option TodoAction) (cur : list Todo) : list (option Todo) :=
  match a with
  | None => Some <$> cur
  | Some (SetValue v) => Some <$> v
  | Some (SetUpdater f) => f cur
  end.

(** Handlers of one render, by the event that fires them. *)
Inductive event :=
  | Add (text uuid : jsstring) (now : Z)
  | Toggle (i : jsstring)
  | Delete (i : jsstring)
  | DragEnd (active : jsstring) (over : option jsstring).

Definition handle (todos : list Todo) (e : event) : option TodoAction :=
  match e with
  | Add text uuid now => addTodo todos text uuid now
  | Toggle i => toggleTodo todos i
  | Delete i => deleteTodo todos i
  | DragEnd active over => handleDragEnd active over
  end.

(** The in-memory value after event [e], handled by the closures of a render
    that saw [rendered], when the value at that moment is [cur]. *)
Definition dispatch (rendered cur : list Todo) (e : event) : list (option Todo) :=
  applyAction (handle rendered e) cur.

(** An event handled by the closures of the latest render: React renders
    between two events of the user interface. *)
Inductive step : list Todo -> event -> list Todo -> Prop :=
  | step_event l e l' : dispatch l l e = Some <$> l' -> step l e l'.

(** Events handled one after the other by the closures of the same render,
    before React renders again; [None] once a slot is [undefined]. *)
Fixpoint batch (rendered cur : list Todo) (es : list event) : option (list Todo) :=
  match es with
  | [] => Some cur
  | e :: es' =>
      match mapM (M := option) (fun slot => slot) (dispatch rendered cur e) with
      | Some cur' => batch rendered cur' es'
      | None => None
      end
  end.

(** Taking the element at position [i] out and putting it back at position
    [j]: the single-element reorder. *)
Definition relocate {A} (l : list A) (i j : nat) : list A :=
  match l !! i with
  | Some x => take j (delete i l) ++ x :: drop j (delete i l)
  | None => l
  end.

(** The position an index denotes in an array of length [len]: a negative
    index counts from the end. *)
Definition wrap (len z : Z) : nat := Z.to_nat (if z <? 0 then len + z else z).

(** What an event makes of the list it is handled on, wherever that is a list
    of records.  A drag between two identifiers on the empty list leaves an
    array with an [undefined] slot ([moveTodos] gives [[None]] there);
    [perform] gives the empty list for it and does not describe that case. *)
Definition perform (l : list Todo) (e : event) : list Todo :=
  match e with
  | Add text uuid now =>
      if str_eqb (trim text) [] then l
      else l ++ [{| id := uuid; text := trim text; completed := false;
                    createdAt := DateObj now |}]
  | Toggle i => (fun todo => if str_eqb (id todo) i then flip todo else todo) <$> l
  | Delete i => List.filter (fun todo => negb (str_eqb (id todo) i)) l
  | DragEnd active None => l
  | DragEnd active (Some over) =>
      if str_eqb active over then l
      else
        let len := Z.of_nat (length l) in
        relocate l (wrap len (findIndex (fun item => str_eqb (id item) active) l))
                   (wrap len (findIndex (fun item => str_eqb (id item) over) l))
  end.

(** A sequence of events, React rendering between two of them. *)
Inductive steps : list Todo -> list event -> list Todo -> Prop :=
  | steps_nil l : steps l [] l
  | steps_cons l e l' es l'' : step l e l' -> steps l' es l'' -> steps l (e :: es) l''.

Definition is_drag (e : event) : bool :=
  match e with DragEnd _ _ => true | _ => false end.

(** ** The browser's storage *)

Inductive call :=
  | GetItem (k : jsstring)
  | SetItem (k v : jsstring)
  | Warn (msg : jsstring).

(** [hasWindow] is [typeof window !== 'undefined']; [getThrows] and
    [setThrows] say whether [localStorage.getItem] and [localStorage.setItem]
    throw (storage disabled, quota exceeded); [calls] logs the calls made, the
    oldest first. *)
Record Browser := mkBrowser {
  hasWindow : bool;
  items : gmap jsstring jsstring;
  getThrows : bool;
  setThrows : bool;
  calls : list call
}.

Definition log (c : call) (b : Browser) : Browser :=
  {| hasWindow := hasWindow b; items := items b; getThrows := getThrows b;
     setThrows := setThrows b; calls := calls b ++ [c] |}.

(** The text stored under [k], if there is one. *)
Definition storedAt (k : jsstring) (b : Browser) : option jsstring := items b !! k.

(** [localStorage.getItem(k)]: [None] when it throws, [Some None] for [null]. *)
Definition getItem (k : jsstring) (b : Browser) : Browser * option (option jsstring) :=
  (log (GetItem k) b, if getThrows b then None else Some (storedAt k b)).

(** [localStorage.setItem(k, v)]: [false] when it throws. *)
Definition setItem (k v : jsstring) (b : Browser) : Browser * bool :=
  let b' := log (SetItem k v) b in
  if setThrows b then (b', false)
  else ({| hasWindow := hasWindow b'; items := <[k := v]> (items b');
           getThrows := getThrows b'; setThrows := setThrows b';
           calls := calls b' |}, true).

Definition quoted (k : jsstring) : jsstring := [34%N] ++ k ++ [34%N].

Definition readWarning (k : jsstring) : jsstring :=
  lit "localStorage error for key " ++ quoted k ++ lit ":".

Definition writeWarning (k : jsstring) : jsstring :=
  lit "Failed to save to localStorage for key " ++ quoted k ++ lit ":".

Definition is_write (c : call) : bool :=
  match c with SetItem _ _ => true | _ => false end.

(** ** The hook [useLocalStorage] *)

(** The argument of a state setter. *)
Inductive SetStateAction (T : Type) :=
  | Value (v : T)
  | Updater (f : T -> T).
Arguments Value {T} v.
Arguments Updater {T} f.

Definition applySetState {T} (cur : T) (a : SetStateAction T) : T :=
  match a with
  | Value v => v
  | Updater f => f cur
  end.

(** One mounted instance of the hook: the two [useState] cells, the calls of
    their setters that React has not rendered yet, whether the effects of the
    last committed render are still to run, and the dependency arrays the two
    effects last ran with. *)
Record Hook (T : Type) := mkHook {
  value : T;
  isHydrated : bool;
  valueQueue : list (SetStateAction T);
  hydratedQueue : list bool;
  effectsPending : bool;
  loadDeps : option jsstring;
  saveDeps : option (jsstring * T * bool)
}.
Arguments mkHook {T}.
Arguments value {T}.
Arguments isHydrated {T}.
Arguments valueQueue {T}.
Arguments hydratedQueue {T}.
Arguments effectsPending {T}.
Arguments loadDeps {T}.
Arguments saveDeps {T}.

(** What an instance of the hook is made from: the arguments of
    [useLocalStorage(key, initialValue)], the same in every render, and the
    runtime's [Object.is], [JSON.parse] ([None] when it throws) and
    [JSON.stringify] on the values of [T] (finite trees, on which it does not
    throw). *)
Class Store (T : Type) := {
  same : T -> T -> bool;
  parse : jsstring -> option T;
  stringify : T -> jsstring;
  key : jsstring;
  initialValue : T
}.

Section UseLocalStorage.
Context {T : Type} {store : Store T}.

Definition config : Type := Hook T * Browser.

(** The first render: [useState(initialValue)], [useState(false)]. *)
Definition mount (b : Browser) : config :=
  ({| value := initialValue; isHydrated := false; valueQueue := [];
      hydratedQueue := []; effectsPending := true; loadDeps := None;
      saveDeps := None |}, b).

(** [get()]: the first component of what the hook returns. *)
Definition get (c : config) : T := value (fst c).

(** The first effect.  It returns the calls of [setValue] and of
    [setIsHydrated] it made. *)
Definition loadEffect (b : Browser)
  : Browser * list (SetStateAction T) * list bool :=
  if hasWindow b then
    match getItem key b with
    | (b1, Some saved) =>
        let loaded :=
          match saved with
          | Some (c :: s) => parse (c :: s)
          | Some [] | None => Some initialValue
          end in
        match loaded with
        | Some v => (b1, [Value v], [true])
        | None => (log (Warn (readWarning key)) b1, [], [true])
        end
    | (b1, None) => (log (Warn (readWarning key)) b1, [], [true])
    end
  else (b, [], [true]).

(** The second effect, in a render that saw [v] and [hydrated]. *)
Definition saveEffect (v : T) (hydrated : bool) (b : Browser) : Browser :=
  if hydrated && hasWindow b then
    match setItem key (stringify v) b with
    | (b1, true) => b1
    | (b1, false) => log (Warn (writeWarning key)) b1
    end
  else b.

(** Whether the dependency array [[key, value, isHydrated]] differs from the
    one the second effect last ran with. *)
Definition depsChanged (old : option (jsstring * T * bool)) (v : T) (hydrated : bool)
  : bool :=
  match old with
  | None => true
  | Some (k, v0, h0) =>
      negb (str_eqb k key && same v0 v && bool_decide (h0 = hydrated))
  end.

(** Running the effects of the committed render: each effect runs when its
    dependency array changed since it last ran, the first before the
    second, both seeing the state of that render. *)
Definition flushEffects (c : config) : config :=
  let '(h, b) := c in
  let '(b1, vq, hq) :=
    match loadDeps h with
    | Some k => if str_eqb k key then (b, [], []) else loadEffect b
    | None => loadEffect b
    end in
  let runSave := depsChanged (saveDeps h) (value h) (isHydrated h) in
  let b2 := if runSave then saveEffect (value h) (isHydrated h) b1 else b1 in
  ({| value := value h; isHydrated := isHydrated h;
      valueQueue := valueQueue h ++ vq; hydratedQueue := hydratedQueue h ++ hq;
      effectsPending := false; loadDeps := Some key;
      saveDeps := if runSave then Some (key, value h, isHydrated h) else saveDeps h |},
   b2).

(** Rendering: the queued setter calls are applied in the order they were
    made; when neither cell changed React bails out and no effect is
    scheduled. *)
Definition render (c : config) : config :=
  let '(h, b) := c in
  let v := foldl applySetState (value h) (valueQueue h) in
  let hy := default (isHydrated h) (last (hydratedQueue h)) in
  let unchanged := same (value h) v && bool_decide (isHydrated h = hy) in
  ({| value := if unchanged then value h else v;
      isHydrated := hy; valueQueue := []; hydratedQueue := [];
      effectsPending := negb unchanged; loadDeps := loadDeps h;
      saveDeps := saveDeps h |}, b).

Definition idle (h : Hook T) : bool :=
  negb (effectsPending h)
  && bool_decide (length (valueQueue h) = 0%nat)
  && bool_decide (length (hydratedQueue h) = 0%nat).

(** One step of React's work on the instance, effects before the next
    render; [None] when nothing is left to do. *)
Definition work (c : config) : option config :=
  if effectsPending (fst c) then Some (flushEffects c)
  else if idle (fst c) then None
  else Some (render c).

Fixpoint run (n : nat) (c : config) : config :=
  match n with
  | O => c
  | S n' => match work c with Some c' => run n' c' | None => c end
  end.

(** A call of the setter the hook returns is queued. *)
Definition enqueue (a : SetStateAction T) (c : config) : config :=
  let '(h, b) := c in
  ({| value := value h; isHydrated := isHydrated h;
      valueQueue := valueQueue h ++ [a]; hydratedQueue := hydratedQueue h;
      effectsPending := effectsPending h; loadDeps := loadDeps h;
      saveDeps := saveDeps h |}, b).

(** [set(action)]: the second component of what the hook returns; the call
    is queued and React then works until nothing is left to do (a render,
    then the effects). *)
Definition set (a : SetStateAction T) (c : config) : config :=
  run 2 (enqueue a c).

(** Mounting, up to the point where nothing is left to do: the effects of
    the first render, the render they ask for, its effects. *)
Definition mounted (b : Browser) : config := run 3 (mount b).

(** The read at hydration throws: [getItem] does, or [JSON.parse] does on
    the text found. *)
Definition readFails (b : Browser) : bool :=
  getThrows b
  || match storedAt key b with
     | Some (c :: s) => match parse (c :: s) with None => true | Some _ => false end
     | _ => false
     end.

(** The value in memory once hydration is over: what the text found
    parses to, the initial value when there is nothing to parse. *)
Definition hydratedValue (b : Browser) : T :=
  if hasWindow b && negb (getThrows b) then
    match storedAt key b with
    | Some (c :: s) => default initialValue (parse (c :: s))
    | _ => initialValue
    end
  else initialValue.

(** The browser after the first effect. *)
Definition afterLoad (b : Browser) : Browser :=
  if hasWindow b then
    if readFails b then log (Warn (readWarning key)) (log (GetItem key) b)
    else log (GetItem key) b
  else b.

(** An instance that is hydrated and has nothing left to do. *)
Definition settled (c : config) : Prop :=
  isHydrated (fst c) = true
  /\ work c = None
  /\ loadDeps (fst c) = Some key
  /\ saveDeps (fst c) = Some (key, value (fst c), true).
End UseLocalStorage.

(** ** JavaScript values and JSON *)

(** The values the program stores: finite trees without numbers (a number of
    JavaScript is a double).  The fields of an object are in property order. *)
Inductive jsval :=
  | VUndefined
  | VNull
  | VBool (b : bool)
  | VStr (s : jsstring)
  | VDate (ms : Z)
  | VArr (elems : list jsval)
  | VObj (fields : list (jsstring * jsval)).

Definition is_lead (c : N) : bool := ((55296 <=? c) && (c <=? 56319))%N.
Definition is_trail (c : N) : bool := ((56320 <=? c) && (c <=? 57343))%N.

Definition hexdigit (n : N) : N := (if n <? 10 then 48 + n else 87 + n)%N.

(** [\uXXXX] with lower-case digits. *)
Definition unicodeEscape (c : N) : jsstring :=
  [92; 117; hexdigit (c / 4096 mod 16); hexdigit (c / 256 mod 16);
   hexdigit (c / 16 mod 16); hexdigit (c mod 16)]%N.

Definition escape_unit (c : N) : jsstring :=
  (if c =? 8 then [92; 98]
   else if c =? 9 then [92; 116]
   else if c =? 10 then [92; 110]
   else if c =? 12 then [92; 102]
   else if c =? 13 then [92; 114]
   else if c =? 34 then [92; 34]
   else if c =? 92 then [92; 92]
   else if (c <? 32) || is_lead c || is_trail c then unicodeEscape c
   else [c])%N.

(** The characters [JSON.stringify] puts between the quotes: a surrogate pair
    is copied, a lone surrogate is escaped. *)
Fixpoint quote_body (s : jsstring) : jsstring :=
  match s with
  | [] => []
  | c :: r =>
      if is_lead c then
        match r with
        | d :: r' =>
            if is_trail d then c :: d :: quote_body r'
            else unicodeEscape c ++ quote_body r
        | [] => unicodeEscape c
        end
      else escape_unit c ++ quote_body r
  end.

Definition quote (s : jsstring) : jsstring := [34%N] ++ quote_body s ++ [34%N].

(** Decimal digits of [n], padded with zeros to [width] digits. *)
Fixpoint pad (width : nat) (n : Z) : jsstring :=
  match width with
  | O => []
  | S w => pad w (n / 10) ++ [Z.to_N (48 + n mod 10)]
  end.

(** Year, month and day of the day number [days] counted from 1970-01-01. *)
Definition civil (days : Z) : Z * Z * Z :=
  let z := days + 719468 in
  let era := z / 146097 in
  let doe := z - era * 146097 in
  let yoe := (doe - doe / 1460 + doe / 36524 - doe / 146096) / 365 in
  let doy := doe - (365 * yoe + yoe / 4 - yoe / 100) in
  let mp := (5 * doy + 2) / 153 in
  let d := doy - (153 * mp + 2) / 5 + 1 in
  let m := if mp <? 10 then mp + 3 else mp - 9 in
  let y := yoe + era * 400 + (if m <=? 2 then 1 else 0) in
  (y, m, d).

(** The day number, counted from 1970-01-01, of a year, month and day. *)
Definition days_from_civil (ymd : Z * Z * Z) : Z :=
  let '(y, m, d) := ymd in
  let y' := if m <=? 2 then y - 1 else y in
  let era := y' / 400 in
  let yoe := y' - era * 400 in
  let mp := if m <=? 2 then m + 9 else m - 3 in
  let doy := (153 * mp + 2) / 5 + d - 1 in
  let doe := yoe * 365 + yoe / 4 - yoe / 100 + doy in
  era * 146097 + doe - 719468.

(** The time values of a valid [Date]. *)
Definition validTime (ms : Z) : bool :=
  (-8640000000000000 <=? ms) && (ms <=? 8640000000000000).

(** [date.toISOString()] of a valid date. *)
Definition toISOString (ms : Z) : jsstring :=
  let '(y, m, d) := civil (ms / 86400000) in
  let t := ms mod 86400000 in
  let year :=
    if (0 <=? y) && (y <=? 9999) then pad 4 y
    else (if y <? 0 then [45%N] else [43%N]) ++ pad 6 (Z.abs y) in
  year ++ [45%N] ++ pad 2 m ++ [45%N] ++ pad 2 d ++ [84%N]
    ++ pad 2 (t / 3600000) ++ [58%N] ++ pad 2 (t / 60000 mod 60) ++ [58%N]
    ++ pad 2 (t / 1000 mod 60) ++ [46%N] ++ pad 3 (t mod 1000) ++ [90%N].

Fixpoint join_comma (parts : list jsstring) : jsstring :=
  match parts with
  | [] => []
  | [p] => p
  | p :: rest => p ++ [44%N] ++ join_comma rest
  end.

(** [JSON.stringify(v)]; [None] is the result [undefined].  A [Date] is
    replaced by what its [toJSON] returns, an element of an array that has no
    text is written [null], a field that has none is left out. *)
Fixpoint JSON_stringify (v : jsval) : option jsstring :=
  match v with
  | VUndefined => None
  | VNull => Some (lit "null")
  | VBool true => Some (lit "true")
  | VBool false => Some (lit "false")
  | VStr s => Some (quote s)
  | VDate ms => Some (if validTime ms then quote (toISOString ms) else lit "null")
  | VArr elems =>
      Some ([91%N]
            ++ join_comma ((fun x => default (lit "null") (JSON_stringify x)) <$> elems)
            ++ [93%N])
  | VObj fields =>
      Some ([123%N]
            ++ join_comma
                 (omap (fun kx => (fun s => quote (fst kx) ++ [58%N] ++ s)
                                    <$> JSON_stringify (snd kx)) fields)
            ++ [125%N])
  end.

(** What [localStorage.setItem] stores for [JSON.stringify(v)]: its argument
    converted to a string. *)
Definition stored_text (v : jsval) : jsstring :=
  default (lit "undefined") (JSON_stringify v).

(** *** Parsing *)

Inductive outcome (A : Type) :=
  | Parsed (a : A)
  | SyntaxError
  | Unmodelled
  | Exhausted.
Arguments Parsed {A} a.
Arguments SyntaxError {A}.
Arguments Unmodelled {A}.
Arguments Exhausted {A}.

Definition bind {A B} (o : outcome A) (k : A -> outcome B) : outcome B :=
  match o with
  | Parsed a => k a
  | SyntaxError => SyntaxError
  | Unmodelled => Unmodelled
  | Exhausted => Exhausted
  end.

Definition is_ws (c : N) : bool := ((c =? 9) || (c =? 10) || (c =? 13) || (c =? 32))%N.

Fixpoint skip_ws (s : jsstring) : jsstring :=
  match s with
  | c :: r => if is_ws c then skip_ws r else s
  | [] => []
  end.

Definition hexval (c : N) : option N :=
  (if (48 <=? c) && (c <=? 57) then Some (c - 48)
   else if (65 <=? c) && (c <=? 70) then Some (c - 55)
   else if (97 <=? c) && (c <=? 102) then Some (c - 87)
   else None)%N.

Definition hex4val (a b c d : N) : option N :=
  match hexval a, hexval b, hexval c, hexval d with
  | Some x, Some y, Some z, Some w => Some (x * 4096 + y * 256 + z * 16 + w)%N
  | _, _, _, _ => None
  end.

Definition simple_escape (c : N) : option N :=
  (if c =? 34 then Some 34 else if c =? 92 then Some 92
   else if c =? 47 then Some 47 else if c =? 98 then Some 8
   else if c =? 102 then Some 12 else if c =? 110 then Some 10
   else if c =? 114 then Some 13 else if c =? 116 then Some 9
   else None)%N.

(** The characters of a string literal after its opening quote, up to the
    closing quote; the rest of the text comes with them. *)
Fixpoint parse_chars (s : jsstring) : outcome (jsstring * jsstring) :=
  match s with
  | [] => SyntaxError
  | c :: r =>
      if (c =? 34)%N then Parsed ([], r)
      else if (c =? 92)%N then
        match r with
        | e :: r1 =>
            if (e =? 117)%N then
              match r1 with
              | h1 :: h2 :: h3 :: h4 :: r2 =>
                  match hex4val h1 h2 h3 h4 with
                  | Some u => bind (parse_chars r2) (fun p => Parsed (u :: fst p, snd p))
                  | None => SyntaxError
                  end
              | _ => SyntaxError
              end
            else
              match simple_escape e with
              | Some u => bind (parse_chars r1) (fun p => Parsed (u :: fst p, snd p))
              | None => SyntaxError
              end
        | [] => SyntaxError
        end
      else if (c <? 32)%N then SyntaxError
      else bind (parse_chars r) (fun p => Parsed (c :: fst p, snd p))
  end.

Definition is_digit (c : N) : bool := ((48 <=? c) && (c <=? 57))%N.

Fixpoint digits_value (s : jsstring) (acc : N) : N :=
  match s with
  | [] => acc
  | c :: r => digits_value r (acc * 10 + (c - 48))%N
  end.

(** The array index a property key denotes, if it is one: a canonical decimal
    numeral below 2^32 - 1. *)
Definition array_index (k : jsstring) : option N :=
  match k with
  | [] => None
  | c :: r =>
      if forallb is_digit k && ((length k <=? 10)%nat) && (negb (c =? 48)%N || bool_decide (r = []))
      then let n := digits_value k 0 in
           if (n <=? 4294967294)%N then Some n else None
      else None
  end.

(** Where a new key goes: array indices come first, in ascending order, then
    the other keys in the order they were added. *)
Fixpoint obj_insert (fields : list (jsstring * jsval)) (k : jsstring) (n : option N)
    (v : jsval) : list (jsstring * jsval) :=
  match fields with
  | [] => [(k, v)]
  | (k0, v0) :: rest =>
      match n, array_index k0 with
      | Some i, Some i0 =>
          if (i <? i0)%N then (k, v) :: fields else (k0, v0) :: obj_insert rest k n v
      | Some i, None => (k, v) :: fields
      | None, _ => (k0, v0) :: obj_insert rest k n v
      end
  end.

Fixpoint obj_replace (fields : list (jsstring * jsval)) (k : jsstring) (v : jsval)
    : option (list (jsstring * jsval)) :=
  match fields with
  | [] => None
  | (k0, v0) :: rest =>
      if str_eqb k0 k then Some ((k0, v) :: rest)
      else (fun rest' => (k0, v0) :: rest') <$> obj_replace rest k v
  end.

(** Defining property [k] with value [v] on an object: an existing property
    keeps its place and takes the new value. *)
Definition obj_set (fields : list (jsstring * jsval)) (kv : jsstring * jsval)
    : list (jsstring * jsval) :=
  match obj_replace fields (fst kv) (snd kv) with
  | Some fields' => fields'
  | None => obj_insert fields (fst kv) (array_index (fst kv)) (snd kv)
  end.

(** The text after [prefix], when [s] starts with it. *)
Fixpoint strip (prefix s : jsstring) : option jsstring :=
  match prefix, s with
  | [], _ => Some s
  | p :: prefix', c :: s' => if (p =? c)%N then strip prefix' s' else None
  | _ :: _, [] => None
  end.

(** The text after the character [c], when [c] comes next after white
    space. *)
Definition next (c : N) (s : jsstring) : option jsstring :=
  match skip_ws s with
  | c' :: r => if (c' =? c)%N then Some r else None
  | [] => None
  end.

(** A value of the JSON grammar at the head of [s], after white space, with
    the text that follows it; a number is outside the values modelled. *)
Fixpoint parse_value (fuel : nat) (s : jsstring) : outcome (jsval * jsstring) :=
  match fuel with
  | O => Exhausted
  | S f =>
      match strip (lit "null") (skip_ws s) with
      | Some r => Parsed (VNull, r)
      | None =>
      match strip (lit "true") (skip_ws s) with
      | Some r => Parsed (VBool true, r)
      | None =>
      match strip (lit "false") (skip_ws s) with
      | Some r => Parsed (VBool false, r)
      | None =>
      match skip_ws s with
      | [] => SyntaxError
      | c :: r =>
          if (c =? 34)%N then
            bind (parse_chars r) (fun p => Parsed (VStr (fst p), snd p))
          else if (c =? 91)%N then
            match next 93 r with
            | Some r' => Parsed (VArr [], r')
            | None => bind (parse_elements f r) (fun p => Parsed (VArr (fst p), snd p))
            end
          else if (c =? 123)%N then
            match next 125 r with
            | Some r' => Parsed (VObj [], r')
            | None => bind (parse_members f r)
                        (fun p => Parsed (VObj (foldl obj_set [] (fst p)), snd p))
            end
          else if (c =? 45)%N || is_digit c then Unmodelled
          else SyntaxError
      end end end end
  end
with parse_elements (fuel : nat) (s : jsstring) : outcome (list jsval * jsstring) :=
  match fuel with
  | O => Exhausted
  | S f =>
      bind (parse_value f s) (fun p =>
        match next 44 (snd p) with
        | Some r => bind (parse_elements f r) (fun q => Parsed (fst p :: fst q, snd q))
        | None =>
            match next 93 (snd p) with
            | Some r => Parsed ([fst p], r)
            | None => SyntaxError
            end
        end)
  end
with parse_members (fuel : nat) (s : jsstring)
    : outcome (list (jsstring * jsval) * jsstring) :=
  match fuel with
  | O => Exhausted
  | S f =>
      match next 34 s with
      | Some r =>
          bind (parse_chars r) (fun k =>
            match next 58 (snd k) with
            | Some r1 =>
                bind (parse_value f r1) (fun p =>
                  match next 44 (snd p) with
                  | Some r2 =>
                      bind (parse_members f r2)
                        (fun q => Parsed ((fst k, fst p) :: fst q, snd q))
                  | None =>
                      match next 125 (snd p) with
                      | Some r2 => Parsed ([(fst k, fst p)], r2)
                      | None => SyntaxError
                      end
                  end)
            | None => SyntaxError
            end)
      | None => SyntaxError
      end
  end.

(** [JSON.parse(s)]: one value, white space around it, nothing else. *)
Definition JSON_parse (s : jsstring) : outcome jsval :=
  bind (parse_value (S (2 * length s)) s) (fun p =>
    match skip_ws (snd p) with
    | [] => Parsed (fst p)
    | _ => SyntaxError
    end).

(** ** The task list as a stored value *)

Definition js_of_timestamp (t : timestamp) : jsval :=
  match t with
  | DateObj ms => VDate ms
  | DateText iso => VStr iso
  end.

(** The object [addTodo] builds, its fields in the order it lists them. *)
Definition js_of_todo (t : Todo) : jsval :=
  VObj [(lit "id", VStr (id t)); (lit "text", VStr (text t));
        (lit "completed", VBool (completed t));
        (lit "createdAt", js_of_timestamp (createdAt t))].

Definition js_of_todos (l : list Todo) : jsval := VArr (js_of_todo <$> l).

Fixpoint field (k : jsstring) (fields : list (jsstring * jsval)) : option jsval :=
  match fields with
  | [] => None
  | (k0, v) :: rest => if str_eqb k0 k then Some v else field k rest
  end.

(** A value [JSON.parse] returned, read as a task record: the four fields
    the program reads; the date is a string. *)
Definition todo_of_js (v : jsval) : option Todo :=
  match v with
  | VObj fields =>
      match field (lit "id") fields, field (lit "text") fields,
            field (lit "completed") fields, field (lit "createdAt") fields with
      | Some (VStr i), Some (VStr t), Some (VBool c), Some (VStr iso) =>
          Some {| id := i; text := t; completed := c; createdAt := DateText iso |}
      | _, _, _, _ => None
      end
  | _ => None
  end.

Definition todos_of_js (v : jsval) : option (list Todo) :=
  match v with
  | VArr elems => mapM todo_of_js elems
  | _ => None
  end.

(** The text of a record, written out: the four fields in order, between
    braces. *)
Definition stamp_text (t : timestamp) : jsstring :=
  match t with
  | DateObj ms => if validTime ms then quote (toISOString ms) else lit "null"
  | DateText iso => quote iso
  end.

Definition todo_text (t : Todo) : jsstring :=
  123%N :: quote (lit "id") ++ 58%N :: quote (id t)
    ++ 44%N :: quote (lit "text") ++ 58%N :: quote (text t)
    ++ 44%N :: quote (lit "completed") ++ 58%N
         :: (if completed t then lit "true" else lit "false")
    ++ 44%N :: quote (lit "createdAt") ++ 58%N :: stamp_text (createdAt t)
    ++ [125%N].

(** The text written for a task list, and a text read back as a task list
    ([None] when the text is not the text of a task list). *)
Definition serialize (l : list Todo) : jsstring := stored_text (js_of_todos l).

Definition deserialize (s : jsstring) : option (list Todo) :=
  match JSON_parse s with
  | Parsed v => todos_of_js v
  | _ => None
  end.

(** A record after a write and a read: the date has become its text. *)
Definition reloaded (t : Todo) : Todo :=
  {| id := id t; text := text t; completed := completed t;
     createdAt := match createdAt t with
                  | DateObj ms => DateText (toISOString ms)
                  | DateText iso => DateText iso
                  end |}.

Definition validStamp (t : Todo) : bool :=
  match createdAt t with
  | DateObj ms => validTime ms
  | DateText _ => true
  end.

(** [Object.is] on the values modelled: a string, a boolean, [null] and
    [undefined] are compared by content; two arrays, objects or dates are
    taken to come from two evaluations, hence to be different references.
    This is [Object.is] for a value that was built anew; it is not for an
    array, object or date handed back as it is (an updater that returns its
    argument), where [Object.is] holds and React bails out. *)
Definition same_js (a b : jsval) : bool :=
  match a, b with
  | VUndefined, VUndefined => true
  | VNull, VNull => true
  | VBool x, VBool y => bool_decide (x = y)
  | VStr x, VStr y => str_eqb x y
  | _, _ => false
  end.

(** [JSON.parse] as the hook sees it, [None] when it throws, on texts
    without numbers.  A text with a number in it is outside the values
    modelled and is given [None] as well, although [JSON.parse] reads it:
    what is proved with [parse_js] about a text found in the storage assumes
    that [JSON_parse] does not give [Unmodelled] for it. *)
Definition parse_js (s : jsstring) : option jsval :=
  match JSON_parse s with
  | Parsed v => Some v
  | _ => None
  end.

(** The hook as [TodoList] calls it, [useLocalStorage<Todo[]>('todos', [])],
    for the texts the component itself writes: [deserialize] gives [None]
    for every other text, also for one that [JSON.parse] reads and that the
    hook would take as it is, so what is proved by mounting [todoStore]
    assumes that the text under the key, if any, was written by the
    component.  Every list a handler passes to [setTodos] is a new array (a
    spread, [map], [filter], the copy [arrayMove] makes), never the array in
    memory, so [Object.is] never holds between the two. *)
Definition todoStore : Store (list Todo) :=
  {| same := fun _ _ => false; parse := deserialize; stringify := serialize;
     key := lit "todos"; initialValue := [] |}.

(** ** The states of the list *)

(** What the environment gives [addTodo]: [crypto.randomUUID()] returns an
    identifier that is not in the list, [new Date()] the current time, the
    time of a valid date. *)
Definition generated (l : list Todo) (e : event) : Prop :=
  match e with
  | Add _ uuid now => (uuid ∉ id <$> l) /\ validTime now = true
  | _ => True
  end.

(** The lists the component comes to hold by its own runs: the initial value
    (nothing stored yet); what an event makes of a list, handled by the
    latest render; what several events make of it when they are handled by
    the closures of one render, before React renders again; and, when the
    page is loaded again, what hydration reads from the text the component
    wrote for a list. *)
Inductive reachable : list Todo -> Prop :=
  | reach_initial : reachable []
  | reach_event l e l' :
      reachable l -> generated l e -> step l e l' -> reachable l'
  | reach_batch l es l' :
      reachable l -> Forall (generated l) es -> batch l l es = Some l' ->
      reachable l'
  | reach_reload l l' :
      reachable l -> deserialize (serialize l) = Some l' -> reachable l'.

Definition distinct_ids (l : list Todo) : Prop := NoDup (id <$> l).

(** The number of records still to do, as the footer shows it. *)
Definition remaining (todos : list Todo) : nat :=
  length (List.filter (fun t => negb (completed t)) todos).

(** ** The form, the rows and the footer of [TodoList] *)

(** [handleSubmit(e)]: after [e.preventDefault()] it calls
    [addTodo(inputValue)].  The first component is what [addTodo] gives to
    [setTodos], the second what it gives to [setInputValue]: it clears the
    input box after the call of [setTodos], and returns before both when the
    trimmed text is empty. *)
Definition handleSubmit (todos : list Todo) (inputValue uuid : jsstring) (now : Z)
  : option TodoAction * option jsstring :=
  (addTodo todos inputValue uuid now,
   if str_eqb (trim inputValue) [] then None else Some []).

(** The two controls of the row [TodoItem] renders for [todo]: the checkbox
    calls [onToggle(todo.id)] and the button [onDelete(todo.id)]; [TodoList]
    passes [toggleTodo] and [deleteTodo] for the two. *)
Definition checkboxChange (todo : Todo) : event := Toggle (id todo).
Definition deleteClick (todo : Todo) : event := Delete (id todo).

(** The events the interface rendered from [l] can fire: the form submits
    any text; a checkbox and a delete button belong to a row of [l]; a drag
    starts on a row ([useSortable({ id: todo.id })]) and ends on a row or
    nowhere. *)
Definition offered (l : list Todo) (e : event) : Prop :=
  match e with
  | Add _ _ _ => True
  | Toggle i | Delete i => exists todo, todo ∈ l /\ i = id todo
  | DragEnd active over =>
      (exists todo, todo ∈ l /\ active = id todo)
      /\ match over with
         | Some o => exists todo, todo ∈ l /\ o = id todo
         | None => True
         end
  end.

(** What [TodoList] renders inside the drag-and-drop context: the message of
    the empty list, or the rows, with the identifiers it gives to
    [SortableContext] and the key of each row. *)
Inductive listView :=
  | NoTodosYet
  | Sortable (items : list jsstring) (rows : list (jsstring * Todo)).

Definition view (todos : list Todo) : listView :=
  if (length todos =? 0)%nat then NoTodosYet
  else Sortable ((fun todo => id todo) <$> todos) ((fun todo => (id todo, todo)) <$> todos).

(** The line below the list, [n of m tasks remaining], rendered when
    [todos.length > 0]: the two numbers. *)
Definition footer (todos : list Todo) : option (nat * nat) :=
  if (0 <? length todos)%nat then Some (remaining todos, length todos) else None.

(** A text as [addTodo] stores it: not empty, and [trim] leaves it as it
    is. *)
Definition trimmed (s : jsstring) : Prop := s <> [] /\ trim s = s.

(** ** Several calls of the setter *)

Section Sessions.
Context {T : Type} {store : Store T}.

(** Calls of [set], React working after each of them. *)
Definition setEach (acts : list (SetStateAction T)) (c : config) : config :=
  foldl (fun c a => set a c) c acts.

(** Calls of [set] made before React renders again (in one event handler):
    they are queued in that order, then React works. *)
Definition setBatch (acts : list (SetStateAction T)) (c : config) : config :=
  run 2 (foldl (fun c a => enqueue a c) c acts).
End Sessions.

(** ** The component on the hook *)

(** The records of an array that has no [undefined] slot. *)
Definition records (slots : list (option Todo)) : option (list Todo) :=
  mapM (M := option) (fun slot => slot) slots.

(** An event of the interface on a mounted [TodoList] whose hook is hydrated
    and has nothing left to do: the handler of the latest render calls
    [setTodos], or returns without calling it, and React works.  The
    function [handleDragEnd] passes is applied by the hook to the list in
    memory; [None] when it leaves an [undefined] slot there, on which the
    next render throws. *)
Definition onEvent (c : Hook (list Todo) * Browser) (e : event)
  : option (Hook (list Todo) * Browser) :=
  match handle (get c) e with
  | None => Some c
  | Some (SetValue v) => Some (set (store := todoStore) (Value v) c)
  | Some (SetUpdater f) =>
      match records (f (get c)) with
      | Some _ =>
          Some (set (store := todoStore)
                  (Updater (fun items => default items (records (f items)))) c)
      | None => None
      end
  end.

(** Events one after the other, React working after each. *)
Fixpoint onEvents (c : Hook (list Todo) * Browser) (es : list event)
  : option (Hook (list Todo) * Browser) :=
  match es with
  | [] => Some c
  | e :: es' =>
      match onEvent c e with
      | Some c' => onEvents c' es'
      | None => None
      end
  end.

(** ** What [JSON.parse] reads back *)

(** The value [JSON.parse] gives for the text [JSON.stringify] wrote for
    [v]: a date has become its text (or [null], when it is no valid date),
    an [undefined] element of an array has become [null], an [undefined]
    field is gone, and the fields that are left are in the order in which
    defining them one after the other puts them.  [None]: [JSON.stringify]
    gave [undefined], and no text. *)
Fixpoint revived (v : jsval) : option jsval :=
  match v with
  | VUndefined => None
  | VNull => Some VNull
  | VBool b => Some (VBool b)
  | VStr s => Some (VStr s)
  | VDate ms => Some (if validTime ms then VStr (toISOString ms) else VNull)
  | VArr elems => Some (VArr ((fun x => default VNull (revived x)) <$> elems))
  | VObj fields =>
      Some (VObj (foldl obj_set []
                    (omap (fun kx => (fun x => (fst kx, x)) <$> revived (snd kx)) fields)))
  end.

(** The values that have no [undefined], no date and no object in them. *)
Fixpoint plain (v : jsval) : bool :=
  match v with
  | VNull | VBool _ | VStr _ => true
  | VArr elems => forallb plain elems
  | VUndefined | VDate _ | VObj _ => false
  end.

(** The hook on JavaScript values, [useLocalStorage(k, init)], whatever
    [Object.is] says of two of them: [objectIs] stands for it. *)
Definition jsStore (objectIs : jsval -> jsval -> bool) (k : jsstring) (init : jsval)
  : Store jsval :=
  {| same := objectIs; parse := parse_js; stringify := stored_text;
     key := k; initialValue := init |}.

(** ** Sample data *)

Definition todoA : Todo :=
  {| id := lit "a"; text := lit "Buy milk"; completed := false;
     createdAt := DateObj 1700000000000 |}.
Definition todoB : Todo :=
  {| id := lit "b"; text := lit "Walk dog"; completed := false;
     createdAt := DateObj 1700000001000 |}.
Definition todoC : Todo :=
  {| id := lit "c"; text := lit "Call mum"; completed := true;
     createdAt := DateObj 1700000002000 |}.

(** The hook on JavaScript values, with the key and the initial value its
    tests use, in a browser whose storage is empty and in one that holds a
    saved value. *)
Definition testKey : jsstring := lit "test-key".
Definition emptyBrowser : Browser := mkBrowser true ∅ false false [].
Definition seededBrowser : Browser :=
  mkBrowser true {[ testKey := stored_text (VStr (lit "saved-value")) ]} false false [].
Definition throwingBrowser : Browser := mkBrowser true ∅ true false [].
Definition mistypedBrowser : Browser :=
  mkBrowser true {[ testKey := lit "[true,null]" ]} false false [].

Definition testStore : Store jsval :=
  {| same := same_js; parse := parse_js; stringify := stored_text;
     key := testKey; initialValue := VStr (lit "initial") |}.

Definition mountedTest (b : Browser) : Hook jsval * Browser :=
  mounted (store := testStore) b.
Definition setTest (a : SetStateAction jsval) (c : Hook jsval * Browser)
  : Hook jsval * Browser :=
  set (store := testStore) a c.

(** More browsers for the hook of the tests: none (a render on the server),
    one whose storage refuses every write, and one that holds a text that is
    no JSON text. *)
Definition serverBrowser : Browser := mkBrowser false ∅ false false [].
Definition fullBrowser : Browser := mkBrowser true ∅ false true [].
Definition corruptBrowser : Browser :=
  mkBrowser true {[ testKey := lit "{oops" ]} false false [].

(** * Properties *)

(** ** Strings, [findIndex], [splice] and [arrayMove] *)

Lemma str_eqb_eq (a b : jsstring) : str_eqb a b = true <-> a = b.
Proof. unfold str_eqb. rewrite bool_decide_eq_true. tauto. Qed.

Lemma str_eqb_refl (a : jsstring) : str_eqb a a = true.
Proof. by apply str_eqb_eq. Qed.

Lemma str_eqb_neq (a b : jsstring) : str_eqb a b = false <-> a <> b.
Proof. unfold str_eqb. rewrite bool_decide_eq_false. tauto. Qed.

Section FindIndex.
Context {A : Type} (p : A -> bool).

Lemma findIndex_from_range (l : list A) (k : Z) :
  findIndex_from p l k = -1 \/
  (k <= findIndex_from p l k < k + Z.of_nat (length l)).
Proof.
  revert k. induction l as [|x l IH]; intros k; simpl; [by left|].
  destruct (p x); [right; lia|].
  destruct (IH (k + 1)) as [->|?]; [by left | right; lia].
Qed.

Lemma findIndex_from_shift (l : list A) (k : Z) :
  0 <= k ->
  findIndex_from p l k =
    if findIndex_from p l 0 <? 0 then -1 else k + findIndex_from p l 0.
Proof.
  revert k. induction l as [|x l IH]; intros k Hk; simpl; [done|].
  destruct (p x); [simpl; lia|].
  rewrite (IH (k + 1)) by lia. rewrite (IH (0 + 1)) by lia.
  destruct (findIndex_from_range l 0) as [E|E].
  - rewrite E. done.
  - destruct (Z.ltb_spec (findIndex_from p l 0) 0); [lia|].
    destruct (Z.ltb_spec (0 + 1 + findIndex_from p l 0) 0); lia.
Qed.

(** An index [findIndex] returns is the first one whose element satisfies
    the predicate. *)
Lemma findIndex_Some (l : list A) (i : nat) :
  findIndex p l = Z.of_nat i ->
  exists x, l !! i = Some x /\ p x = true /\
            forall k y, (k < i)%nat -> l !! k = Some y -> p y = false.
Proof.
  unfold findIndex. revert i. induction l as [|x l IH]; intros i; simpl; [lia|].
  destruct (p x) eqn:Hpx.
  - intros Hi. assert (i = 0%nat) as -> by lia. exists x. repeat split; [done|].
    intros; lia.
  - rewrite findIndex_from_shift by lia.
    destruct (Z.ltb_spec (findIndex_from p l 0) 0); [lia|]. intros Hi.
    destruct i as [|i]; [lia|].
    destruct (IH i) as (y & Hy & Hpy & Hmin); [lia|].
    exists y. repeat split; [done..|].
    intros [|k] z Hk; simpl; [by intros [= <-] | intros; eapply Hmin; [|done]; lia].
Qed.

Lemma findIndex_None (l : list A) :
  findIndex p l = -1 <-> forall x, x ∈ l -> p x = false.
Proof.
  unfold findIndex. induction l as [|x l IH]; simpl.
  - split; [intros _ y Hy; by apply elem_of_nil in Hy | done].
  - destruct (p x) eqn:Hpx.
    + split; [lia|]. intros Hall. specialize (Hall x (list_elem_of_here _ _)). congruence.
    + rewrite findIndex_from_shift by lia.
      destruct (findIndex_from_range l 0) as [E|E].
      * rewrite E in *. simpl. split; [|done]. intros _ y Hy.
        apply elem_of_cons in Hy as [->|Hy]; [done|]. by apply IH.
      * destruct (Z.ltb_spec (findIndex_from p l 0) 0); [lia|].
        split; [lia|]. intros Hall. exfalso.
        assert (findIndex_from p l 0 = -1); [|lia].
        apply IH. intros y Hy. apply Hall. by apply list_elem_of_further.
Qed.

Lemma findIndex_first (l : list A) (i : nat) (x : A) :
  l !! i = Some x -> p x = true ->
  (forall k y, (k < i)%nat -> l !! k = Some y -> p y = false) ->
  findIndex p l = Z.of_nat i.
Proof.
  unfold findIndex. revert i. induction l as [|y l IH]; intros i; [done|].
  destruct i as [|i]; simpl.
  - intros [= ->] -> _. done.
  - intros Hx Hpx Hmin. rewrite (Hmin 0%nat y); [|lia|done].
    rewrite findIndex_from_shift by lia.
    rewrite (IH i Hx Hpx).
    + destruct (Z.ltb_spec (Z.of_nat i) 0); lia.
    + intros k z Hk Hz. apply (Hmin (S k) z); [lia|done].
Qed.
End FindIndex.

Section Splice.
Context {A : Type}.

Lemma splice_remove_one (l : list A) (i : nat) (x : A) :
  l !! i = Some x -> splice l (Z.of_nat i) 1 [] = ([x], delete i l).
Proof.
  intros Hx. pose proof (lookup_lt_Some _ _ _ Hx) as Hlt.
  unfold splice. destruct (Z.ltb_spec (Z.of_nat i) 0); [lia|].
  replace (Z.of_nat i `min` Z.of_nat (length l)) with (Z.of_nat i) by lia.
  replace (Z.to_nat (Z.min (Z.max 1 0) (Z.of_nat (length l) - Z.of_nat i))) with 1%nat by lia.
  rewrite Nat2Z.id. f_equal.
  - rewrite (drop_S _ x) by done. done.
  - simpl. rewrite Nat.add_1_r. symmetry. apply delete_take_drop.
Qed.

Lemma splice_insert_one (l : list A) (j : nat) (x : A) :
  (j <= length l)%nat ->
  snd (splice l (Z.of_nat j) 0 [x]) = take j l ++ x :: drop j l.
Proof.
  intros Hj. unfold splice. destruct (Z.ltb_spec (Z.of_nat j) 0); [lia|].
  replace (Z.of_nat j `min` Z.of_nat (length l)) with (Z.of_nat j) by lia.
  replace (Z.to_nat (Z.min (Z.max 0 0) (Z.of_nat (length l) - Z.of_nat j))) with 0%nat by lia.
  rewrite Nat2Z.id. simpl. by rewrite Nat.add_0_r.
Qed.

End Splice.

Section ArrayMove.
Context {A : Type}.

(** Both positions inside the array: the element at [i] is taken out and
    put back at position [j]. *)
Lemma arrayMove_relocate (l : list A) (i j : nat) :
  (i < length l)%nat -> (j < length l)%nat ->
  arrayMove l (Z.of_nat i) (Z.of_nat j) = Some <$> relocate l i j.
Proof.
  intros Hi Hj. destruct (lookup_lt_is_Some_2 l i Hi) as [x Hx].
  unfold arrayMove, relocate. rewrite Hx.
  destruct (Z.ltb_spec (Z.of_nat j) 0); [lia|].
  rewrite (splice_remove_one _ _ _ Hx). cbv beta iota. cbn [head].
  assert (length (delete i l) = (length l - 1)%nat) as Hlen.
  { rewrite length_delete by eauto. done. }
  rewrite splice_insert_one by (rewrite length_fmap; lia).
  rewrite fmap_app, fmap_cons, fmap_take, fmap_drop. done.
Qed.

Lemma relocate_length (l : list A) (i j : nat) :
  (j < length l)%nat -> length (relocate l i j) = length l.
Proof.
  intros Hj. unfold relocate. destruct (l !! i) as [x|] eqn:Hx; [|done].
  pose proof (lookup_lt_Some _ _ _ Hx).
  rewrite length_app. simpl. rewrite length_take, length_drop, length_delete by eauto. lia.
Qed.

(** Where each element ends up. *)
Lemma relocate_lookup (l : list A) (i j k : nat) :
  (i < length l)%nat -> (j < length l)%nat ->
  relocate l i j !! k =
    if decide (k = j) then l !! i
    else if decide (i <= k < j)%nat then l !! S k
    else if decide (j < k <= i)%nat then l !! (k - 1)%nat
    else l !! k.
Proof.
  intros Hi Hj. destruct (lookup_lt_is_Some_2 l i Hi) as [x Hx].
  unfold relocate. rewrite Hx.
  assert (length (delete i l) = (length l - 1)%nat) as Hlen by (rewrite length_delete; eauto).
  destruct (decide (k < j)%nat) as [Hkj|Hkj].
  - rewrite lookup_app_l by (rewrite length_take; lia).
    rewrite lookup_take_lt by lia.
    destruct (decide (k = j)); [lia|].
    destruct (decide (i <= k < j)%nat).
    + by rewrite list_lookup_delete_ge by lia.
    + destruct (decide (j < k <= i)%nat); [lia|]. by rewrite list_lookup_delete_lt by lia.
  - rewrite lookup_app_r by (rewrite length_take; lia).
    rewrite length_take, Hlen. replace (j `min` (length l - 1))%nat with j by lia.
    destruct (decide (k = j)) as [->|Hne].
    + by rewrite Nat.sub_diag.
    + destruct (k - j)%nat as [|d] eqn:Hd; [lia|]. simpl.
      rewrite lookup_drop. replace (j + d)%nat with (k - 1)%nat by lia.
      destruct (decide (i <= k < j)%nat); [lia|].
      destruct (decide (j < k <= i)%nat).
      * by rewrite list_lookup_delete_lt by lia.
      * rewrite list_lookup_delete_ge by lia. f_equal. lia.
Qed.

Lemma relocate_Permutation (l : list A) (i j : nat) : relocate l i j ≡ₚ l.
Proof.
  unfold relocate. destruct (l !! i) as [x|] eqn:Hx; [|done].
  rewrite <- Permutation_middle, take_drop. symmetry. by apply delete_Permutation.
Qed.
End ArrayMove.

(** ** The operations of the list *)

Section ArrayMoveNegative.
Context {A : Type}.

Lemma splice_wrap (l : list A) (from : Z) :
  - Z.of_nat (length l) <= from < Z.of_nat (length l) ->
  splice l from 1 [] = splice l (Z.of_nat (wrap (Z.of_nat (length l)) from)) 1 [].
Proof.
  intros Hr. unfold splice, wrap.
  destruct (Z.ltb_spec from 0).
  - destruct (Z.ltb_spec (Z.of_nat (Z.to_nat (Z.of_nat (length l) + from))) 0); [lia|].
    rewrite Z2Nat.id by lia.
    replace (Z.max (Z.of_nat (length l) + from) 0) with (Z.of_nat (length l) + from) by lia.
    replace (Z.min (Z.of_nat (length l) + from) (Z.of_nat (length l)))
      with (Z.of_nat (length l) + from) by lia.
    done.
  - rewrite Z2Nat.id by lia. destruct (Z.ltb_spec from 0); [lia|]. done.
Qed.

Lemma arrayMove_wrap (l : list A) (from to : Z) :
  - Z.of_nat (length l) <= from < Z.of_nat (length l) ->
  - Z.of_nat (length l) <= to < Z.of_nat (length l) ->
  arrayMove l from to =
    Some <$> relocate l (wrap (Z.of_nat (length l)) from) (wrap (Z.of_nat (length l)) to).
Proof.
  intros Hf Ht.
  rewrite <- arrayMove_relocate by (unfold wrap; destruct (_ <? _) eqn:E; lia).
  unfold arrayMove. rewrite (splice_wrap _ _ Hf).
  destruct (splice l _ 1 []) as [removed rest]. f_equal.
  unfold wrap. destruct (Z.ltb_spec to 0).
  - rewrite Z2Nat.id by lia. destruct (Z.ltb_spec (Z.of_nat (length l) + to) 0); [lia|]. done.
  - rewrite Z2Nat.id by lia. destruct (Z.ltb_spec to 0); [lia|]. done.
Qed.

(** Whatever [findIndex] returned for the two positions, moving inside a
    non-empty array rearranges its elements. *)
Lemma arrayMove_Permutation (l l' : list A) (from to : Z) :
  -1 <= from < Z.of_nat (length l) -> -1 <= to < Z.of_nat (length l) ->
  arrayMove l from to = Some <$> l' -> l' ≡ₚ l.
Proof.
  intros Hf Ht. destruct l as [|x l].
  - assert (from = -1) as -> by (simpl in *; lia).
    assert (to = -1) as -> by (simpl in *; lia).
    destruct l'; discriminate.
  - rewrite arrayMove_wrap by (simpl length in *; lia).
    intros Heq. apply (inj (fmap Some)) in Heq as <-.
    apply relocate_Permutation.
Qed.

Lemma arrayMove_nil : arrayMove (@nil A) (-1) (-1) = [None].
Proof. reflexivity. Qed.
End ArrayMoveNegative.

Lemma findIndex_bounds {A} (p : A -> bool) (l : list A) :
  -1 <= findIndex p l < Z.of_nat (length l).
Proof.
  unfold findIndex. destruct (findIndex_from_range p l 0) as [->|?]; lia.
Qed.

Lemma dispatch_same (l : list Todo) (e : event) (l' : list Todo) :
  dispatch l l e = Some <$> l' <-> step l e l'.
Proof. split; [by constructor | by inversion 1]. Qed.

(** C6: [addTodo] does nothing when the trimmed text is empty; otherwise
    the list grows by one record, put last, whose text is the trimmed input,
    which is not completed, whose date is the time of the call and whose
    identifier is the generated one; the records already there keep their
    fields and their order. *)
Theorem addTodo_appends (todos : list Todo) (text uuid : jsstring) (now : Z) :
  let newTodo := {| id := uuid; text := trim text; completed := false;
                    createdAt := DateObj now |} in
  let after := if str_eqb (trim text) [] then todos else todos ++ [newTodo] in
  addTodo todos text uuid now =
    (if str_eqb (trim text) [] then None else Some (SetValue (todos ++ [newTodo])))
  /\ step todos (Add text uuid now) after
  /\ length after = (if str_eqb (trim text) [] then length todos else S (length todos))
  /\ take (length todos) after = todos
  /\ (if str_eqb (trim text) [] then after = todos else last after = Some newTodo).
Proof.
  intros newTodo after. subst after. split; [done|]. split.
  - constructor. unfold dispatch, handle, addTodo.
    by destruct (str_eqb (trim text) []).
  - destruct (str_eqb (trim text) []).
    + split; [done|]. split; [by rewrite take_ge by lia | done].
    + rewrite length_app, take_app_length, last_snoc. simpl.
      split; [lia|]. by split.
Qed.

(** C7: [toggleTodo] negates [completed] in every record whose
    identifier is the given one and leaves every other record, and every
    position, as it is; toggling twice gives the list back; an identifier
    that is not in the list leaves the list as it is. *)
Theorem toggleTodo_flips (todos : list Todo) (i : jsstring) :
  exists toggled,
    toggleTodo todos i = Some (SetValue toggled)
    /\ step todos (Toggle i) toggled
    /\ length toggled = length todos
    /\ (forall k, toggled !! k =
          (fun t => {| id := id t; text := text t;
                       completed := if str_eqb (id t) i then negb (completed t)
                                    else completed t;
                       createdAt := createdAt t |}) <$> todos !! k)
    /\ step toggled (Toggle i) todos
    /\ (i ∈ id <$> todos \/ toggled = todos).
Proof.
  set (f := fun todo : Todo => if str_eqb (id todo) i then flip todo else todo).
  assert (forall l : list Todo, f <$> (f <$> l) = l) as Hinv.
  { intros l. rewrite <- list_fmap_compose. rewrite <- (list_fmap_id l) at 2.
    apply list_fmap_ext. intros _ [a b c d] _. unfold f, flip. simpl.
    destruct (str_eqb a i) eqn:E; simpl; rewrite ?E; [|done].
    by rewrite negb_involutive. }
  exists (f <$> todos).
  split; [done|]. split; [by constructor|]. split; [apply length_fmap|].
  split; [|split].
  - intros k. rewrite list_lookup_fmap. destruct (todos !! k) as [[a b c d]|]; [|done].
    simpl. f_equal. unfold f, flip. simpl. by destruct (str_eqb a i).
  - constructor. unfold dispatch, handle, toggleTodo, applyAction. fold f. by rewrite Hinv.
  - destruct (decide (i ∈ id <$> todos)) as [Hin|Hnin]; [by left|right].
    rewrite <- (list_fmap_id todos) at 2. apply list_fmap_ext.
    intros k t Ht. unfold f. destruct (str_eqb (id t) i) eqn:E; [|done].
    apply str_eqb_eq in E. exfalso. apply Hnin. rewrite <- E.
    apply list_elem_of_fmap. exists t. split; [done|]. by eapply list_elem_of_lookup_2.
Qed.

(** C2 (amended): a drop without target, or on the record itself,
    leaves the list as it is, whatever the list: [setTodos] is not called.
    When both identifiers are found, at different positions, [handleDragEnd]
    takes the source record out and puts it at the position the target had;
    the records between the two positions shift by one place and no record
    changes. *)
Theorem handleDragEnd_relocates (items : list Todo) (active : jsstring) :
  (handleDragEnd active None = None /\ step items (DragEnd active None) items)
  /\ (handleDragEnd active (Some active) = None
      /\ step items (DragEnd active (Some active)) items)
  /\ forall (over : jsstring) (i j : nat),
       findIndex (fun item => str_eqb (id item) active) items = Z.of_nat i ->
       findIndex (fun item => str_eqb (id item) over) items = Z.of_nat j ->
       i <> j ->
       let moved := relocate items i j in
       step items (DragEnd active (Some over)) moved
       /\ length moved = length items
       /\ (forall k, moved !! k =
             if decide (k = j) then items !! i
             else if decide (i <= k < j)%nat then items !! S k
             else if decide (j < k <= i)%nat then items !! (k - 1)%nat
             else items !! k)
       /\ moved ≡ₚ items.
Proof.
  assert (handleDragEnd active (Some active) = None) as Hself.
  { unfold handleDragEnd. by rewrite str_eqb_refl. }
  split; [split; [done | by constructor]|].
  split; [split; [done|]; constructor; unfold dispatch, handle; by rewrite Hself|].
  intros over i j Hi Hj Hne moved.
  pose proof (findIndex_bounds (fun item => str_eqb (id item) active) items) as Bi.
  pose proof (findIndex_bounds (fun item => str_eqb (id item) over) items) as Bj.
  assert (active <> over) as Hids.
  { intros ->. rewrite Hi in Hj. lia. }
  split; [|split; [|split]].
  - constructor. unfold dispatch, handle, handleDragEnd.
    apply str_eqb_neq in Hids. rewrite Hids. simpl.
    unfold moveTodos. rewrite Hi, Hj. apply arrayMove_relocate; lia.
  - apply relocate_length. lia.
  - intros k. apply relocate_lookup; lia.
  - apply relocate_Permutation.
Qed.

(** C2 as stated fails: a source identifier that is not in the list
    does not leave the list as it is, the last record goes to the target's
    position. *)
Lemma handleDragEnd_missing_source_moves_last :
  ~ (forall (items : list Todo) (active over : jsstring),
       findIndex (fun item => str_eqb (id item) active) items = -1 \/
       findIndex (fun item => str_eqb (id item) over) items = -1 ->
       step items (DragEnd active (Some over)) items).
Proof.
  intros H.
  specialize (H [todoA; todoB; todoC] (lit "zzz") (lit "a") (or_introl eq_refl)).
  inversion H as [l e l' Hd]. vm_compute in Hd. discriminate.
Qed.

(** ** Mounting the hook, step by step *)

Section HookFacts.
Context {T : Type} {store : Store T}.



Lemma loadEffect_window (b : Browser) :
  hasWindow b = true ->
  loadEffect b =
    (if readFails b
     then (log (Warn (readWarning key)) (log (GetItem key) b), [], [true])
     else (log (GetItem key) b, [Value (hydratedValue b)], [true])).
Proof.
  intros Hw. unfold loadEffect, readFails, hydratedValue, getItem.
  rewrite Hw. destruct (getThrows b); [done|]. simpl.
  destruct (storedAt key b) as [[|c s]|]; [done| |done].
  by destruct (parse (c :: s)) as [v|] eqn:E.
Qed.

Lemma loadEffect_no_window (b : Browser) :
  hasWindow b = false -> loadEffect b = (b, [], [true]).
Proof. intros Hw. unfold loadEffect. by rewrite Hw. Qed.

Lemma hydratedValue_fails (b : Browser) :
  readFails b = true -> hydratedValue b = initialValue.
Proof.
  unfold readFails, hydratedValue. destruct (hasWindow b); [|done].
  destruct (getThrows b); [done|]. simpl.
  destruct (storedAt key b) as [[|c s]|]; [done| |done].
  by destruct (parse (c :: s)).
Qed.

Lemma hasWindow_afterLoad b : hasWindow (afterLoad b) = hasWindow b.
Proof. unfold afterLoad. destruct (hasWindow b) eqn:E; [|done]. by destruct (readFails b). Qed.

Lemma run_idle (n : nat) (c : config) : work c = None -> run n c = c.
Proof. intros Hc. destruct n; simpl; [done|]. by rewrite Hc. Qed.

(** [run] counted from the last step. *)
Lemma run_S_last (n : nat) (c : config) :
  run (S n) c = match work (run n c) with Some c' => c' | None => run n c end.
Proof.
  revert c. induction n as [|n IH]; intros c.
  - simpl. by destruct (work c).
  - change (run (S (S n)) c) with
      (match work c with Some c' => run (S n) c' | None => c end).
    change (run (S n) c) with
      (match work c with Some c' => run n c' | None => c end).
    destruct (work c) as [c'|] eqn:E; [apply IH|]. by rewrite E.
Qed.

Lemma run_1 (b : Browser) :
  run 1 (mount b) =
    ({| value := initialValue; isHydrated := false;
        valueQueue := if hasWindow b && negb (readFails b)
                      then [Value (hydratedValue b)] else [];
        hydratedQueue := [true]; effectsPending := false;
        loadDeps := Some key; saveDeps := Some (key, initialValue, false) |},
     afterLoad b).
Proof.
  unfold afterLoad. simpl. unfold work. simpl.
  destruct (hasWindow b) eqn:Hw.
  - rewrite (loadEffect_window b Hw). by destruct (readFails b).
  - by rewrite (loadEffect_no_window b Hw).
Qed.

Lemma run_2 (b : Browser) :
  run 2 (mount b) =
    ({| value := hydratedValue b; isHydrated := true;
        valueQueue := []; hydratedQueue := []; effectsPending := true;
        loadDeps := Some key; saveDeps := Some (key, initialValue, false) |},
     afterLoad b).
Proof.
  rewrite run_S_last, run_1. unfold work, idle, render. simpl.
  rewrite !andb_false_r. simpl. do 2 f_equal.
  destruct (hasWindow b) eqn:Hw; simpl.
  - destruct (readFails b) eqn:Hf; simpl; [|done].
    by rewrite hydratedValue_fails.
  - unfold hydratedValue. by rewrite Hw.
Qed.

Lemma run_3 (b : Browser) :
  run 3 (mount b) =
    ({| value := hydratedValue b; isHydrated := true;
        valueQueue := []; hydratedQueue := []; effectsPending := false;
        loadDeps := Some key; saveDeps := Some (key, hydratedValue b, true) |},
     saveEffect (hydratedValue b) true (afterLoad b)).
Proof.
  rewrite run_S_last, run_2. unfold work, flushEffects, depsChanged. simpl.
  rewrite str_eqb_refl. simpl. rewrite !andb_false_r. simpl. done.
Qed.

Lemma work_run_3 (b : Browser) : work (run 3 (mount b)) = None.
Proof. by rewrite run_3. Qed.

Lemma run_ge_3 (n : nat) (b : Browser) : (3 <= n)%nat -> run n (mount b) = run 3 (mount b).
Proof.
  induction 1 as [|n Hn IH]; [done|].
  by rewrite run_S_last, IH, work_run_3.
Qed.

Lemma calls_saveEffect (v : T) (b : Browser) :
  calls (saveEffect v true b) =
    calls b ++ (if hasWindow b
                then SetItem key (stringify v)
                     :: (if setThrows b then [Warn (writeWarning key)] else [])
                else []).
Proof.
  unfold saveEffect, setItem. simpl. destruct (hasWindow b); [|by rewrite app_nil_r].
  destruct (setThrows b); simpl; by rewrite <- ?app_assoc.
Qed.

Lemma items_saveEffect (v : T) (b : Browser) :
  items (saveEffect v true b) =
    if hasWindow b && negb (setThrows b) then <[key := stringify v]> (items b)
    else items b.
Proof.
  unfold saveEffect, setItem. simpl. destruct (hasWindow b); [|done].
  by destruct (setThrows b).
Qed.

Lemma calls_afterLoad (b : Browser) :
  calls (afterLoad b) =
    calls b ++ (if hasWindow b
                then GetItem key :: (if readFails b then [Warn (readWarning key)] else [])
                else []).
Proof.
  unfold afterLoad. destruct (hasWindow b); [|by rewrite app_nil_r].
  destruct (readFails b); simpl; by rewrite <- ?app_assoc.
Qed.

Lemma items_afterLoad (b : Browser) : items (afterLoad b) = items b.
Proof. unfold afterLoad. destruct (hasWindow b); [|done]. by destruct (readFails b). Qed.

Lemma setThrows_afterLoad (b : Browser) : setThrows (afterLoad b) = setThrows b.
Proof. unfold afterLoad. destruct (hasWindow b); [|done]. by destruct (readFails b). Qed.
End HookFacts.

(** ** Hydration and writes *)

Lemma readWarning_writeWarning (k k' : jsstring) : readWarning k <> writeWarning k'.
Proof. discriminate. Qed.

Lemma filter_is_write_app (l k : list call) :
  List.filter is_write (l ++ k) = List.filter is_write l ++ List.filter is_write k.
Proof. apply List.filter_app. Qed.

Section HookTheorems.
Context {T : Type} {store : Store T}.


Lemma run_cases (n : nat) (b : Browser) :
  (n = 0 \/ n = 1)%nat /\ isHydrated (fst (run n (mount b))) = false
    /\ get (run n (mount b)) = initialValue
    /\ items (snd (run n (mount b))) = items b
    /\ List.filter is_write (calls (snd (run n (mount b)))) = List.filter is_write (calls b)
  \/ (2 <= n)%nat /\ isHydrated (fst (run n (mount b))) = true
    /\ get (run n (mount b)) = hydratedValue b.
Proof.
  destruct n as [|[|[|n]]].
  - left. simpl. auto.
  - left. rewrite run_1. simpl.
    rewrite items_afterLoad, calls_afterLoad, filter_is_write_app.
    repeat split; [auto|]. destruct (hasWindow b); [|by rewrite app_nil_r].
    destruct (readFails b); simpl; by rewrite app_nil_r.
  - right. rewrite run_2. simpl. split; [lia|done].
  - right. rewrite run_ge_3 by lia.
    rewrite run_3. simpl. split; [lia|done].
Qed.

(** C1: a handle just created gives the initial value; as long as
    the instance is not marked hydrated [get] gives the initial value, the
    storage holds what it held and [setItem] has not been called; hydration
    does complete, and from then on, when the storage held under the key a
    text that parses, [get] gives the value parsed. *)
Theorem hydration_sequencing (b : Browser) :
  parse [] = None ->
  get (mount b) = initialValue
  /\ (forall n, isHydrated (fst (run n (mount b))) = false ->
        get (run n (mount b)) = initialValue
        /\ items (snd (run n (mount b))) = items b
        /\ List.filter is_write (calls (snd (run n (mount b))))
           = List.filter is_write (calls b))
  /\ isHydrated (fst (mounted b)) = true
  /\ work (mounted b) = None
  /\ (forall n saved v,
        hasWindow b = true -> getThrows b = false ->
        storedAt key b = Some saved -> parse saved = Some v ->
        isHydrated (fst (run n (mount b))) = true ->
        get (run n (mount b)) = v).
Proof.
  intros Hempty. split; [done|]. split; [|split; [|split]].
  - intros n Hn. destruct (run_cases n b) as [(_ & _ & ?)|(_ & Hy & _)]; [done|congruence].
  - unfold mounted. by rewrite run_3.
  - apply work_run_3.
  - intros n saved v Hw Hg Hs Hp Hn.
    destruct (run_cases n b) as [(_ & Hy & _)|(_ & _ & ->)]; [congruence|].
    unfold hydratedValue. rewrite Hw, Hg, Hs. simpl.
    destruct saved as [|c s]; [congruence|]. by rewrite Hp.
Qed.

(** C9: the render that marks the instance hydrated is followed at
    once by one call of [setItem] with the text of the value then in
    memory, although [set] was never called; it is the only write of the
    mount, and with nothing stored under the key it stores the text of the
    initial value there. *)
Theorem write_after_hydration (b : Browser) :
  hasWindow b = true ->
  isHydrated (fst (run 1 (mount b))) = false
  /\ isHydrated (fst (run 2 (mount b))) = true
  /\ calls (snd (run 3 (mount b)))
     = calls (snd (run 2 (mount b)))
       ++ SetItem key (stringify (get (run 2 (mount b))))
          :: (if setThrows b then [Warn (writeWarning key)] else [])
  /\ List.filter is_write (calls (snd (mounted b)))
     = List.filter is_write (calls b) ++ [SetItem key (stringify (get (mounted b)))]
  /\ (getThrows b = false -> storedAt key b = None ->
      get (mounted b) = initialValue
      /\ SetItem key (stringify initialValue) ∈ calls (snd (mounted b))
      /\ (setThrows b = false ->
          storedAt key (snd (mounted b)) = Some (stringify initialValue))).
Proof.
  intros Hw. unfold mounted.
  rewrite run_1, run_2,
    run_3. simpl.
  split; [done|]. split; [done|].
  rewrite calls_saveEffect, hasWindow_afterLoad, setThrows_afterLoad, Hw.
  split; [done|]. split.
  - rewrite calls_afterLoad, Hw, !filter_is_write_app. simpl.
    destruct (readFails b), (setThrows b); simpl; by rewrite ?app_nil_r.
  - intros Hg Hnone.
    assert (hydratedValue b = initialValue) as ->.
    { unfold hydratedValue. by rewrite Hw, Hg, Hnone. }
    split; [done|]. split.
    + apply elem_of_app. right. apply list_elem_of_here.
    + intros Hs. unfold storedAt.
      rewrite items_saveEffect, hasWindow_afterLoad, setThrows_afterLoad, Hw, Hs.
      simpl. apply lookup_insert_eq.
Qed.

(** The calls made since the instance was created. *)
Lemma calls_mounted (b : Browser) :
  hasWindow b = true ->
  calls (snd (mounted b)) =
    calls b ++ GetItem key
      :: (if readFails b then [Warn (readWarning key)] else [])
      ++ SetItem key (stringify (hydratedValue b))
      :: (if setThrows b then [Warn (writeWarning key)] else []).
Proof.
  intros Hw. unfold mounted. rewrite run_3. simpl.
  rewrite calls_saveEffect, hasWindow_afterLoad, setThrows_afterLoad, calls_afterLoad, Hw.
  by rewrite <- app_assoc.
Qed.

(** C10: at the hydration read an empty stored text counts as no
    text (the initial value stays, no warning); a non-empty text that
    parses becomes the value in memory, whatever it parses to; the warning
    of the read is logged exactly when [getItem] throws or [JSON.parse]
    throws on the text found. *)
Theorem hydration_read (b : Browser) :
  hasWindow b = true ->
  let logged := drop (length (calls b)) (calls (snd (mounted b))) in
  (getThrows b = false -> storedAt key b = Some [] ->
     get (mounted b) = initialValue /\ Warn (readWarning key) ∉ logged)
  /\ (forall c s v, getThrows b = false -> storedAt key b = Some (c :: s) ->
        parse (c :: s) = Some v -> get (mounted b) = v)
  /\ (Warn (readWarning key) ∈ logged <->
      getThrows b = true
      \/ exists c s, storedAt key b = Some (c :: s) /\ parse (c :: s) = None).
Proof.
  intros Hw logged.
  assert (logged = GetItem key
      :: (if readFails b then [Warn (readWarning key)] else [])
      ++ SetItem key (stringify (hydratedValue b))
      :: (if setThrows b then [Warn (writeWarning key)] else [])) as Hlogged.
  { unfold logged. rewrite calls_mounted by done. by rewrite drop_app_length. }
  assert (Warn (readWarning key) ∈ logged <-> readFails b = true) as Hwarn.
  { rewrite Hlogged, elem_of_cons, elem_of_app, elem_of_cons.
    assert (Warn (readWarning key) <> Warn (writeWarning key)) as Hrw
      by (intros [= E]; by apply readWarning_writeWarning in E).
    destruct (readFails b), (setThrows b);
      rewrite ?list_elem_of_singleton, ?elem_of_nil; split; intros; try done;
      try tauto; destruct_or!; done. }
  assert (get (mounted b) = hydratedValue b) as Hget.
  { unfold mounted. by rewrite run_3. }
  split; [|split].
  - intros Hg Hs. split.
    + rewrite Hget. unfold hydratedValue. by rewrite Hw, Hg, Hs.
    + rewrite Hwarn. unfold readFails. by rewrite Hg, Hs.
  - intros c s v Hg Hs Hp. rewrite Hget. unfold hydratedValue.
    by rewrite Hw, Hg, Hs, Hp.
  - rewrite Hwarn. unfold readFails. destruct (getThrows b); simpl.
    + split; auto.
    + destruct (storedAt key b) as [[|c s]|] eqn:Hs.
      * split; [done|]. intros [?|(? & ? & ? & _)]; done.
      * destruct (parse (c :: s)) eqn:Hp.
        -- split; [done|]. intros [?|(? & ? & [= <- <-] & ?)]; congruence.
        -- split; [|done]. intros _. right. by exists c, s.
      * split; [done|]. intros [?|(? & ? & ? & _)]; done.
Qed.

Lemma idle_queues (h : Hook T) :
  idle h = true ->
  effectsPending h = false /\ valueQueue h = [] /\ hydratedQueue h = [].
Proof.
  unfold idle. rewrite !andb_true_iff, !bool_decide_eq_true, negb_true_iff.
  intros [[? Hv] Hh]. repeat split; [done|..].
  - by destruct (valueQueue h).
  - by destruct (hydratedQueue h).
Qed.

Lemma work_None (c : config) :
  work c = None ->
  effectsPending (fst c) = false /\ valueQueue (fst c) = [] /\ hydratedQueue (fst c) = [].
Proof.
  unfold work. destruct (effectsPending (fst c)) eqn:E; [done|].
  destruct (idle (fst c)) eqn:Hi; [|done]. intros _.
  destruct (idle_queues _ Hi) as (_ & ? & ?). done.
Qed.

Lemma mounted_settled (b : Browser) : settled (mounted b).
Proof.
  unfold settled, mounted.
  split; [|split; [apply work_run_3|]]; by rewrite run_3.
Qed.

Lemma settled_shape (c : config) :
  settled c ->
  c = ({| value := get c; isHydrated := true; valueQueue := []; hydratedQueue := [];
          effectsPending := false; loadDeps := Some key;
          saveDeps := Some (key, get c, true) |}, snd c).
Proof.
  destruct c as [h b]. intros (Hy & Hwork & Hl & Hs).
  destruct (work_None _ Hwork) as (He & Hvq & Hhq).
  destruct h. unfold get. simpl in *. by subst.
Qed.

Lemma set_same (c : config) (a : SetStateAction T) :
  settled c -> same (get c) (applySetState (get c) a) = true -> set a c = c.
Proof.
  intros Hc Hsame. rewrite (settled_shape c Hc) in *.
  unfold get in Hsame. simpl in Hsame.
  unfold set, run, enqueue, work, render, idle. simpl.
  unfold get. simpl. rewrite Hsame. simpl. done.
Qed.

Lemma set_changed (c : config) (a : SetStateAction T) :
  settled c -> same (get c) (applySetState (get c) a) = false ->
  set a c =
    ({| value := applySetState (get c) a; isHydrated := true; valueQueue := [];
        hydratedQueue := []; effectsPending := false; loadDeps := Some key;
        saveDeps := Some (key, applySetState (get c) a, true) |},
     saveEffect (applySetState (get c) a) true (snd c)).
Proof.
  intros Hc Hsame. rewrite (settled_shape c Hc) in *.
  unfold get in *. simpl in *.
  unfold set, run, enqueue, work, render, idle. simpl.
  rewrite Hsame. simpl.
  unfold flushEffects, depsChanged. simpl. rewrite str_eqb_refl, Hsame. simpl. done.
Qed.

Lemma enqueue_all (acts : list (SetStateAction T)) (h : Hook T) (b : Browser) :
  foldl (fun c a => enqueue a c) (h, b) acts =
    ({| value := value h; isHydrated := isHydrated h;
        valueQueue := valueQueue h ++ acts; hydratedQueue := hydratedQueue h;
        effectsPending := effectsPending h; loadDeps := loadDeps h;
        saveDeps := saveDeps h |}, b).
Proof.
  revert h. induction acts as [|a acts IH]; intros h; simpl.
  - rewrite app_nil_r. by destruct h.
  - rewrite IH. simpl. by rewrite <- app_assoc.
Qed.

Lemma setBatch_shape (c : config) (acts : list (SetStateAction T)) :
  settled c -> acts <> [] ->
  setBatch acts c =
    if same (get c) (foldl applySetState (get c) acts) then c
    else ({| value := foldl applySetState (get c) acts; isHydrated := true;
             valueQueue := []; hydratedQueue := []; effectsPending := false;
             loadDeps := Some key;
             saveDeps := Some (key, foldl applySetState (get c) acts, true) |},
          saveEffect (foldl applySetState (get c) acts) true (snd c)).
Proof.
  intros Hc Hne.
  assert (setBatch acts c =
          run 2 ({| value := get c; isHydrated := true; valueQueue := acts;
                    hydratedQueue := []; effectsPending := false;
                    loadDeps := Some key; saveDeps := Some (key, get c, true) |},
                 snd c)) as ->.
  { unfold setBatch. rewrite (settled_shape c Hc) at 1. by rewrite enqueue_all. }
  destruct acts as [|a acts]; [done|].
  unfold run. unfold work at 1. cbn [fst effectsPending]. unfold idle.
  cbn [effectsPending valueQueue negb andb].
  replace (bool_decide (length (a :: acts) = 0%nat)) with false
    by (symmetry; by apply bool_decide_eq_false).
  cbn [andb]. unfold render.
  cbn [value valueQueue isHydrated hydratedQueue last default loadDeps saveDeps].
  rewrite bool_decide_eq_true_2 by done. rewrite andb_true_r.
  destruct (same (get c) (foldl applySetState (get c) (a :: acts))) eqn:Hsame.
  - cbn [negb]. unfold work. cbn [fst effectsPending]. unfold idle. simpl.
    symmetry. by apply settled_shape.
  - cbn [negb]. unfold work. cbn [fst effectsPending].
    unfold flushEffects, depsChanged. cbn [loadDeps saveDeps value isHydrated].
    rewrite !str_eqb_refl, Hsame. simpl. done.
Qed.

(** C5 (amended): once the instance is hydrated, a call of [set]
    that React renders before the next call is made, and whose resulting
    value is not the value in memory ([Object.is]), makes that value the
    value in memory and calls [setItem] with its text; a call whose
    resulting value is the value in memory changes nothing and writes
    nothing.  Calls made before React renders again are applied in the
    order they were made and written once, with the text of the final
    value.  Either way the instance is again hydrated with nothing left to
    do, so this holds for every later call. *)
Theorem set_writes_changed_value (c : config) (a : SetStateAction T) :
  settled c -> hasWindow (snd c) = true ->
  let v' := applySetState (get c) a in
  (forall b, settled (mounted b))
  /\ settled (set a c)
  /\ hasWindow (snd (set a c)) = true
  /\ (if same (get c) v' then set a c = c
      else get (set a c) = v'
           /\ calls (snd (set a c))
              = calls (snd c)
                ++ SetItem key (stringify v')
                   :: (if setThrows (snd c) then [Warn (writeWarning key)] else [])
           /\ items (snd (set a c))
              = if setThrows (snd c) then items (snd c)
                else <[key := stringify v']> (items (snd c)))
  /\ setBatch [a] c = set a c
  /\ (forall acts, acts <> [] ->
        let w := foldl applySetState (get c) acts in
        settled (setBatch acts c)
        /\ hasWindow (snd (setBatch acts c)) = true
        /\ (if same (get c) w then setBatch acts c = c
            else get (setBatch acts c) = w
                 /\ calls (snd (setBatch acts c))
                    = calls (snd c)
                      ++ SetItem key (stringify w)
                         :: (if setThrows (snd c) then [Warn (writeWarning key)]
                             else [])
                 /\ items (snd (setBatch acts c))
                    = if setThrows (snd c) then items (snd c)
                      else <[key := stringify w]> (items (snd c)))).
Proof.
  intros Hc Hw v'.
  assert (forall w,
            hasWindow (saveEffect w true (snd c)) = true
            /\ calls (saveEffect w true (snd c))
               = calls (snd c)
                 ++ SetItem key (stringify w)
                    :: (if setThrows (snd c) then [Warn (writeWarning key)] else [])
            /\ items (saveEffect w true (snd c))
               = if setThrows (snd c) then items (snd c)
                 else <[key := stringify w]> (items (snd c))) as Hsave.
  { intros w. split; [|split].
    - unfold saveEffect, setItem. simpl. rewrite Hw. by destruct (setThrows (snd c)).
    - by rewrite calls_saveEffect, Hw.
    - rewrite items_saveEffect, Hw. by destruct (setThrows (snd c)). }
  split; [apply mounted_settled|].
  assert (settled (set a c) /\ hasWindow (snd (set a c)) = true
          /\ (if same (get c) v' then set a c = c
              else get (set a c) = v'
                   /\ calls (snd (set a c))
                      = calls (snd c)
                        ++ SetItem key (stringify v')
                           :: (if setThrows (snd c) then [Warn (writeWarning key)]
                               else [])
                   /\ items (snd (set a c))
                      = if setThrows (snd c) then items (snd c)
                        else <[key := stringify v']> (items (snd c)))) as (H1 & H2 & H3).
  { destruct (same (get c) v') eqn:Hsame.
    - by rewrite (set_same c a Hc Hsame).
    - rewrite (set_changed c a Hc Hsame). fold v'. simpl.
      destruct (Hsave v') as (Ha & Hb & Hd).
      split; [unfold settled; simpl; repeat split; done|]. done. }
  split; [done|]. split; [done|]. split; [done|]. split; [done|].
  intros acts Hne w. rewrite (setBatch_shape c acts Hc Hne). fold w.
  destruct (same (get c) w); [done|]. simpl.
  destruct (Hsave w) as (Ha & Hb & Hd).
  split; [unfold settled; simpl; repeat split; done|]. done.
Qed.
End HookTheorems.

(** C5 as stated fails: on a hydrated instance whose value is the
    string ['initial'], [set('initial')] calls [setItem] no more. *)
Lemma set_same_value_writes_nothing :
  isHydrated (fst (mountedTest emptyBrowser)) = true
  /\ get (mountedTest emptyBrowser) = VStr (lit "initial")
  /\ calls (snd (setTest (Value (VStr (lit "initial"))) (mountedTest emptyBrowser)))
     = calls (snd (mountedTest emptyBrowser))
  /\ List.filter is_write
       (calls (snd (setTest (Value (VStr (lit "initial"))) (mountedTest emptyBrowser))))
     = [SetItem testKey (stored_text (VStr (lit "initial")))].
Proof. vm_compute. repeat split. Qed.

Lemma hydration_sequencing_witness :
  parse (Store := testStore) [] = None
  /\ get (mountedTest seededBrowser) = VStr (lit "saved-value").
Proof.
  split; [reflexivity|].
  refine (proj2 (proj2 (proj2 (proj2
    (hydration_sequencing (store := testStore)
       seededBrowser eq_refl)))) 3%nat (stored_text (VStr (lit "saved-value")))
       (VStr (lit "saved-value")) eq_refl eq_refl _ _ eq_refl).
  - vm_compute. reflexivity.
  - vm_compute. reflexivity.
Defined.

(** ** [JSON.parse] terminates *)

Lemma skip_ws_length (s : jsstring) : (length (skip_ws s) <= length s)%nat.
Proof.
  induction s as [|c r IH]; simpl; [done|]. destruct (is_ws c); simpl; lia.
Qed.

Lemma bind_Parsed {A B} (o : outcome A) (k : A -> outcome B) (b : B) :
  bind o k = Parsed b -> exists a, o = Parsed a /\ k a = Parsed b.
Proof. destruct o; simpl; try done. eauto. Qed.

Lemma bind_not_Exhausted {A B} (o : outcome A) (k : A -> outcome B) :
  o <> Exhausted -> (forall a, o = Parsed a -> k a <> Exhausted) ->
  bind o k <> Exhausted.
Proof. destruct o; simpl; try done. intros _ H. by apply H. Qed.

Lemma parse_chars_not_Exhausted (s : jsstring) : parse_chars s <> Exhausted.
Proof.
  remember (length s) as n eqn:Hn. revert s Hn.
  induction n as [n IH] using lt_wf_ind. intros s Hn.
  destruct s as [|c r]; [done|]. simpl.
  destruct (c =? 34)%N; [done|].
  destruct (c =? 92)%N.
  - destruct r as [|e r1]; [done|].
    destruct (e =? 117)%N.
    + destruct r1 as [|h1 [|h2 [|h3 [|h4 r2]]]]; try done.
      destruct (hex4val h1 h2 h3 h4); [|done].
      apply bind_not_Exhausted; [|done].
      apply (IH (length r2)); [simpl in Hn; lia|done].
    + destruct (simple_escape e); [|done].
      apply bind_not_Exhausted; [|done].
      apply (IH (length r1)); [simpl in Hn; lia|done].
  - destruct (c <? 32)%N; [done|].
    apply bind_not_Exhausted; [|done].
    apply (IH (length r)); [simpl in Hn; lia|done].
Qed.

Lemma parse_chars_shorter (s k r : jsstring) :
  parse_chars s = Parsed (k, r) -> (length r < length s)%nat.
Proof.
  remember (length s) as n eqn:Hn. revert s k r Hn.
  induction n as [n IH] using lt_wf_ind. intros s k r Hn.
  destruct s as [|c s']; [done|]. simpl.
  destruct (c =? 34)%N; [intros [= _ <-]; simpl in *; lia|].
  destruct (c =? 92)%N.
  - destruct s' as [|e r1]; [done|].
    destruct (e =? 117)%N.
    + destruct r1 as [|h1 [|h2 [|h3 [|h4 r2]]]]; try done.
      destruct (hex4val h1 h2 h3 h4); [|done].
      intros H. apply bind_Parsed in H as ([k' r'] & Hp & [= _ <-]).
      apply (IH (length r2)) in Hp; simpl in *; [lia|lia|done].
    + destruct (simple_escape e); [|done].
      intros H. apply bind_Parsed in H as ([k' r'] & Hp & [= _ <-]).
      apply (IH (length r1)) in Hp; simpl in *; [lia|lia|done].
  - destruct (c <? 32)%N; [done|].
    intros H. apply bind_Parsed in H as ([k' r'] & Hp & [= _ <-]).
    apply (IH (length s')) in Hp; simpl in *; [lia|lia|done].
Qed.

Lemma strip_length (p s r : jsstring) :
  strip p s = Some r -> (length r + length p = length s)%nat.
Proof.
  revert s. induction p as [|c p IH]; intros s.
  - simpl. intros [= ->]. lia.
  - destruct s as [|d s]; simpl; [done|].
    destruct (c =? d)%N; [|done]. intros H. apply IH in H. lia.
Qed.

Lemma next_length (c : N) (s r : jsstring) :
  next c s = Some r -> (length r < length s)%nat.
Proof.
  unfold next. pose proof (skip_ws_length s) as Hs.
  destruct (skip_ws s) as [|c' r']; [done|].
  destruct (c' =? c)%N; [|done]. intros [= ->]. simpl in Hs. lia.
Qed.

Lemma parse_value_S (f : nat) (s : jsstring) :
  parse_value (S f) s =
    match strip (lit "null") (skip_ws s) with
    | Some r => Parsed (VNull, r)
    | None =>
    match strip (lit "true") (skip_ws s) with
    | Some r => Parsed (VBool true, r)
    | None =>
    match strip (lit "false") (skip_ws s) with
    | Some r => Parsed (VBool false, r)
    | None =>
    match skip_ws s with
    | [] => SyntaxError
    | c :: r =>
        if (c =? 34)%N then
          bind (parse_chars r) (fun p => Parsed (VStr (fst p), snd p))
        else if (c =? 91)%N then
          match next 93 r with
          | Some r' => Parsed (VArr [], r')
          | None => bind (parse_elements f r) (fun p => Parsed (VArr (fst p), snd p))
          end
        else if (c =? 123)%N then
          match next 125 r with
          | Some r' => Parsed (VObj [], r')
          | None => bind (parse_members f r)
                      (fun p => Parsed (VObj (foldl obj_set [] (fst p)), snd p))
          end
        else if (c =? 45)%N || is_digit c then Unmodelled
        else SyntaxError
    end end end end.
Proof. reflexivity. Qed.

Lemma parse_members_S (f : nat) (s : jsstring) :
  parse_members (S f) s =
    match next 34 s with
    | Some r =>
        bind (parse_chars r) (fun k =>
          match next 58 (snd k) with
          | Some r1 =>
              bind (parse_value f r1) (fun p =>
                match next 44 (snd p) with
                | Some r2 =>
                    bind (parse_members f r2)
                      (fun q => Parsed ((fst k, fst p) :: fst q, snd q))
                | None =>
                    match next 125 (snd p) with
                    | Some r2 => Parsed ([(fst k, fst p)], r2)
                    | None => SyntaxError
                    end
                end)
          | None => SyntaxError
          end)
    | None => SyntaxError
    end.
Proof. reflexivity. Qed.

Lemma parse_elements_S (f : nat) (s : jsstring) :
  parse_elements (S f) s =
    bind (parse_value f s) (fun p =>
      match next 44 (snd p) with
      | Some r => bind (parse_elements f r) (fun q => Parsed (fst p :: fst q, snd q))
      | None =>
          match next 93 (snd p) with
          | Some r => Parsed ([fst p], r)
          | None => SyntaxError
          end
      end).
Proof. reflexivity. Qed.

(** A parse that succeeds consumes text. *)
Lemma parse_shorter (f : nat) :
  (forall s v r, parse_value f s = Parsed (v, r) -> (length r < length s)%nat)
  /\ (forall s vs r, parse_elements f s = Parsed (vs, r) -> (length r < length s)%nat)
  /\ (forall s ms r, parse_members f s = Parsed (ms, r) -> (length r < length s)%nat).
Proof.
  induction f as [|f (IHv & IHe & IHm)]; [by repeat split|].
  split; [|split].
  - intros s v r. rewrite parse_value_S. pose proof (skip_ws_length s) as Hs.
    destruct (strip (lit "null") _) as [r0|] eqn:E0.
    { intros [= _ <-]. apply strip_length in E0. simpl in E0. lia. }
    destruct (strip (lit "true") _) as [r1|] eqn:E1.
    { intros [= _ <-]. apply strip_length in E1. simpl in E1. lia. }
    destruct (strip (lit "false") _) as [r2|] eqn:E2.
    { intros [= _ <-]. apply strip_length in E2. simpl in E2. lia. }
    destruct (skip_ws s) as [|c r']; [done|]. simpl in Hs.
    destruct (c =? 34)%N.
    { intros H. apply bind_Parsed in H as ([k r''] & Hp & [= _ <-]).
      apply parse_chars_shorter in Hp. simpl. lia. }
    destruct (c =? 91)%N.
    { destruct (next 93 r') as [r3|] eqn:E3.
      - intros [= _ <-]. apply next_length in E3. lia.
      - intros H. apply bind_Parsed in H as ([k r''] & Hp & [= _ <-]).
        apply IHe in Hp. simpl. lia. }
    destruct (c =? 123)%N.
    { destruct (next 125 r') as [r3|] eqn:E3.
      - intros [= _ <-]. apply next_length in E3. lia.
      - intros H. apply bind_Parsed in H as ([k r''] & Hp & [= _ <-]).
        apply IHm in Hp. simpl. lia. }
    by destruct (_ || _).
  - intros s vs r. rewrite parse_elements_S.
    intros H. apply bind_Parsed in H as ([v r1] & Hp & H). apply IHv in Hp. simpl in H.
    destruct (next 44 r1) as [r2|] eqn:E2.
    + apply next_length in E2.
      apply bind_Parsed in H as ([vs' r3] & Hq & [= _ <-]). apply IHe in Hq. simpl. lia.
    + destruct (next 93 r1) as [r2|] eqn:E3; [|done].
      apply next_length in E3. injection H as _ <-. lia.
  - intros s ms r. rewrite parse_members_S.
    destruct (next 34 s) as [r0|] eqn:E0; [|done]. apply next_length in E0.
    intros H. apply bind_Parsed in H as ([k r1] & Hk & H).
    apply parse_chars_shorter in Hk. simpl in H.
    destruct (next 58 r1) as [r2|] eqn:E2; [|done]. apply next_length in E2.
    apply bind_Parsed in H as ([v r3] & Hv & H). apply IHv in Hv. simpl in H.
    destruct (next 44 r3) as [r4|] eqn:E4.
    + apply next_length in E4.
      apply bind_Parsed in H as ([ms' r5] & Hq & [= _ <-]). apply IHm in Hq. simpl. lia.
    + destruct (next 125 r3) as [r4|] eqn:E5; [|done].
      apply next_length in E5. injection H as _ <-. lia.
Qed.

(** The fuel [JSON_parse] gives is enough. *)
Lemma parse_fuel (f : nat) :
  (forall s, (2 * length s < f)%nat -> parse_value f s <> Exhausted)
  /\ (forall s, (2 * length s + 1 < f)%nat -> parse_elements f s <> Exhausted)
  /\ (forall s, (2 * length s + 1 < f)%nat -> parse_members f s <> Exhausted).
Proof.
  induction f as [|f (IHv & IHe & IHm)]; [repeat split; intros; lia|].
  destruct (parse_shorter f) as (Sv & Se & Sm).
  split; [|split].
  - intros s Hf. rewrite parse_value_S. pose proof (skip_ws_length s) as Hs.
    destruct (strip (lit "null") _); [done|].
    destruct (strip (lit "true") _); [done|].
    destruct (strip (lit "false") _); [done|].
    destruct (skip_ws s) as [|c r']; [done|]. simpl in Hs.
    destruct (c =? 34)%N.
    { apply bind_not_Exhausted; [apply parse_chars_not_Exhausted|done]. }
    destruct (c =? 91)%N.
    { destruct (next 93 r'); [done|].
      apply bind_not_Exhausted; [apply IHe; lia|done]. }
    destruct (c =? 123)%N.
    { destruct (next 125 r'); [done|].
      apply bind_not_Exhausted; [apply IHm; lia|done]. }
    by destruct (_ || _).
  - intros s Hf. rewrite parse_elements_S.
    apply bind_not_Exhausted; [apply IHv; lia|].
    intros [v r1] Hp. apply Sv in Hp. simpl.
    destruct (next 44 r1) as [r2|] eqn:E2.
    + apply next_length in E2. apply bind_not_Exhausted; [apply IHe; lia|done].
    + by destruct (next 93 r1).
  - intros s Hf. rewrite parse_members_S.
    destruct (next 34 s) as [r0|] eqn:E0; [|done]. apply next_length in E0.
    apply bind_not_Exhausted; [apply parse_chars_not_Exhausted|].
    intros [k r1] Hk. apply parse_chars_shorter in Hk. simpl.
    destruct (next 58 r1) as [r2|] eqn:E2; [|done]. apply next_length in E2.
    apply bind_not_Exhausted; [apply IHv; lia|].
    intros [v r3] Hv. apply Sv in Hv. simpl.
    destruct (next 44 r3) as [r4|] eqn:E4.
    + apply next_length in E4. apply bind_not_Exhausted; [apply IHm; lia|done].
    + by destruct (next 125 r3).
Qed.

(** [JSON_parse] never runs out of fuel: it returns a value, a syntax error,
    or meets a number. *)
Lemma JSON_parse_total (s : jsstring) : JSON_parse s <> Exhausted.
Proof.
  unfold JSON_parse. apply bind_not_Exhausted.
  - apply (parse_fuel (S (2 * length s))). lia.
  - intros [v r] _. simpl. by destruct (skip_ws r).
Qed.

(** ** Reading back what [JSON.stringify] wrote *)

Lemma hexval_hexdigit (n : N) : (n < 16)%N -> hexval (hexdigit n) = Some n.
Proof.
  intros Hn. unfold hexval, hexdigit.
  destruct (N.ltb_spec n 10).
  - destruct (N.leb_spec 48 (48 + n)); [|lia].
    destruct (N.leb_spec (48 + n) 57); [|lia]. simpl. f_equal. lia.
  - destruct (N.leb_spec 48 (87 + n)); [|lia].
    destruct (N.leb_spec (87 + n) 57); [lia|]. simpl.
    destruct (N.leb_spec 65 (87 + n)); [|lia].
    destruct (N.leb_spec (87 + n) 70); [lia|]. simpl.
    destruct (N.leb_spec 97 (87 + n)); [|lia].
    destruct (N.leb_spec (87 + n) 102); [|lia]. simpl. f_equal. lia.
Qed.

Lemma hex4val_digits (c : N) :
  (c < 65536)%N ->
  hex4val (hexdigit (c / 4096 mod 16)) (hexdigit (c / 256 mod 16))
          (hexdigit (c / 16 mod 16)) (hexdigit (c mod 16)) = Some c.
Proof.
  intros Hc. unfold hex4val.
  rewrite !hexval_hexdigit by (apply N.mod_lt; lia). f_equal.
  pose proof (N.div_mod c 4096). pose proof (N.div_mod c 256).
  pose proof (N.div_mod c 16).
  pose proof (N.div_mod (c / 4096) 16). pose proof (N.div_mod (c / 256) 16).
  pose proof (N.div_mod (c / 16) 16).
  pose proof (N.mod_lt c 16). pose proof (N.mod_lt (c / 16) 16).
  pose proof (N.mod_lt (c / 256) 16). pose proof (N.mod_lt (c / 4096) 16).
  pose proof (N.mod_lt c 4096). pose proof (N.mod_lt c 256).
  assert (c / 4096 / 16 = 0)%N.
  { rewrite N.Div0.div_div. apply N.div_small. lia. }
  assert (c / 256 / 16 = c / 4096)%N by (by rewrite N.Div0.div_div).
  assert (c / 16 / 16 = c / 256)%N by (by rewrite N.Div0.div_div).
  lia.
Qed.

Lemma parse_chars_raw (c : N) (rest : jsstring) (out : jsstring * jsstring) :
  (c =? 34)%N = false -> (c =? 92)%N = false -> (c <? 32)%N = false ->
  parse_chars rest = Parsed out ->
  parse_chars (c :: rest) = Parsed (c :: fst out, snd out).
Proof. intros H1 H2 H3 Hr. simpl. by rewrite H1, H2, H3, Hr. Qed.

Lemma parse_chars_unicodeEscape (c : N) (rest : jsstring) (out : jsstring * jsstring) :
  (c < 65536)%N ->
  parse_chars rest = Parsed out ->
  parse_chars (unicodeEscape c ++ rest) = Parsed (c :: fst out, snd out).
Proof.
  intros Hc Hr. unfold unicodeEscape.
  change (parse_chars (_ ++ rest)) with
    (match hex4val (hexdigit (c / 4096 mod 16)) (hexdigit (c / 256 mod 16))
                   (hexdigit (c / 16 mod 16)) (hexdigit (c mod 16)) with
     | Some u => bind (parse_chars rest) (fun p => Parsed (u :: fst p, snd p))
     | None => SyntaxError
     end).
  by rewrite hex4val_digits, Hr.
Qed.

Lemma parse_chars_escape_unit (c : N) (rest : jsstring) (out : jsstring * jsstring) :
  is_lead c = false ->
  parse_chars rest = Parsed out ->
  parse_chars (escape_unit c ++ rest) = Parsed (c :: fst out, snd out).
Proof.
  intros Hl Hr. unfold escape_unit.
  destruct (N.eqb_spec c 8) as [->|]; [simpl; by rewrite Hr|].
  destruct (N.eqb_spec c 9) as [->|]; [simpl; by rewrite Hr|].
  destruct (N.eqb_spec c 10) as [->|]; [simpl; by rewrite Hr|].
  destruct (N.eqb_spec c 12) as [->|]; [simpl; by rewrite Hr|].
  destruct (N.eqb_spec c 13) as [->|]; [simpl; by rewrite Hr|].
  destruct (N.eqb_spec c 34) as [->|]; [simpl; by rewrite Hr|].
  destruct (N.eqb_spec c 92) as [->|]; [simpl; by rewrite Hr|].
  rewrite Hl, orb_false_r.
  destruct (N.ltb_spec c 32); simpl.
  - apply parse_chars_unicodeEscape; [lia|done].
  - destruct (is_trail c) eqn:Ht.
    + apply parse_chars_unicodeEscape; [|done].
      unfold is_trail in Ht. apply andb_true_iff in Ht as [_ Ht].
      apply N.leb_le in Ht. lia.
    + apply parse_chars_raw; try done; [by apply N.eqb_neq..|by apply N.ltb_ge].
Qed.

Lemma quote_body_pair (c d : N) (r : jsstring) :
  is_lead c = true -> is_trail d = true ->
  quote_body (c :: d :: r) = c :: d :: quote_body r.
Proof.
  intros Hl Ht.
  change (quote_body (c :: d :: r)) with
    (if is_lead c
     then if is_trail d then c :: d :: quote_body r
          else unicodeEscape c ++ quote_body (d :: r)
     else escape_unit c ++ quote_body (d :: r)).
  by rewrite Hl, Ht.
Qed.

Lemma quote_body_lone_lead (c d : N) (r : jsstring) :
  is_lead c = true -> is_trail d = false ->
  quote_body (c :: d :: r) = unicodeEscape c ++ quote_body (d :: r).
Proof.
  intros Hl Ht.
  change (quote_body (c :: d :: r)) with
    (if is_lead c
     then if is_trail d then c :: d :: quote_body r
          else unicodeEscape c ++ quote_body (d :: r)
     else escape_unit c ++ quote_body (d :: r)).
  by rewrite Hl, Ht.
Qed.

Lemma quote_body_last_lead (c : N) :
  is_lead c = true -> quote_body [c] = unicodeEscape c.
Proof. intros Hl. simpl. by rewrite Hl. Qed.

Lemma quote_body_other (c : N) (r : jsstring) :
  is_lead c = false -> quote_body (c :: r) = escape_unit c ++ quote_body r.
Proof.
  intros Hl.
  change (quote_body (c :: r)) with
    (if is_lead c
     then match r with
          | d :: r' => if is_trail d then c :: d :: quote_body r'
                       else unicodeEscape c ++ quote_body r
          | [] => unicodeEscape c
          end
     else escape_unit c ++ quote_body r).
  by rewrite Hl.
Qed.

(** Reading back the characters [JSON.stringify] wrote for a string gives the
    string. *)
Lemma parse_chars_quote_body (s rest : jsstring) :
  parse_chars (quote_body s ++ 34%N :: rest) = Parsed (s, rest).
Proof.
  remember (length s) as n eqn:Hn. revert s Hn.
  induction n as [n IH] using lt_wf_ind. intros s Hn.
  destruct s as [|c r]; [done|].
  destruct (is_lead c) eqn:Hl.
  - assert ((c =? 34)%N = false /\ (c =? 92)%N = false /\ (c <? 32)%N = false
            /\ (c < 65536)%N) as (H1 & H2 & H3 & H4).
    { unfold is_lead in Hl. apply andb_true_iff in Hl as [Ha Hb].
      apply N.leb_le in Ha, Hb.
      repeat split; [apply N.eqb_neq; lia..|apply N.ltb_ge; lia|lia]. }
    destruct r as [|d r'].
    + rewrite quote_body_last_lead by done.
      rewrite (parse_chars_unicodeEscape c _ ([], rest)); done.
    + destruct (is_trail d) eqn:Ht.
      * assert ((d =? 34)%N = false /\ (d =? 92)%N = false /\ (d <? 32)%N = false)
          as (G1 & G2 & G3).
        { unfold is_trail in Ht. apply andb_true_iff in Ht as [Ha Hb].
          apply N.leb_le in Ha, Hb.
          repeat split; [apply N.eqb_neq; lia..|apply N.ltb_ge; lia]. }
        rewrite quote_body_pair by done.
        change ((c :: d :: quote_body r') ++ 34%N :: rest)
          with (c :: d :: (quote_body r' ++ 34%N :: rest)).
        rewrite (parse_chars_raw c _ (d :: r', rest)); [done..|].
        rewrite (parse_chars_raw d _ (r', rest)); [done..|].
        apply (IH (length r')); [simpl in Hn; lia | done].
      * rewrite quote_body_lone_lead by done. rewrite <- app_assoc.
        rewrite (parse_chars_unicodeEscape c _ (d :: r', rest)); [done..|].
        apply (IH (length (d :: r'))); [simpl in *; lia | done].
  - rewrite quote_body_other by done. rewrite <- app_assoc.
    rewrite (parse_chars_escape_unit c _ (r, rest)); [done..|].
    apply (IH (length r)); [simpl in Hn; lia | done].
Qed.

Lemma parse_value_string (f : nat) (s rest : jsstring) :
  parse_value (S f) (quote s ++ rest) = Parsed (VStr s, rest).
Proof.
  unfold quote. rewrite <- !app_assoc. simpl.
  by rewrite parse_chars_quote_body.
Qed.

Lemma parse_value_bool (f : nat) (b : bool) (rest : jsstring) :
  parse_value (S f) ((if b then lit "true" else lit "false") ++ rest)
  = Parsed (VBool b, rest).
Proof. by destruct b. Qed.

(** A member followed by a comma, and the last member of an object. *)
Lemma parse_members_comma (f : nat) (k vtext more : jsstring) (v : jsval) :
  parse_value f (vtext ++ 44%N :: more) = Parsed (v, 44%N :: more) ->
  parse_members (S f) (quote k ++ 58%N :: vtext ++ 44%N :: more)
  = bind (parse_members f more) (fun q => Parsed ((k, v) :: fst q, snd q)).
Proof.
  intros Hv. unfold quote. rewrite <- !app_assoc. simpl.
  rewrite parse_chars_quote_body. simpl. rewrite Hv. simpl. done.
Qed.

Lemma parse_members_last (f : nat) (k vtext rest : jsstring) (v : jsval) :
  parse_value f (vtext ++ 125%N :: rest) = Parsed (v, 125%N :: rest) ->
  parse_members (S f) (quote k ++ 58%N :: vtext ++ 125%N :: rest)
  = Parsed ([(k, v)], rest).
Proof.
  intros Hv. unfold quote. rewrite <- !app_assoc. simpl.
  rewrite parse_chars_quote_body. simpl. rewrite Hv. simpl. done.
Qed.

Lemma JSON_stringify_todo (t : Todo) :
  JSON_stringify (js_of_todo t) = Some (todo_text t).
Proof.
  destruct t as [i x c stamp]. unfold todo_text, stamp_text.
  destruct c, stamp as [ms|iso];
    with_strategy opaque [quote lit] simpl;
    repeat first [rewrite <- app_assoc | rewrite <- app_comm_cons]; done.
Qed.

Lemma parse_value_object (f : nat) (k tail out : jsstring)
    (members : list (jsstring * jsval)) :
  parse_members f (quote k ++ tail) = Parsed (members, out) ->
  parse_value (S f) (123%N :: quote k ++ tail)
  = Parsed (VObj (foldl obj_set [] members), out).
Proof. intros Hm. unfold quote in *. simpl in *. by rewrite Hm. Qed.

Lemma obj_set_todo_fields (a b c d : jsval) :
  foldl obj_set [] [(lit "id", a); (lit "text", b); (lit "completed", c);
                    (lit "createdAt", d)]
  = [(lit "id", a); (lit "text", b); (lit "completed", c); (lit "createdAt", d)].
Proof. reflexivity. Qed.

Lemma parse_value_stamp (f : nat) (t : Todo) (rest : jsstring) :
  validStamp t = true ->
  parse_value (S f) (stamp_text (createdAt t) ++ rest)
  = Parsed (js_of_timestamp (createdAt (reloaded t)), rest).
Proof.
  destruct t as [i x c [ms|iso]]; unfold validStamp, stamp_text, reloaded;
    cbn [createdAt js_of_timestamp]; [intros ->|intros _]; apply parse_value_string.
Qed.

(** Reading back the text of a record gives the record, its date as text. *)
Lemma parse_value_todo (f : nat) (t : Todo) (rest : jsstring) :
  validStamp t = true ->
  parse_value (S (S (S (S (S (S f)))))) (todo_text t ++ rest)
  = Parsed (js_of_todo (reloaded t), rest).
Proof.
  intros Hv. unfold todo_text.
  repeat first [rewrite <- app_assoc | rewrite <- app_comm_cons].
  rewrite (parse_value_object _ _ _ rest
    [(lit "id", VStr (id t)); (lit "text", VStr (text t));
     (lit "completed", VBool (completed t));
     (lit "createdAt", js_of_timestamp (createdAt (reloaded t)))]).
  { by rewrite obj_set_todo_fields. }
  rewrite (parse_members_comma _ _ _ _ (VStr (id t))) by apply parse_value_string.
  rewrite (parse_members_comma _ _ _ _ (VStr (text t))) by apply parse_value_string.
  rewrite (parse_members_comma _ _ _ _ (VBool (completed t))) by apply parse_value_bool.
  rewrite (parse_members_last _ _ _ _ (js_of_timestamp (createdAt (reloaded t))))
    by (by apply parse_value_stamp).
  done.
Qed.

Lemma todo_of_js_of_todo (t : Todo) :
  todo_of_js (js_of_todo (reloaded t)) = Some (reloaded t).
Proof. by destruct t as [i x c [ms|iso]]. Qed.

Lemma todos_of_js_of_todos (l : list Todo) :
  todos_of_js (js_of_todos (reloaded <$> l)) = Some (reloaded <$> l).
Proof.
  unfold todos_of_js, js_of_todos. apply mapM_Some. rewrite Forall2_fmap_l.
  apply Forall_Forall2_diag, Forall_forall. intros t Ht.
  apply list_elem_of_fmap in Ht as (u & -> & _). apply todo_of_js_of_todo.
Qed.

(** A record read from a text carries its date as text. *)
Lemma todo_of_js_valid (v : jsval) (t : Todo) :
  todo_of_js v = Some t -> validStamp t = true.
Proof.
  unfold todo_of_js. destruct v as [| | | | | |fields]; try done.
  destruct (field (lit "id") fields) as [[]|]; try done.
  destruct (field (lit "text") fields) as [[]|]; try done.
  destruct (field (lit "completed") fields) as [[]|]; try done.
  destruct (field (lit "createdAt") fields) as [[]|]; try done.
  by intros [= <-].
Qed.

Lemma deserialize_valid (s : jsstring) (l : list Todo) :
  deserialize s = Some l -> Forall (fun t => validStamp t = true) l.
Proof.
  unfold deserialize. destruct (JSON_parse s) as [v| | |]; try done.
  unfold todos_of_js. destruct v as [| | | | |elems|]; try done.
  intros H. apply mapM_Some in H. apply Forall_forall. intros t Ht.
  apply list_elem_of_lookup in Ht as [k Hk].
  destruct (Forall2_lookup_r _ _ _ _ _ H Hk) as (v & _ & Hv).
  by eapply todo_of_js_valid.
Qed.

Lemma serialize_text (l : list Todo) :
  serialize l = 91%N :: join_comma (todo_text <$> l) ++ [93%N].
Proof.
  unfold serialize, stored_text, js_of_todos.
  change (JSON_stringify (VArr (js_of_todo <$> l))) with
    (Some ([91%N] ++ join_comma ((fun x => default (lit "null") (JSON_stringify x))
                                   <$> (js_of_todo <$> l)) ++ [93%N])).
  cbn [default from_option app]. unfold Datatypes.id.
  rewrite <- list_fmap_compose. do 3 f_equal. apply list_fmap_ext. intros _ t _.
  unfold compose. by rewrite JSON_stringify_todo.
Qed.

Lemma todo_text_head (t : Todo) : exists tail, todo_text t = 123%N :: 34%N :: tail.
Proof. unfold todo_text, quote. simpl. eauto. Qed.

Lemma join_comma_cons (p q : jsstring) (rest : list jsstring) :
  join_comma (p :: q :: rest) = p ++ 44%N :: join_comma (q :: rest).
Proof. done. Qed.

Lemma join_comma_length (l : list Todo) :
  (2 * length l <= length (join_comma (todo_text <$> l)))%nat.
Proof.
  induction l as [|t l IH]; [done|].
  destruct (todo_text_head t) as [tail Ht].
  destruct l as [|u l].
  - change (join_comma (todo_text <$> [t])) with (todo_text t).
    rewrite Ht. simpl. lia.
  - rewrite !fmap_cons, join_comma_cons, length_app, Ht.
    rewrite fmap_cons in IH. simpl length in *. lia.
Qed.

(** Reading back the texts of the records of a non-empty list, up to the
    closing bracket. *)
Lemma parse_elements_todos (l : list Todo) (t : Todo) (f : nat) (rest : jsstring) :
  Forall (fun t => validStamp t = true) (t :: l) ->
  (length l + 7 <= f)%nat ->
  parse_elements f (join_comma (todo_text <$> (t :: l)) ++ 93%N :: rest)
  = Parsed (js_of_todo <$> (reloaded <$> (t :: l)), rest).
Proof.
  revert t f. induction l as [|u l IH]; intros t f Hv Hf.
  - do 7 (destruct f as [|f]; [simpl in Hf; lia|]).
    apply Forall_cons in Hv as [Hv _].
    rewrite parse_elements_S.
    change (join_comma (todo_text <$> [t])) with (todo_text t).
    by rewrite parse_value_todo.
  - do 7 (destruct f as [|f]; [simpl in Hf; lia|]).
    apply Forall_cons in Hv as [Hv Hl].
    rewrite parse_elements_S.
    rewrite !fmap_cons, join_comma_cons, <- app_assoc, <- app_comm_cons.
    rewrite parse_value_todo by done.
    change (bind (Parsed ?a) ?k) with (k a). cbv beta.
    change (next 44 (snd (?a, 44%N :: ?r))) with (Some r). cbv iota beta.
    rewrite <- fmap_cons, IH; [done..|simpl in *; lia].
Qed.

Lemma parse_value_array (f : nat) (tail out : jsstring) (elems : list jsval) :
  parse_elements f (123%N :: tail) = Parsed (elems, out) ->
  parse_value (S f) (91%N :: 123%N :: tail) = Parsed (VArr elems, out).
Proof.
  intros He.
  change (parse_value (S f) (91%N :: 123%N :: tail)) with
    (bind (parse_elements f (123%N :: tail)) (fun p => Parsed (VArr (fst p), snd p))).
  by rewrite He.
Qed.

Lemma JSON_parse_serialize (l : list Todo) :
  Forall (fun t => validStamp t = true) l ->
  JSON_parse (serialize l) = Parsed (js_of_todos (reloaded <$> l)).
Proof.
  intros Hv. destruct l as [|t l]; [done|].
  unfold JSON_parse. rewrite serialize_text.
  pose proof (join_comma_length (t :: l)) as Hlen.
  set (body := join_comma (todo_text <$> (t :: l))) in *.
  assert (exists tail, body = 123%N :: tail) as [tail Hb].
  { unfold body. destruct (todo_text_head t) as [tl Ht].
    destruct l as [|u l].
    - change (join_comma (todo_text <$> [t])) with (todo_text t). eauto.
    - rewrite !fmap_cons, join_comma_cons, Ht. simpl. eauto. }
  pose proof (parse_elements_todos l t (2 * length (91%N :: body ++ [93%N])) [] Hv) as Hp.
  fold body in Hp. rewrite Hb in Hp |- *.
  rewrite <- app_comm_cons.
  rewrite (parse_value_array _ _ [] (js_of_todo <$> (reloaded <$> (t :: l)))).
  - done.
  - rewrite <- app_comm_cons in Hp. apply Hp.
    rewrite Hb in Hlen. simpl in *. rewrite length_app. simpl. lia.
Qed.

Lemma reloaded_valid (t : Todo) : validStamp (reloaded t) = true.
Proof. by destruct t as [i x c [ms|iso]]. Qed.

Lemma reloaded_idemp (t : Todo) : reloaded (reloaded t) = reloaded t.
Proof. by destruct t as [i x c [ms|iso]]. Qed.

Lemma deserialize_serialize (l : list Todo) :
  Forall (fun t => validStamp t = true) l ->
  deserialize (serialize l) = Some (reloaded <$> l).
Proof.
  intros Hv. unfold deserialize. rewrite JSON_parse_serialize by done.
  apply todos_of_js_of_todos.
Qed.

(** ** The list in the hook *)

(** The list is stored under its key by every call of [setTodos] on a
    hydrated instance: the text stored is the text of the list in memory. *)
Lemma todoStore_writes (c : Hook (list Todo) * Browser) (a : SetStateAction (list Todo)) :
  settled (store := todoStore) c -> hasWindow (snd c) = true -> setThrows (snd c) = false ->
  get (set (store := todoStore) a c) = applySetState (get c) a
  /\ storedAt (lit "todos") (snd (set (store := todoStore) a c))
     = Some (serialize (get (set (store := todoStore) a c))).
Proof.
  intros Hc Hw Hs.
  rewrite (set_changed (store := todoStore) c a Hc eq_refl).
  split; [done|]. unfold get, storedAt. cbn [fst snd value].
  rewrite (items_saveEffect (store := todoStore)), Hw, Hs. apply lookup_insert_eq.
Qed.

(** When the page is loaded again, hydration reads the list back from the
    text stored: this is the step [reach_reload]. *)
Lemma todoStore_reloads (b : Browser) (l l' : list Todo) :
  hasWindow b = true -> getThrows b = false ->
  storedAt (lit "todos") b = Some (serialize l) ->
  deserialize (serialize l) = Some l' ->
  get (mounted (store := todoStore) b) = l'.
Proof.
  intros Hw Hg Hs Hd. unfold mounted. rewrite (run_3 (store := todoStore)).
  unfold get, hydratedValue. cbn [fst value key todoStore].
  rewrite Hw, Hg, Hs, serialize_text. cbn [negb andb parse todoStore].
  by rewrite <- serialize_text, Hd.
Qed.

(** With nothing stored, or a read that fails, the list is the initial one:
    this is the step [reach_initial]. *)
Lemma todoStore_starts_empty (b : Browser) :
  storedAt (lit "todos") b = None \/ readFails (store := todoStore) b = true ->
  get (mounted (store := todoStore) b) = [].
Proof.
  intros H. unfold mounted. rewrite (run_3 (store := todoStore)).
  unfold get. cbn [fst value]. destruct H as [H|H].
  - unfold hydratedValue. cbn [key todoStore]. rewrite H. by destruct (_ && _).
  - by apply (hydratedValue_fails (store := todoStore)).
Qed.

(** ** Sequences of operations and reachable lists *)

Lemma fmap_Some_inj {A} (l k : list A) : Some <$> l = Some <$> k -> l = k.
Proof.
  revert k. induction l as [|x l IH]; intros [|y k]; simpl; try done.
  intros [= -> H]. f_equal. by apply IH.
Qed.

Lemma moveTodos_perform (active over : jsstring) (l : list Todo) :
  l <> [] ->
  moveTodos active over l =
    Some <$> relocate l
      (wrap (Z.of_nat (length l)) (findIndex (fun item => str_eqb (id item) active) l))
      (wrap (Z.of_nat (length l)) (findIndex (fun item => str_eqb (id item) over) l)).
Proof.
  intros Hne. unfold moveTodos.
  pose proof (findIndex_bounds (fun item => str_eqb (id item) active) l).
  pose proof (findIndex_bounds (fun item => str_eqb (id item) over) l).
  assert (0 < Z.of_nat (length l)) by (destruct l; [done | simpl; lia]).
  apply arrayMove_wrap; lia.
Qed.

Lemma moveTodos_nil (active over : jsstring) : moveTodos active over [] = [None].
Proof. reflexivity. Qed.

(** A handled event has the result [perform] describes, except a drag on the
    empty list, which leaves an [undefined] slot. *)
Lemma step_perform (l : list Todo) (e : event) :
  l <> [] \/ is_drag e = false -> step l e (perform l e).
Proof.
  intros Hok. constructor. unfold dispatch.
  destruct e as [text uuid now|i|i|active [over|]]; simpl.
  - unfold addTodo. by destruct (str_eqb (trim text) []).
  - done.
  - done.
  - unfold handleDragEnd. destruct (str_eqb active over); simpl; [done|].
    destruct Hok as [Hne|?]; [|done]. by apply moveTodos_perform.
  - done.
Qed.

Lemma step_functional (l : list Todo) (e : event) (l' : list Todo) :
  step l e l' -> l' = perform l e.
Proof.
  inversion 1 as [? ? ? Hd]; subst.
  destruct (decide (l <> [] \/ is_drag e = false)) as [Hok|Hno].
  - pose proof (step_perform l e Hok) as Hp. inversion Hp as [? ? ? Hd']; subst.
    rewrite Hd in Hd'. by apply fmap_Some_inj.
  - destruct l as [|x l]; [|exfalso; apply Hno; by left].
    destruct e as [| | |active [over|]]; try (exfalso; apply Hno; by right).
    + unfold dispatch in Hd. simpl in *. unfold handleDragEnd in Hd.
      destruct (str_eqb active over); simpl in Hd; by destruct l'.
    + by destruct l'.
Qed.

(** What [set] is given is applied to the value in memory at that moment:
    a function receives the current list. *)
Lemma todoStore_set_current (c : Hook (list Todo) * Browser)
    (a : SetStateAction (list Todo)) :
  settled (store := todoStore) c ->
  get (set (store := todoStore) a c) = applySetState (get c) a.
Proof. intros Hc. by rewrite (set_changed (store := todoStore) c a Hc eq_refl). Qed.

(** C4 (amended): when React renders between two operations, so that
    each handler sees the latest list, the operations are applied to the
    value in memory in the order they were issued.  Only the move passes a
    function of the current value to [setTodos], and the store applies it to
    the list in memory at that moment; append, toggle and remove pass a list
    computed from the list their render saw. *)
Theorem operations_apply_in_order :
  (forall l e, l <> [] \/ is_drag e = false -> step l e (perform l e))
  /\ (forall l e l', step l e l' -> l' = perform l e)
  /\ (forall l es l', steps l es l' -> l' = foldl perform l es)
  /\ (forall rendered cur active over,
        dispatch rendered cur (DragEnd active over)
        = dispatch cur cur (DragEnd active over))
  /\ (forall rendered cur e, is_drag e = false ->
        (handle rendered e = None /\ dispatch rendered cur e = Some <$> cur)
        \/ (handle rendered e = Some (SetValue (perform rendered e))
            /\ dispatch rendered cur e = Some <$> perform rendered e))
  /\ (forall c f, settled (store := todoStore) c ->
        get (set (store := todoStore) (Updater f) c) = f (get c)).
Proof.
  split; [apply step_perform|]. split; [apply step_functional|].
  split; [|split; [|split]].
  - induction 1 as [|l e l' es l'' Hs _ IH]; [done|].
    simpl. by rewrite <- (step_functional _ _ _ Hs).
  - done.
  - intros rendered cur [text uuid now|i|i|active over] Hd; [| | |done].
    + unfold dispatch. simpl. unfold addTodo.
      destruct (str_eqb (trim text) []); [left|right]; done.
    + right. done.
    + right. done.
  - intros c f Hc. by apply todoStore_set_current.
Qed.

(** C4 as stated fails: [addTodo] passes a value, not a function; two
    appends handled by the closures of the same render keep only the second
    record. *)
Lemma append_uses_rendered_list :
  handle [] (Add (lit "Walk dog") (lit "b") 1700000001000) = Some (SetValue [todoB])
  /\ dispatch [] [todoA] (Add (lit "Walk dog") (lit "b") 1700000001000) = Some <$> [todoB]
  /\ batch [] [] [Add (lit "Buy milk") (lit "a") 1700000000000;
                  Add (lit "Walk dog") (lit "b") 1700000001000] = Some [todoB]
  /\ foldl perform [] [Add (lit "Buy milk") (lit "a") 1700000000000;
                       Add (lit "Walk dog") (lit "b") 1700000001000] = [todoA; todoB].
Proof. vm_compute. repeat split. Qed.

Lemma step_distinct_ids (l : list Todo) (e : event) (l' : list Todo) :
  generated l e -> step l e l' -> distinct_ids l -> distinct_ids l'.
Proof.
  unfold distinct_ids. intros Hf Hs Hd. rewrite (step_functional _ _ _ Hs).
  destruct e as [text uuid now|i|i|active [over|]]; simpl in *.
  - destruct (str_eqb (trim text) []); [done|]. destruct Hf as [Hf _].
    rewrite fmap_app. simpl. apply NoDup_app. split; [done|]. split.
    + intros x Hx Hx'. apply list_elem_of_singleton in Hx'. by subst.
    + apply NoDup_singleton.
  - rewrite <- list_fmap_compose.
    erewrite list_fmap_ext; [exact Hd|]. intros _ x _. simpl.
    by destruct (str_eqb (id x) i).
  - eapply sublist_NoDup; [exact Hd|]. apply fmap_sublist.
    clear. induction l as [|x l IH]; simpl; [done|].
    destruct (negb (str_eqb (id x) i)); by constructor.
  - destruct (str_eqb active over); [done|].
    eapply NoDup_Permutation_proper; [|exact Hd].
    apply fmap_Permutation, relocate_Permutation.
  - done.
Qed.

Lemma step_valid_stamps (l : list Todo) (e : event) (l' : list Todo) :
  generated l e -> step l e l' ->
  Forall (fun t => validStamp t = true) l -> Forall (fun t => validStamp t = true) l'.
Proof.
  intros Hf Hs Hv. rewrite (step_functional _ _ _ Hs).
  destruct e as [text uuid now|i|i|active [over|]]; simpl in *.
  - destruct (str_eqb (trim text) []); [done|]. destruct Hf as [_ Hf].
    apply Forall_app. split; [done|]. by apply Forall_singleton.
  - apply Forall_fmap. eapply Forall_impl; [exact Hv|].
    intros t Ht. simpl. by destruct (str_eqb (id t) i).
  - apply Forall_forall. intros t Ht. apply list_elem_of_In, List.filter_In in Ht as [Ht _].
    eapply Forall_forall in Hv; [exact Hv|]. by apply list_elem_of_In.
  - destruct (str_eqb active over); [done|].
    by rewrite relocate_Permutation.
  - done.
Qed.

Lemma mapM_slots_Some {A} (slots : list (option A)) (l : list A) :
  mapM (M := option) (fun slot => slot) slots = Some l -> slots = Some <$> l.
Proof.
  intros H. apply mapM_Some in H.
  induction H as [|x y slots l Hxy _ IH]; [done|]. simpl. by rewrite Hxy, IH.
Qed.

(** What holds of the list in memory, is kept by every drag, and holds of
    whatever another event makes of the rendered list, holds after the
    events handled by the closures of one render. *)
Lemma batch_invariant (Q : list Todo -> Prop) (rendered : list Todo) (es : list event) :
  (forall e l1, e ∈ es -> is_drag e = false -> step rendered e l1 -> Q l1) ->
  (forall l0 e l1, Q l0 -> is_drag e = true -> step l0 e l1 -> Q l1) ->
  forall cur l', Q cur -> batch rendered cur es = Some l' -> Q l'.
Proof.
  intros Hrendered Hdrag. induction es as [|e es IH]; intros cur l' Hcur.
  - by intros [= <-].
  - simpl. destruct (mapM _ (dispatch rendered cur e)) as [cur1|] eqn:E; [|done].
    apply mapM_slots_Some in E. apply IH.
    + intros e0 l1 He0. apply Hrendered. by apply list_elem_of_further.
    + destruct (is_drag e) eqn:Hd.
      * apply (Hdrag cur e cur1 Hcur Hd). constructor.
        destruct e as [| | |active over]; try done.
      * destruct e as [text uuid now|i|i|active over]; [| | |done].
        -- unfold dispatch in E. simpl in E. unfold addTodo in E.
           destruct (str_eqb (trim text) []) eqn:Et.
           ++ simpl in E. apply fmap_Some_inj in E. by subst.
           ++ apply (Hrendered (Add text uuid now)); [apply list_elem_of_here|done|].
              constructor. unfold dispatch. simpl. unfold addTodo. by rewrite Et.
        -- apply (Hrendered (Toggle i)); [apply list_elem_of_here|done|]. by constructor.
        -- apply (Hrendered (Delete i)); [apply list_elem_of_here|done|]. by constructor.
Qed.

Lemma reachable_invariant (l : list Todo) :
  reachable l -> distinct_ids l /\ Forall (fun t => validStamp t = true) l.
Proof.
  induction 1 as [|l e l' _ [IHd IHv] Hf Hstep|l es l' _ [IHd IHv] Hf Hb
                  |l l' _ [IHd IHv] Hr].
  - split; [apply NoDup_nil_2 | constructor].
  - split; [by eapply step_distinct_ids | by eapply step_valid_stamps].
  - apply (batch_invariant
             (fun l0 => distinct_ids l0 /\ Forall (fun t => validStamp t = true) l0)
             l es) with (cur := l); [| |done|done].
    + intros e l1 He _ Hs. rewrite Forall_forall in Hf.
      split; [eapply step_distinct_ids | eapply step_valid_stamps]; eauto.
    + intros l0 e l1 [Hd0 Hv0] Hdrag Hs.
      assert (generated l0 e) by (by destruct e).
      split; [eapply step_distinct_ids | eapply step_valid_stamps]; eauto.
  - rewrite deserialize_serialize in Hr by done. injection Hr as <-. split.
    + unfold distinct_ids. rewrite <- list_fmap_compose.
      erewrite list_fmap_ext; [exact IHd|]. by intros _ [i x c [ms|iso]] _.
    + apply Forall_fmap, Forall_forall. intros t _. apply reloaded_valid.
Qed.

(** C8: the identifiers are pairwise distinct in every list the
    component comes to hold: in the initial list, after every append (the
    identifier [crypto.randomUUID()] generates is not in the list), toggle,
    removal and move, whether React renders between two of them or several
    are handled by the closures of one render, and after every reload of
    the page, which reads the text the component wrote. *)
Theorem ids_stay_distinct (l : list Todo) : reachable l -> distinct_ids l.
Proof. intros Hr. by destruct (reachable_invariant l Hr). Qed.

Lemma ids_stay_distinct_witness :
  reachable [reloaded todoA; reloaded todoB; flip todoC]
  /\ distinct_ids [reloaded todoA; reloaded todoB; flip todoC].
Proof.
  assert (reachable [reloaded todoA; reloaded todoB; flip todoC]) as Hr.
  { apply (reach_event [reloaded todoA; reloaded todoB]
             (Add (lit "  Call mum ") (lit "c") 1700000002000)).
    - apply (reach_reload [todoA; todoB]); [|vm_compute; reflexivity].
      apply (reach_event [todoA] (Add (lit "Walk dog") (lit "b") 1700000001000)).
      + apply (reach_event [] (Add (lit "Buy milk") (lit "a") 1700000000000)).
        * apply reach_initial.
        * split; [apply not_elem_of_nil | reflexivity].
        * constructor. vm_compute. reflexivity.
      + split; [|reflexivity]. vm_compute. intros Hx.
        repeat (apply elem_of_cons in Hx as [Hx|Hx]; [discriminate|]).
        by apply elem_of_nil in Hx.
      + constructor. vm_compute. reflexivity.
    - split; [|reflexivity]. vm_compute. intros Hx.
      repeat (apply elem_of_cons in Hx as [Hx|Hx]; [discriminate|]).
      by apply elem_of_nil in Hx.
    - constructor. vm_compute. reflexivity. }
  split; [exact Hr|]. exact (ids_stay_distinct _ Hr).
Defined.

(** ** The text of a date *)

Lemma yoe_range (doe : Z) :
  0 <= doe <= 146096 ->
  let yoe := (doe - doe / 1460 + doe / 36524 - doe / 146096) / 365 in
  0 <= yoe <= 399 /\ 0 <= doe - (365 * yoe + yoe / 4 - yoe / 100) <= 365.
Proof. intros H yoe. subst yoe. Z.div_mod_to_equations. lia. Qed.

(** The day number of the date of a day number is that day number. *)
Lemma days_from_civil_civil (z : Z) : days_from_civil (civil z) = z.
Proof.
  unfold civil, days_from_civil.
  set (z0 := z + 719468).
  set (era := z0 / 146097).
  set (doe := z0 - era * 146097).
  assert (0 <= doe <= 146096) as Hdoe by (subst doe era; Z.div_mod_to_equations; lia).
  pose proof (yoe_range doe Hdoe) as Hy. cbv zeta in Hy.
  set (yoe := (doe - doe / 1460 + doe / 36524 - doe / 146096) / 365) in *.
  set (doy := doe - (365 * yoe + yoe / 4 - yoe / 100)) in *.
  set (mp := (5 * doy + 2) / 153).
  assert (0 <= mp <= 11) as Hmp by (subst mp; Z.div_mod_to_equations; lia).
  set (m := if mp <? 10 then mp + 3 else mp - 9).
  assert ((if m <=? 2 then m + 9 else m - 3) = mp) as Hm.
  { subst m. destruct (Z.ltb_spec mp 10).
    - destruct (Z.leb_spec (mp + 3) 2); lia.
    - destruct (Z.leb_spec (mp - 9) 2); lia. }
  rewrite Hm.
  assert ((if m <=? 2 then yoe + era * 400 + (if m <=? 2 then 1 else 0) - 1
           else yoe + era * 400 + (if m <=? 2 then 1 else 0)) = yoe + era * 400) as Hy'.
  { destruct (m <=? 2); lia. }
  rewrite Hy'.
  assert ((yoe + era * 400) / 400 = era) as He.
  { destruct Hy as [Hy _]. Z.div_mod_to_equations. lia. }
  rewrite He.
  replace (yoe + era * 400 - era * 400) with yoe by lia.
  replace ((153 * mp + 2) / 5 + (doy - (153 * mp + 2) / 5 + 1) - 1) with doy by lia.
  subst doy doe z0. lia.
Qed.

Lemma civil_range (z : Z) :
  -100000000 <= z <= 100000000 ->
  -999999 <= (civil z).1.1 <= 999999
  /\ 1 <= (civil z).1.2 <= 12 /\ 1 <= (civil z).2 <= 31.
Proof.
  intros Hz. unfold civil. cbn [fst snd].
  set (z0 := z + 719468).
  set (era := z0 / 146097).
  set (doe := z0 - era * 146097).
  assert (0 <= doe <= 146096) as Hdoe by (subst doe era; Z.div_mod_to_equations; lia).
  assert (-700 <= era <= 700) as Hera by (subst era z0; Z.div_mod_to_equations; lia).
  pose proof (yoe_range doe Hdoe) as Hy. cbv zeta in Hy.
  set (yoe := (doe - doe / 1460 + doe / 36524 - doe / 146096) / 365) in *.
  set (doy := doe - (365 * yoe + yoe / 4 - yoe / 100)) in *.
  set (mp := (5 * doy + 2) / 153).
  assert (0 <= mp <= 11) as Hmp by (subst mp; Z.div_mod_to_equations; lia).
  assert (1 <= doy - (153 * mp + 2) / 5 + 1 <= 31) as Hd
    by (subst mp; Z.div_mod_to_equations; lia).
  split; [|split; [|done]].
  - destruct (_ <=? 2); lia.
  - destruct (Z.ltb_spec mp 10); lia.
Qed.

Lemma pad_length (w : nat) (n : Z) : length (pad w n) = w.
Proof.
  revert n. induction w as [|w IH]; intros n; simpl; [done|].
  rewrite length_app, IH. simpl. lia.
Qed.

Lemma pad_inj (w : nat) (n m : Z) :
  0 <= n < 10 ^ Z.of_nat w -> 0 <= m < 10 ^ Z.of_nat w ->
  pad w n = pad w m -> n = m.
Proof.
  revert n m. induction w as [|w IH]; intros n m Hn Hm.
  - simpl in *. lia.
  - rewrite Nat2Z.inj_succ, Z.pow_succ_r in Hn, Hm by lia.
    simpl. intros H. apply app_inj_2 in H as [H1 H2]; [|done].
    apply IH in H1; [| Z.div_mod_to_equations; lia..].
    injection H2 as H2.
    assert (n mod 10 = m mod 10) by (Z.div_mod_to_equations; lia).
    Z.div_mod_to_equations. lia.
Qed.

Lemma year_text_inj (y y' : Z) (r r' : jsstring) :
  -999999 <= y <= 999999 -> -999999 <= y' <= 999999 -> length r = length r' ->
  (if (0 <=? y) && (y <=? 9999) then pad 4 y
   else (if y <? 0 then [45%N] else [43%N]) ++ pad 6 (Z.abs y)) ++ r
  = (if (0 <=? y') && (y' <=? 9999) then pad 4 y'
     else (if y' <? 0 then [45%N] else [43%N]) ++ pad 6 (Z.abs y')) ++ r' ->
  y = y' /\ r = r'.
Proof.
  intros Hy Hy' Hr H.
  assert (forall s s' : jsstring, s ++ r = s' ++ r' -> length s = length s') as Hlen.
  { intros s s' E. apply (f_equal length) in E. rewrite !length_app in E. lia. }
  pose proof (Hlen _ _ H) as Hl.
  apply app_inj_1 in H as [H ->]; [|done]. split; [|done].
  destruct (Z.leb_spec 0 y), (Z.leb_spec y 9999), (Z.leb_spec 0 y'), (Z.leb_spec y' 9999),
    (Z.ltb_spec y 0), (Z.ltb_spec y' 0); try lia;
    cbn [andb app] in H, Hl; rewrite ?length_app, ?pad_length in Hl;
    cbn [app length] in Hl; rewrite ?pad_length in Hl; try lia; try discriminate;
    lazymatch type of H with
    | _ :: _ = _ :: _ => apply (f_equal (drop 1)) in H; cbn [drop] in H
    | _ => idtac
    end; apply pad_inj in H; simpl; lia.
Qed.

(** The text of a valid date determines the date: nothing of the time value
    is lost in the text. *)
Lemma toISOString_inj (a b : Z) :
  validTime a = true -> validTime b = true -> toISOString a = toISOString b -> a = b.
Proof.
  unfold validTime. rewrite !andb_true_iff, !Z.leb_le. intros Ha Hb.
  unfold toISOString.
  pose proof (civil_range (a / 86400000)) as Ra.
  pose proof (civil_range (b / 86400000)) as Rb.
  pose proof (days_from_civil_civil (a / 86400000)) as Ia.
  pose proof (days_from_civil_civil (b / 86400000)) as Ib.
  destruct (civil (a / 86400000)) as [[y m] d].
  destruct (civil (b / 86400000)) as [[y' m'] d'].
  cbn [fst snd] in Ra, Rb.
  destruct Ra as (Ry & Rm & Rd); [Z.div_mod_to_equations; lia|].
  destruct Rb as (Ry' & Rm' & Rd'); [Z.div_mod_to_equations; lia|].
  set (ta := a mod 86400000). set (tb := b mod 86400000).
  assert (0 <= ta < 86400000) as Hta by (subst ta; Z.div_mod_to_equations; lia).
  assert (0 <= tb < 86400000) as Htb by (subst tb; Z.div_mod_to_equations; lia).
  intros H. apply year_text_inj in H as [-> H];
    [|done..|repeat first [rewrite length_app | rewrite pad_length | rewrite length_cons];
             done].
  apply (f_equal (drop 1)) in H; cbn [drop app] in H.
  apply app_inj_1 in H as [Hm H]; [|by rewrite !pad_length].
  apply (f_equal (drop 1)) in H; cbn [drop app] in H.
  apply app_inj_1 in H as [Hd H]; [|by rewrite !pad_length].
  apply (f_equal (drop 1)) in H; cbn [drop app] in H.
  apply app_inj_1 in H as [Hh H]; [|by rewrite !pad_length].
  apply (f_equal (drop 1)) in H; cbn [drop app] in H.
  apply app_inj_1 in H as [Hmi H]; [|by rewrite !pad_length].
  apply (f_equal (drop 1)) in H; cbn [drop app] in H.
  apply app_inj_1 in H as [Hs H]; [|by rewrite !pad_length].
  apply (f_equal (drop 1)) in H; cbn [drop app] in H.
  apply app_inj_1 in H as [Hms _]; [|by rewrite !pad_length].
  apply pad_inj in Hm; [|simpl; lia..]. apply pad_inj in Hd; [|simpl; lia..].
  apply pad_inj in Hh; [|simpl; Z.div_mod_to_equations; lia..].
  apply pad_inj in Hmi; [|simpl; Z.div_mod_to_equations; lia..].
  apply pad_inj in Hs; [|simpl; Z.div_mod_to_equations; lia..].
  apply pad_inj in Hms; [|simpl; Z.div_mod_to_equations; lia..].
  subst m' d'.
  assert (a / 86400000 = b / 86400000) as Hday by congruence.
  assert (ta = tb) as Ht by (Z.div_mod_to_equations; lia).
  subst ta tb. Z.div_mod_to_equations. lia.
Qed.

(** ** The stored list *)

(** C3 (amended): writing a list whose dates are valid and reading
    the text back gives a list with, record by record, the same identifier,
    the same text and the same completed flag; [createdAt], a [Date] when the
    record was built, comes back as the ISO text of that date and not as a
    [Date]; the text determines the date, to the millisecond; a list that was
    read back once comes back equal. *)
Theorem roundtrip_reloaded (l : list Todo) :
  Forall (fun t => validStamp t = true) l ->
  deserialize (serialize l) = Some (reloaded <$> l)
  /\ (forall k, (reloaded <$> l) !! k =
        (fun t => {| id := id t; text := text t; completed := completed t;
                     createdAt := match createdAt t with
                                  | DateObj ms => DateText (toISOString ms)
                                  | DateText iso => DateText iso
                                  end |}) <$> l !! k)
  /\ (forall t u a b, t ∈ l -> u ∈ l ->
        createdAt t = DateObj a -> createdAt u = DateObj b ->
        createdAt (reloaded t) = createdAt (reloaded u) -> a = b)
  /\ deserialize (serialize (reloaded <$> l)) = Some (reloaded <$> l).
Proof.
  intros Hv. split; [by apply deserialize_serialize|]. split; [|split].
  - intros k. by rewrite list_lookup_fmap.
  - intros t u a b Ht Hu Ha Hb. unfold reloaded. simpl. rewrite Ha, Hb.
    intros [= E]. rewrite Forall_forall in Hv.
    pose proof (Hv t Ht) as Vt. pose proof (Hv u Hu) as Vu.
    unfold validStamp in Vt, Vu. rewrite Ha in Vt. rewrite Hb in Vu.
    by apply toISOString_inj.
  - rewrite deserialize_serialize.
    + rewrite <- list_fmap_compose. f_equal. apply list_fmap_ext.
      intros _ t _. apply reloaded_idemp.
    + apply Forall_fmap, Forall_forall. intros t _. apply reloaded_valid.
Qed.

Lemma roundtrip_reloaded_witness :
  Forall (fun t => validStamp t = true) [todoA; todoB]
  /\ deserialize (serialize [todoA; todoB]) = Some [reloaded todoA; reloaded todoB].
Proof.
  assert (Forall (fun t => validStamp t = true) [todoA; todoB]) as Hv
    by (repeat constructor).
  split; [exact Hv|]. exact (proj1 (roundtrip_reloaded [todoA; todoB] Hv)).
Defined.

(** C3 as stated fails: the record [addTodo] builds does not come
    back equal, its date comes back as a string. *)
Lemma roundtrip_turns_date_into_text :
  step [] (Add (lit "Buy milk") (lit "a") 1700000000000) [todoA]
  /\ deserialize (serialize [todoA])
     = Some [{| id := lit "a"; text := lit "Buy milk"; completed := false;
                createdAt := DateText (lit "2023-11-14T22:13:20.000Z") |}]
  /\ deserialize (serialize [todoA]) <> Some [todoA].
Proof.
  split; [constructor; vm_compute; reflexivity|].
  split; [vm_compute; reflexivity|]. vm_compute. discriminate.
Qed.

Lemma handleDragEnd_relocates_witness :
  findIndex (fun item => str_eqb (id item) (lit "c")) [todoA; todoB; todoC] = 2
  /\ findIndex (fun item => str_eqb (id item) (lit "a")) [todoA; todoB; todoC] = 0
  /\ step [todoA; todoB; todoC] (DragEnd (lit "c") (Some (lit "a"))) [todoC; todoA; todoB]
  /\ step [todoA] (DragEnd (lit "a") (Some (lit "a"))) [todoA].
Proof.
  split; [reflexivity|]. split; [reflexivity|]. split.
  - apply (proj2 (proj2 (handleDragEnd_relocates [todoA; todoB; todoC] (lit "c")))
             (lit "a") 2%nat 0%nat); [reflexivity | reflexivity | lia].
  - exact (proj2 (proj1 (proj2 (handleDragEnd_relocates [todoA] (lit "a"))))).
Defined.

Lemma write_after_hydration_witness :
  hasWindow emptyBrowser = true
  /\ List.filter is_write (calls (snd (mountedTest emptyBrowser)))
     = [SetItem testKey (stored_text (VStr (lit "initial")))].
Proof.
  split; [reflexivity|].
  exact (proj1 (proj2 (proj2 (proj2
    (write_after_hydration (store := testStore)
       emptyBrowser eq_refl))))).
Defined.

Lemma hydration_read_witness :
  hasWindow seededBrowser = true
  /\ get (mountedTest seededBrowser) = VStr (lit "saved-value").
Proof.
  split; [reflexivity|].
  refine (proj1 (proj2
    (hydration_read (store := testStore)
       seededBrowser eq_refl)) 34%N (lit "saved-value" ++ [34%N]) _ eq_refl _ _).
  - vm_compute. reflexivity.
  - vm_compute. reflexivity.
Defined.

Lemma set_writes_changed_value_witness :
  settled (store := testStore)
    (mountedTest emptyBrowser)
  /\ hasWindow (snd (mountedTest emptyBrowser)) = true
  /\ calls (snd (setTest (Value (VStr (lit "new-value"))) (mountedTest emptyBrowser)))
     = calls (snd (mountedTest emptyBrowser))
       ++ [SetItem testKey (stored_text (VStr (lit "new-value")))]
  /\ calls (snd (setBatch (store := testStore)
                   [Value (VStr (lit "a")); Value (VStr (lit "b"))]
                   (mountedTest emptyBrowser)))
     = calls (snd (mountedTest emptyBrowser))
       ++ [SetItem testKey (stored_text (VStr (lit "b")))].
Proof.
  assert (settled (store := testStore)
            (mountedTest emptyBrowser)) as Hs by (repeat split; vm_compute; reflexivity).
  assert (hasWindow (snd (mountedTest emptyBrowser)) = true) as Hw
    by (vm_compute; reflexivity).
  split; [exact Hs|]. split; [exact Hw|]. split.
  - exact (proj1 (proj2 (proj1 (proj2 (proj2 (proj2
      (set_writes_changed_value (store := testStore)
         (mountedTest emptyBrowser) (Value (VStr (lit "new-value"))) Hs Hw))))))).
  - refine (proj1 (proj2 (proj2 (proj2 (proj2 (proj2 (proj2 (proj2 (proj2
      (set_writes_changed_value (store := testStore)
         (mountedTest emptyBrowser) (Value (VStr (lit "new-value"))) Hs Hw)))))
      [Value (VStr (lit "a")); Value (VStr (lit "b"))] _))))).
    discriminate.
Defined.

(** ** The tests of the hook, and the scenario of the list *)

Example test_initial_value_on_first_render :
  get (mount (store := testStore) seededBrowser) = VStr (lit "initial").
Proof. reflexivity. Qed.

Example test_loads_saved_value_on_mount :
  GetItem testKey ∈ calls (snd (mountedTest seededBrowser))
  /\ get (mountedTest seededBrowser) = VStr (lit "saved-value").
Proof. split; [|vm_compute; reflexivity]. vm_compute. apply list_elem_of_here. Qed.

Example test_saves_value_when_state_changes :
  SetItem testKey ([34%N] ++ lit "new-value" ++ [34%N])
    ∈ calls (snd (setTest (Value (VStr (lit "new-value"))) (mountedTest emptyBrowser))).
Proof. vm_compute. do 2 apply list_elem_of_further. apply list_elem_of_here. Qed.

Example test_handles_storage_errors :
  Warn (lit "localStorage error for key " ++ [34%N] ++ lit "test-key" ++ [34%N] ++ lit ":")
    ∈ calls (snd (mountedTest throwingBrowser))
  /\ get (mountedTest throwingBrowser) = VStr (lit "initial").
Proof.
  split; [|vm_compute; reflexivity].
  vm_compute. apply list_elem_of_further, list_elem_of_here.
Qed.

(** The value read at hydration is not checked against the type of the
    initial value: where a string is expected, a stored array is taken. *)
Example hydration_does_not_validate :
  get (mountedTest mistypedBrowser) = VArr [VBool true; VNull].
Proof. vm_compute. reflexivity. Qed.

Example scenario_append_toggle_move :
  steps [] [Add (lit "Buy milk") (lit "a") 1700000000000;
            Add (lit "Walk dog") (lit "b") 1700000001000] [todoA; todoB]
  /\ remaining [todoA; todoB] = 2%nat
  /\ step [todoA; todoB] (Toggle (lit "a")) [flip todoA; todoB]
  /\ remaining [flip todoA; todoB] = 1%nat
  /\ step [flip todoA; todoB] (DragEnd (lit "b") (Some (lit "a"))) [todoB; flip todoA].
Proof.
  split; [|split; [reflexivity|split; [|split; [reflexivity|]]]].
  - apply (steps_cons _ _ [todoA]); [constructor; vm_compute; reflexivity|].
    apply (steps_cons _ _ [todoA; todoB]); [constructor; vm_compute; reflexivity|].
    apply steps_nil.
  - constructor. vm_compute. reflexivity.
  - constructor. vm_compute. reflexivity.
Qed.

(** ** What [trim] takes away *)

Lemma trimStart_split (s : jsstring) :
  exists a, s = a ++ trimStart s /\ forallb is_space a = true.
Proof.
  induction s as [|c s (a & Ha & Hsp)]; [by exists []|].
  simpl. destruct (is_space c) eqn:E.
  - exists (c :: a). simpl. rewrite E, Hsp. split; [by f_equal|done].
  - by exists [].
Qed.

Lemma trimStart_head (s : jsstring) (c : N) :
  head (trimStart s) = Some c -> is_space c = false.
Proof.
  induction s as [|d s IH]; [done|]. simpl.
  destruct (is_space d) eqn:E; [done|]. simpl. by intros [= <-].
Qed.

Lemma trimStart_fixed (s : jsstring) :
  (forall c, head s = Some c -> is_space c = false) -> trimStart s = s.
Proof. destruct s as [|c s]; [done|]. intros H. simpl. by rewrite (H c). Qed.

Lemma trimStart_blank (s : jsstring) :
  trimStart s = [] <-> forallb is_space s = true.
Proof.
  induction s as [|c s IH]; [done|]. simpl.
  destruct (is_space c); [done|]. split; discriminate.
Qed.

Lemma forallb_rev (p : N -> bool) (s : jsstring) : forallb p (rev s) = forallb p s.
Proof.
  induction s as [|c s IH]; [done|]. simpl.
  rewrite forallb_app, IH. simpl. rewrite andb_true_r. apply andb_comm.
Qed.

Lemma head_rev {A} (l : list A) : head (rev l) = last l.
Proof.
  induction l as [|x l IH] using rev_ind; [done|].
  by rewrite rev_unit, last_snoc.
Qed.

Lemma last_rev {A} (l : list A) : last (rev l) = head l.
Proof. by rewrite <- head_rev, rev_involutive. Qed.

(** What [trim] takes away is white space, at the two ends. *)
Lemma trim_split (s : jsstring) :
  exists a b, s = a ++ trim s ++ b
    /\ forallb is_space a = true /\ forallb is_space b = true.
Proof.
  destruct (trimStart_split s) as (a & Ha & Hsa).
  destruct (trimStart_split (rev (trimStart s))) as (b & Hb & Hsb).
  exists a, (rev b). split; [|split; [done|by rewrite forallb_rev]].
  unfold trim, trimEnd. rewrite <- rev_app_distr, <- Hb, rev_involutive. done.
Qed.

Lemma trim_head (s : jsstring) (c : N) : head (trim s) = Some c -> is_space c = false.
Proof.
  unfold trim, trimEnd. intros Hc.
  destruct (trimStart_split (rev (trimStart s))) as (b & Hb & _).
  apply (trimStart_head s).
  rewrite <- (rev_involutive (trimStart s)), Hb, rev_app_distr.
  destruct (rev (trimStart (rev (trimStart s)))); [done|]. done.
Qed.

Lemma trim_last (s : jsstring) (c : N) : last (trim s) = Some c -> is_space c = false.
Proof. unfold trim, trimEnd. rewrite last_rev. apply trimStart_head. Qed.

Lemma trim_fixed (s : jsstring) :
  (forall c, head s = Some c -> is_space c = false) ->
  (forall c, last s = Some c -> is_space c = false) ->
  trim s = s.
Proof.
  intros Hh Hl. unfold trim, trimEnd. rewrite (trimStart_fixed s Hh).
  rewrite trimStart_fixed; [apply rev_involutive|].
  intros c. rewrite head_rev. apply Hl.
Qed.

Lemma trim_idemp (s : jsstring) : trim (trim s) = trim s.
Proof. apply trim_fixed; [apply trim_head | apply trim_last]. Qed.

Lemma trim_blank (s : jsstring) : trim s = [] <-> forallb is_space s = true.
Proof.
  split.
  - intros Ht. destruct (trim_split s) as (a & b & Hs & Ha & Hb).
    rewrite Hs, Ht, !forallb_app, Ha, Hb. done.
  - intros Hs. apply trimStart_blank in Hs. unfold trim, trimEnd. by rewrite Hs.
Qed.

Lemma trim_nil : trim [] = [].
Proof. reflexivity. Qed.

(** *** [filter], [map] and [relocate] on lists *)

Section ListFacts.
Context {A : Type}.

Lemma filter_all (p : A -> bool) (l : list A) :
  (forall x, x ∈ l -> p x = true) -> List.filter p l = l.
Proof.
  induction l as [|x l IH]; [done|]. intros H. simpl.
  rewrite (H x) by apply list_elem_of_here. f_equal. apply IH.
  intros y Hy. apply H. by apply list_elem_of_further.
Qed.

Lemma filter_elem_of (p : A -> bool) (l : list A) (x : A) :
  x ∈ List.filter p l <-> x ∈ l /\ p x = true.
Proof. rewrite !list_elem_of_In. apply List.filter_In. Qed.

Lemma filter_idemp (p : A -> bool) (l : list A) :
  List.filter p (List.filter p l) = List.filter p l.
Proof. apply filter_all. intros x Hx. by apply filter_elem_of in Hx as [_ ?]. Qed.

Lemma filter_sublist (p : A -> bool) (l : list A) : sublist (List.filter p l) l.
Proof.
  induction l as [|x l IH]; simpl; [done|]. destruct (p x); by constructor.
Qed.

Lemma filter_shorter (p : A -> bool) (l : list A) (x : A) :
  x ∈ l -> p x = false -> (length (List.filter p l) < length l)%nat.
Proof.
  intros Hx Hp. induction l as [|y l IH]; [by apply elem_of_nil in Hx|].
  pose proof (sublist_length _ _ (filter_sublist p l)).
  simpl. apply elem_of_cons in Hx as [<-|Hx].
  - rewrite Hp. lia.
  - specialize (IH Hx). destruct (p y); simpl; lia.
Qed.

Lemma filter_length_Permutation (p : A -> bool) (l k : list A) :
  l ≡ₚ k -> length (List.filter p l) = length (List.filter p k).
Proof.
  induction 1 as [|x l k _ IH|x y l|l k m _ IH1 _ IH2]; simpl.
  - done.
  - destruct (p x); simpl; by rewrite IH.
  - by destruct (p x), (p y).
  - congruence.
Qed.

(** In a list without repetition of the key [f], removing the elements
    whose key is the key of the element at [k] removes that element
    only. *)
Lemma filter_delete {K} (f : A -> K) (q : A -> bool) (l : list A) (k : nat) (x : A) :
  NoDup (f <$> l) -> l !! k = Some x ->
  (forall y, q y = false <-> f y = f x) ->
  List.filter q l = delete k l.
Proof.
  intros Hnd Hk Hq. revert k Hnd Hk.
  induction l as [|y l IH]; intros k Hnd Hk; [done|].
  rewrite fmap_cons in Hnd. apply NoDup_cons in Hnd as [Hy Hnd].
  destruct k as [|k]; simpl in *.
  - injection Hk as ->. rewrite (proj2 (Hq x) eq_refl).
    apply filter_all. intros z Hz. destruct (q z) eqn:E; [done|].
    apply Hq in E. exfalso. apply Hy. rewrite <- E.
    apply list_elem_of_fmap. by exists z.
  - destruct (q y) eqn:E.
    + f_equal. by apply IH.
    + apply Hq in E. exfalso. apply Hy. rewrite E.
      apply list_elem_of_fmap. exists x. split; [done|]. by eapply list_elem_of_lookup_2.
Qed.

(** In such a list, changing the elements whose key is the key of the
    element at [k] changes that element only. *)
Lemma fmap_insert {K} (f : A -> K) (g : A -> A) (q : A -> bool) (l : list A)
    (k : nat) (x : A) :
  NoDup (f <$> l) -> l !! k = Some x ->
  (forall y, q y = true <-> f y = f x) ->
  (fun y => if q y then g y else y) <$> l = <[k := g x]> l.
Proof.
  intros Hnd Hk Hq. apply list_eq. intros j.
  rewrite list_lookup_fmap. destruct (decide (j = k)) as [->|Hjk].
  - rewrite list_lookup_insert_eq by (by eapply lookup_lt_Some).
    rewrite Hk. simpl. by rewrite (proj2 (Hq x) eq_refl).
  - rewrite list_lookup_insert_ne by done.
    destruct (l !! j) as [y|] eqn:Hj; [|done]. simpl.
    destruct (q y) eqn:E; [|done]. apply Hq in E. exfalso. apply Hjk.
    eapply NoDup_lookup; [exact Hnd|..]; rewrite list_lookup_fmap.
    + by rewrite Hj.
    + rewrite Hk. simpl. by rewrite E.
Qed.
End ListFacts.

Lemma relocate_fmap {A B} (f : A -> B) (l : list A) (i j : nat) :
  relocate (f <$> l) i j = f <$> relocate l i j.
Proof.
  unfold relocate. rewrite list_lookup_fmap.
  destruct (l !! i) as [x|]; simpl; [|done].
  rewrite fmap_app, fmap_cons, fmap_take, fmap_drop.
  assert (delete i (f <$> l) = f <$> delete i l) as ->; [|done].
  clear. revert i. induction l as [|y l IH]; intros [|i]; simpl; try done.
  by rewrite IH.
Qed.

Lemma findIndex_from_fmap {A B} (f : A -> B) (p : B -> bool) (l : list A) (k : Z) :
  findIndex_from p (f <$> l) k = findIndex_from (fun x => p (f x)) l k.
Proof.
  revert k. induction l as [|x l IH]; intros k; simpl; [done|].
  by rewrite IH.
Qed.

Lemma findIndex_from_ext {A} (p q : A -> bool) (l : list A) (k : Z) :
  (forall x, p x = q x) -> findIndex_from p l k = findIndex_from q l k.
Proof.
  intros H. revert k. induction l as [|x l IH]; intros k; simpl; [done|].
  by rewrite H, IH.
Qed.

Lemma mapM_slots {A} (l : list A) : mapM (M := option) (fun slot => slot) (Some <$> l) = Some l.
Proof. apply mapM_Some. induction l; by constructor. Qed.

(** With distinct identifiers, the records of one identifier are one
    record. *)
Lemma row_steps (todos : list Todo) (k : nat) (todo : Todo) :
  distinct_ids todos -> todos !! k = Some todo ->
  step todos (Toggle (id todo)) (<[k := flip todo]> todos)
  /\ step todos (Delete (id todo)) (delete k todos).
Proof.
  intros Hd Hk. split; constructor; unfold dispatch; simpl; f_equal.
  - apply (fmap_insert id flip (fun y => str_eqb (id y) (id todo)) todos k todo); [done..|].
    intros y. apply str_eqb_eq.
  - apply (filter_delete id (fun y => negb (str_eqb (id y) (id todo))) todos k todo); [done..|].
    intros y. rewrite negb_false_iff. apply str_eqb_eq.
Qed.

(** ** The form and the rows *)

(** X1: [addTodo] calls [setTodos] unless the text consists of white
    space only (the empty text included).  The record it then appends holds
    the input without the white space at its two ends, and nothing else is
    taken away: the input is the stored text between two runs of white
    space, and the stored text is not empty and starts and ends with a
    character that is not white space. *)
Theorem addTodo_stores_trimmed_text (todos : list Todo) (input uuid : jsstring) (now : Z) :
  (addTodo todos input uuid now = None <-> forallb is_space input = true)
  /\ (forallb is_space input = false ->
      exists stored a b,
        addTodo todos input uuid now = Some (SetValue (todos ++ [stored]))
        /\ input = a ++ text stored ++ b
        /\ forallb is_space a = true /\ forallb is_space b = true
        /\ text stored <> []
        /\ (forall c, head (text stored) = Some c -> is_space c = false)
        /\ (forall c, last (text stored) = Some c -> is_space c = false)).
Proof.
  assert (addTodo todos input uuid now = None <-> forallb is_space input = true) as Hnone.
  { rewrite <- trim_blank. unfold addTodo.
    destruct (str_eqb (trim input) []) eqn:E.
    - apply str_eqb_eq in E. by split.
    - apply str_eqb_neq in E. by split. }
  split; [exact Hnone|]. intros Hsp.
  assert (trim input <> []) as Hne.
  { intros E. apply trim_blank in E. congruence. }
  destruct (trim_split input) as (a & b & Hs & Ha & Hb).
  exists {| id := uuid; text := trim input; completed := false; createdAt := DateObj now |},
    a, b.
  cbn [text]. split; [|split; [done|]; split; [done|]; split; [done|]; split; [done|]].
  - unfold addTodo. apply str_eqb_neq in Hne. by rewrite Hne.
  - split; [apply trim_head | apply trim_last].
Qed.

(** X2: submitting the form adds a record and clears the input box
    when the text in the box has a character that is not white space;
    otherwise it changes neither the list nor the box, white space stays in
    it.  Right after a record was added the box is empty, so submitting
    again adds nothing. *)
Theorem handleSubmit_clears_input (todos : list Todo) (inputValue uuid : jsstring) (now : Z) :
  let newTodo := {| id := uuid; text := trim inputValue; completed := false;
                    createdAt := DateObj now |} in
  if forallb is_space inputValue
  then handleSubmit todos inputValue uuid now = (None, None)
  else handleSubmit todos inputValue uuid now
         = (Some (SetValue (todos ++ [newTodo])), Some [])
       /\ forall uuid' now',
            handleSubmit (todos ++ [newTodo]) [] uuid' now' = (None, None).
Proof.
  intros newTodo. unfold handleSubmit, addTodo.
  destruct (forallb is_space inputValue) eqn:E.
  - apply trim_blank in E. by rewrite E.
  - destruct (str_eqb (trim inputValue) []) eqn:Ht; [|done].
    apply str_eqb_eq, trim_blank in Ht. congruence.
Qed.

(** X3: [deleteTodo] removes every record whose identifier is the
    given one and nothing else: the records left are the others, in the
    order they had; an identifier that is not in the list leaves the list as
    it is, one that is makes the list shorter; deleting again changes
    nothing. *)
Theorem deleteTodo_removes (todos : list Todo) (i : jsstring) :
  exists kept,
    deleteTodo todos i = Some (SetValue kept)
    /\ step todos (Delete i) kept
    /\ (i ∉ id <$> kept)
    /\ (forall t, t ∈ kept <-> t ∈ todos /\ id t <> i)
    /\ sublist kept todos
    /\ (i ∉ id <$> todos -> kept = todos)
    /\ (i ∈ id <$> todos -> (length kept < length todos)%nat)
    /\ step kept (Delete i) kept.
Proof.
  set (p := fun todo : Todo => negb (str_eqb (id todo) i)).
  assert (forall t, p t = true <-> id t <> i) as Hp.
  { intros t. unfold p. rewrite negb_true_iff. apply str_eqb_neq. }
  exists (List.filter p todos).
  split; [done|]. split; [by constructor|]. split; [|split; [|split; [|split; [|split]]]].
  - intros Hin. apply list_elem_of_fmap in Hin as (t & -> & Ht).
    apply filter_elem_of in Ht as [_ Ht]. by apply Hp in Ht.
  - intros t. by rewrite filter_elem_of, Hp.
  - apply filter_sublist.
  - intros Hnin. apply filter_all. intros t Ht. apply Hp. intros <-.
    apply Hnin, list_elem_of_fmap. by exists t.
  - intros Hin. apply list_elem_of_fmap in Hin as (t & -> & Ht).
    apply (filter_shorter p todos t Ht). apply not_true_iff_false.
    rewrite Hp. by intros H; apply H.
  - constructor. unfold dispatch, handle, deleteTodo, applyAction. fold p.
    by rewrite filter_idemp.
Qed.

(** X4: when the identifiers are pairwise distinct, the checkbox of a
    row flips the record of that row and the delete button of a row removes
    the record of that row; every other row stays as it is. *)
Theorem row_controls_act_on_their_row (todos : list Todo) (k : nat) (todo : Todo) :
  distinct_ids todos -> todos !! k = Some todo ->
  step todos (checkboxChange todo) (<[k := flip todo]> todos)
  /\ step todos (deleteClick todo) (delete k todos).
Proof.
  intros Hd Hk. by apply row_steps.
Qed.

Lemma row_controls_act_on_their_row_witness :
  distinct_ids [todoA; todoB; todoC]
  /\ step [todoA; todoB; todoC] (checkboxChange todoB) [todoA; flip todoB; todoC]
  /\ step [todoA; todoB; todoC] (deleteClick todoB) [todoA; todoC].
Proof.
  assert (distinct_ids [todoA; todoB; todoC]) as Hd.
  { unfold distinct_ids. apply (bool_decide_unpack _). vm_compute. exact I. }
  split; [exact Hd|].
  exact (row_controls_act_on_their_row [todoA; todoB; todoC] 1 todoB Hd eq_refl).
Defined.

(** ** Operations in either order, and the footer *)

Lemma perform_Toggle_ids (l : list Todo) (i : jsstring) :
  id <$> perform l (Toggle i) = id <$> l.
Proof.
  simpl. rewrite <- list_fmap_compose. apply list_fmap_ext.
  intros _ t _. simpl. by destruct (str_eqb (id t) i).
Qed.

Lemma findIndex_Toggle (l : list Todo) (i a : jsstring) :
  findIndex (fun item => str_eqb (id item) a) (perform l (Toggle i))
  = findIndex (fun item => str_eqb (id item) a) l.
Proof.
  unfold findIndex. simpl. rewrite findIndex_from_fmap.
  apply findIndex_from_ext. intros t. by destruct (str_eqb (id t) i).
Qed.

(** Where [perform] describes the two events, it gives the same list in
    either order. *)
Lemma perform_Toggle_commutes (l : list Todo) (i : jsstring) (e : event) :
  (forall text uuid now, e = Add text uuid now -> uuid <> i) ->
  perform (perform l (Toggle i)) e = perform (perform l e) (Toggle i).
Proof.
  intros Hfresh.
  set (f := fun todo : Todo => if str_eqb (id todo) i then flip todo else todo).
  assert (forall t, id (f t) = id t) as Hid.
  { intros t. unfold f. by destruct (str_eqb (id t) i). }
  destruct e as [text uuid now|j|j|active [over|]].
  - specialize (Hfresh text uuid now eq_refl). apply str_eqb_neq in Hfresh.
    simpl. destruct (str_eqb (trim text) []); [done|].
    rewrite fmap_app. simpl. by rewrite Hfresh.
  - simpl. rewrite <- !list_fmap_compose. apply list_fmap_ext.
    intros _ [a b c d] _. unfold flip. simpl.
    destruct (str_eqb a i) eqn:Ei, (str_eqb a j) eqn:Ej; simpl; by rewrite ?Ei, ?Ej.
  - change (List.filter (fun todo => negb (str_eqb (id todo) j)) (f <$> l)
            = f <$> List.filter (fun todo => negb (str_eqb (id todo) j)) l).
    induction l as [|t l IH]; [done|]. rewrite fmap_cons. cbn [List.filter].
    rewrite Hid. destruct (negb (str_eqb (id t) j)); rewrite IH; done.
  - change (perform (perform l (Toggle i)) (DragEnd active (Some over))
            = f <$> perform l (DragEnd active (Some over))).
    cbn [perform]. destruct (str_eqb active over); [done|].
    fold (perform l (Toggle i)). rewrite !findIndex_Toggle.
    simpl. rewrite length_fmap. apply relocate_fmap.
  - done.
Qed.

(** X5: flipping the records of one identifier and any other
    operation can be done in either order, with the same list at the end: a
    toggle commutes with a toggle, with a removal, with an append whose
    generated identifier is not the one toggled, and, on a list that is not
    empty, with a move. *)
Theorem toggle_commutes (l : list Todo) (i : jsstring) (e : event) :
  (forall text uuid now, e = Add text uuid now -> uuid <> i) ->
  l <> [] \/ is_drag e = false ->
  exists l1 l2 l3,
    step l (Toggle i) l1 /\ step l1 e l2 /\ step l e l3 /\ step l3 (Toggle i) l2.
Proof.
  intros Hfresh Hok.
  exists (perform l (Toggle i)), (perform (perform l (Toggle i)) e), (perform l e).
  split; [apply step_perform; by right|]. split; [|split].
  - apply step_perform. destruct Hok as [Hne|?]; [left|by right].
    simpl. by destruct l.
  - by apply step_perform.
  - rewrite (perform_Toggle_commutes l i e Hfresh). apply step_perform. by right.
Qed.

Lemma toggle_commutes_witness :
  exists l1 l2 l3,
    step [todoA; todoB] (Toggle (lit "a")) l1
    /\ step l1 (DragEnd (lit "b") (Some (lit "a"))) l2
    /\ step [todoA; todoB] (DragEnd (lit "b") (Some (lit "a"))) l3
    /\ step l3 (Toggle (lit "a")) l2.
Proof.
  apply (toggle_commutes [todoA; todoB] (lit "a") (DragEnd (lit "b") (Some (lit "a")))).
  - intros text uuid now [=].
  - left. discriminate.
Defined.

(** X6: on a list that is not empty, the end of a drag never loses,
    repeats or changes a record, whatever the two identifiers are: the list
    after it is a rearrangement of the list before.  On the empty list a
    drag between two different identifiers leaves an array with one
    [undefined] slot, which is no list of records. *)
Theorem handleDragEnd_permutes :
  (forall l active over, l <> [] ->
     exists l', step l (DragEnd active over) l' /\ l' ≡ₚ l /\ length l' = length l)
  /\ (forall active over, active <> over ->
        dispatch [] [] (DragEnd active (Some over)) = [None]
        /\ forall l', ~ step [] (DragEnd active (Some over)) l').
Proof.
  split.
  - intros l active over Hne. exists (perform l (DragEnd active over)).
    split; [apply step_perform; by left|].
    assert (perform l (DragEnd active over) ≡ₚ l) as Hp.
    { destruct over as [over|]; simpl; [|done].
      destruct (str_eqb active over); [done|]. apply relocate_Permutation. }
    split; [done|]. by rewrite Hp.
  - intros active over Hne. apply str_eqb_neq in Hne.
    assert (dispatch [] [] (DragEnd active (Some over)) = [None]) as Hd.
    { unfold dispatch, handle, handleDragEnd. by rewrite Hne. }
    split; [done|]. intros l' Hs. inversion Hs as [? ? ? Hd']; subst.
    rewrite Hd in Hd'. by destruct l' as [|? [|? ?]].
Qed.

Lemma remaining_Permutation (l k : list Todo) : l ≡ₚ k -> remaining l = remaining k.
Proof. apply filter_length_Permutation. Qed.

Lemma remaining_app (l k : list Todo) : remaining (l ++ k) = (remaining l + remaining k)%nat.
Proof. unfold remaining. by rewrite List.filter_app, length_app. Qed.

Lemma remaining_le (l : list Todo) : (remaining l <= length l)%nat.
Proof. apply sublist_length, filter_sublist. Qed.

Lemma remaining_middle (l : list Todo) (k : nat) (todo : Todo) :
  l !! k = Some todo ->
  remaining l
  = (remaining (take k l) + (if completed todo then 0 else 1)
     + remaining (drop (S k) l))%nat.
Proof.
  intros Hk. rewrite <- (take_drop_middle l k todo Hk) at 1.
  rewrite remaining_app. change (todo :: drop (S k) l) with ([todo] ++ drop (S k) l).
  rewrite remaining_app. unfold remaining at 2. simpl.
  destruct (completed todo); simpl; lia.
Qed.

(** X7: the footer and the message of the empty list.  The footer is
    rendered exactly when the message is not; the number of records to do
    never exceeds the number of records; an append that is not refused adds
    one to both; with distinct identifiers the checkbox of a row adds or
    takes one record to do and the delete button of a row takes one record,
    and one record to do when the row was not completed; a drag changes
    neither number. *)
Theorem footer_follows_operations :
  (forall l, (footer l = None <-> l = []) /\ (view l = NoTodosYet <-> l = []))
  /\ (forall l, (remaining l <= length l)%nat)
  /\ (forall l text uuid now l',
        str_eqb (trim text) [] = false -> step l (Add text uuid now) l' ->
        footer l' = Some (S (remaining l), S (length l)))
  /\ (forall l k todo l',
        distinct_ids l -> l !! k = Some todo -> step l (checkboxChange todo) l' ->
        length l' = length l
        /\ if completed todo then remaining l' = S (remaining l)
           else S (remaining l') = remaining l)
  /\ (forall l k todo l',
        distinct_ids l -> l !! k = Some todo -> step l (deleteClick todo) l' ->
        S (length l') = length l
        /\ if completed todo then remaining l' = remaining l
           else S (remaining l') = remaining l)
  /\ (forall l active over l', step l (DragEnd active over) l' -> footer l' = footer l).
Proof.
  split; [|split; [|split; [|split; [|split]]]].
  - intros [|t l]; split; split; done.
  - apply remaining_le.
  - intros l text uuid now l' Ht Hs. apply step_functional in Hs. subst l'.
    simpl. rewrite Ht. unfold footer. rewrite length_app, remaining_app. simpl.
    unfold remaining at 2. simpl.
    replace (length l + 1)%nat with (S (length l)) by lia.
    replace (remaining l + 1)%nat with (S (remaining l)) by lia. done.
  - intros l k todo l' Hd Hk Hs.
    destruct (row_steps l k todo Hd Hk) as [Hs' _]. unfold checkboxChange in Hs.
    apply step_functional in Hs, Hs'. rewrite Hs, <- Hs'.
    pose proof (lookup_lt_Some _ _ _ Hk) as Hlt.
    split; [apply length_insert|].
    rewrite (remaining_middle l k todo Hk).
    rewrite (remaining_middle (<[k := flip todo]> l) k (flip todo))
      by (by apply list_lookup_insert_eq).
    rewrite take_insert_ge, drop_insert_lt by lia. simpl.
    destruct (completed todo); simpl; lia.
  - intros l k todo l' Hd Hk Hs.
    destruct (row_steps l k todo Hd Hk) as [_ Hs']. unfold deleteClick in Hs.
    apply step_functional in Hs, Hs'. rewrite Hs, <- Hs'.
    pose proof (lookup_lt_Some _ _ _ Hk) as Hlt.
    split; [rewrite length_delete by done; lia|].
    rewrite (remaining_middle l k todo Hk), delete_take_drop, remaining_app.
    destruct (completed todo); simpl; lia.
  - intros l active over l' Hs. apply step_functional in Hs. subst l'.
    assert (perform l (DragEnd active over) ≡ₚ l) as Hp.
    { destruct over as [over|]; simpl; [|done].
      destruct (str_eqb active over); [done|]. apply relocate_Permutation. }
    unfold footer. by rewrite (remaining_Permutation _ _ Hp), (Permutation_length Hp).
Qed.

(** ** What every reachable list satisfies *)

Lemma perform_DragEnd_Permutation (l : list Todo) (active : jsstring) (over : option jsstring) :
  perform l (DragEnd active over) ≡ₚ l.
Proof.
  destruct over as [over|]; simpl; [|done].
  destruct (str_eqb active over); [done|]. apply relocate_Permutation.
Qed.

Lemma step_trimmed (l : list Todo) (e : event) (l' : list Todo) :
  step l e l' ->
  Forall (fun t => trimmed (text t)) l -> Forall (fun t => trimmed (text t)) l'.
Proof.
  intros Hs Hl. rewrite (step_functional _ _ _ Hs).
  destruct e as [text uuid now|i|i|active over].
  - simpl. destruct (str_eqb (trim text) []) eqn:E; [done|].
    apply Forall_app. split; [done|]. apply Forall_singleton. simpl.
    split; [by apply str_eqb_neq | apply trim_idemp].
  - simpl. apply Forall_fmap. eapply Forall_impl; [exact Hl|].
    intros t Ht. simpl. by destruct (str_eqb (id t) i).
  - simpl. apply Forall_forall. intros t Ht. apply filter_elem_of in Ht as [Ht _].
    rewrite Forall_forall in Hl. by apply Hl.
  - by rewrite perform_DragEnd_Permutation.
Qed.

Lemma reachable_trimmed (l : list Todo) :
  reachable l ->
  Forall (fun t => trimmed (text t)) l /\ Forall (fun t => validStamp t = true) l.
Proof.
  induction 1 as [|l e l' _ [IHt IHv] Hg Hstep|l es l' _ [IHt IHv] Hf Hb
                  |l l' _ [IHt IHv] Hr].
  - split; constructor.
  - split; [by eapply step_trimmed | by eapply step_valid_stamps].
  - apply (batch_invariant
             (fun l0 => Forall (fun t => trimmed (text t)) l0
                        /\ Forall (fun t => validStamp t = true) l0)
             l es) with (cur := l); [| |done|done].
    + intros e l1 He _ Hs. rewrite Forall_forall in Hf.
      split; [eapply step_trimmed | eapply step_valid_stamps]; eauto.
    + intros l0 e l1 [Ht0 Hv0] Hdrag Hs.
      assert (generated l0 e) by (by destruct e).
      split; [eapply step_trimmed | eapply step_valid_stamps]; eauto.
  - rewrite deserialize_serialize in Hr by done. injection Hr as <-. split.
    + apply Forall_fmap. eapply Forall_impl; [exact IHt|]. by intros [i x c [ms|iso]].
    + apply Forall_fmap, Forall_forall. intros t _. apply reloaded_valid.
Qed.

(** X8: no record of a list the component comes to hold has an empty
    text or a text with white space at one of its ends: this holds for the
    initial list and is kept by every append, toggle, removal and move,
    handled one by one or several by the closures of one render, and by
    every reload of the page, which reads the text the component wrote. *)
Theorem texts_stay_trimmed (l : list Todo) :
  reachable l -> Forall (fun t => trimmed (text t)) l.
Proof. intros Hr. by destruct (reachable_trimmed l Hr). Qed.

Lemma texts_stay_trimmed_witness :
  reachable [reloaded todoA; todoB]
  /\ Forall (fun t => trimmed (text t)) [reloaded todoA; todoB].
Proof.
  assert (reachable [reloaded todoA; todoB]) as Hr.
  { apply (reach_event [reloaded todoA] (Add (lit "  Walk dog ") (lit "b") 1700000001000)).
    - apply (reach_reload [todoA]); [|vm_compute; reflexivity].
      apply (reach_event [] (Add (lit " Buy milk") (lit "a") 1700000000000)).
      + apply reach_initial.
      + split; [apply not_elem_of_nil | reflexivity].
      + constructor. vm_compute. reflexivity.
    - split; [|reflexivity]. vm_compute. intros Hx.
      repeat (apply elem_of_cons in Hx as [Hx|Hx]; [discriminate|]).
      by apply elem_of_nil in Hx.
    - constructor. vm_compute. reflexivity. }
  split; [exact Hr|]. exact (texts_stay_trimmed _ Hr).
Defined.

(** X9: events handled by the closures of one render, before React
    renders again.  Append, toggle and removal give [setTodos] a list made
    from the list that render saw, so of several such events only the last
    one that called [setTodos] shows: the list is what that event alone
    makes of the rendered list, and the list in memory when none called
    it. *)
Theorem batch_last_wins (rendered cur : list Todo) (es : list event) :
  Forall (fun e => is_drag e = false) es ->
  batch rendered cur es =
    Some (default cur
            (last (omap (fun e => (fun _ => perform rendered e) <$> handle rendered e) es))).
Proof.
  intros Hes. revert cur. induction Hes as [|e es He _ IH]; intros cur; [done|].
  assert ((handle rendered e = None /\ dispatch rendered cur e = Some <$> cur)
          \/ (handle rendered e = Some (SetValue (perform rendered e))
              /\ dispatch rendered cur e = Some <$> perform rendered e)) as Hcase.
  { destruct e as [text uuid now|i|i|active over]; [| | |done].
    - unfold dispatch. simpl. unfold addTodo.
      destruct (str_eqb (trim text) []); [left|right]; done.
    - by right.
    - by right. }
  cbn [batch omap list_omap].
  destruct Hcase as [[Hh Hd]|[Hh Hd]]; rewrite Hd, mapM_slots, IH, Hh; simpl; [done|].
  destruct (omap _ es) as [|v vs] eqn:E; [done|].
  rewrite last_cons_cons. destruct (last (v :: vs)) eqn:El; [done|].
  by apply last_None in El.
Qed.

Lemma batch_last_wins_witness :
  batch [todoA] [todoA] [Toggle (lit "a"); Toggle (lit "a"); Add (lit " ") (lit "b") 0]
  = Some [flip todoA].
Proof.
  apply (batch_last_wins [todoA] [todoA]
           [Toggle (lit "a"); Toggle (lit "a"); Add (lit " ") (lit "b") 0]).
  repeat constructor.
Defined.

(** X10: no operation edits a record that is in the list.  Every
    record of the list after an operation is the record an append made, or
    has the identifier, the text and the date of a record of the list
    before, and its completed flag unless the operation is the toggle of its
    identifier. *)
Theorem operations_keep_the_fields (l : list Todo) (e : event) (l' : list Todo) :
  step l e l' ->
  forall t', t' ∈ l' ->
    (exists t, t ∈ l /\ id t' = id t /\ text t' = text t /\ createdAt t' = createdAt t
               /\ (completed t' = completed t \/ e = Toggle (id t)))
    \/ (exists text uuid now, e = Add text uuid now
          /\ t' = {| id := uuid; text := trim text; completed := false;
                     createdAt := DateObj now |}).
Proof.
  intros Hs t' Ht'. rewrite (step_functional _ _ _ Hs) in Ht'.
  assert (t' ∈ l ->
          exists t, t ∈ l /\ id t' = id t /\ text t' = text t /\ createdAt t' = createdAt t
                    /\ (completed t' = completed t \/ e = Toggle (id t))) as Hsame.
  { intros Hin. exists t'. repeat split; [done|]. by left. }
  destruct e as [text uuid now|i|i|active over].
  - simpl in Ht'. destruct (str_eqb (trim text) []); [by left; apply Hsame|].
    apply elem_of_app in Ht' as [Ht'|Ht']; [by left; apply Hsame|].
    apply list_elem_of_singleton in Ht'. right. by exists text, uuid, now.
  - simpl in Ht'. apply list_elem_of_fmap in Ht' as (t & -> & Ht). left. exists t.
    destruct (str_eqb (id t) i) eqn:E; [|repeat split; [done|by left]].
    apply str_eqb_eq in E. subst i. repeat split; [done|]. by right.
  - simpl in Ht'. apply filter_elem_of in Ht' as [Ht' _]. left. by apply Hsame.
  - rewrite perform_DragEnd_Permutation in Ht'. left. by apply Hsame.
Qed.

Lemma operations_keep_the_fields_witness :
  step [todoA; todoB] (Toggle (lit "a")) [flip todoA; todoB]
  /\ text (flip todoA) = lit "Buy milk".
Proof.
  assert (step [todoA; todoB] (Toggle (lit "a")) [flip todoA; todoB]) as Hs
    by (constructor; vm_compute; reflexivity).
  split; [exact Hs|].
  destruct (operations_keep_the_fields [todoA; todoB] (Toggle (lit "a"))
              [flip todoA; todoB] Hs (flip todoA) (list_elem_of_here _ _))
    as [(t & Ht & _ & Htext & _)|(text & uuid & now & He & _)].
  - reflexivity.
  - reflexivity.
Defined.

Lemma findIndex_found (l : list Todo) (todo : Todo) :
  todo ∈ l ->
  exists i first,
    findIndex (fun item => str_eqb (id item) (id todo)) l = Z.of_nat i
    /\ l !! i = Some first /\ id first = id todo.
Proof.
  intros Hin.
  pose proof (findIndex_bounds (fun item => str_eqb (id item) (id todo)) l) as Hb.
  destruct (decide (findIndex (fun item => str_eqb (id item) (id todo)) l = -1)) as [E|E].
  - apply findIndex_None with (x := todo) in E; [|done].
    by rewrite str_eqb_refl in E.
  - exists (Z.to_nat (findIndex (fun item => str_eqb (id item) (id todo)) l)).
    assert (findIndex (fun item => str_eqb (id item) (id todo)) l
            = Z.of_nat (Z.to_nat (findIndex (fun item => str_eqb (id item) (id todo)) l)))
      as Hi by lia.
    destruct (findIndex_Some _ _ _ Hi) as (x & Hx & Hpx & _).
    exists x. split; [done|]. split; [done|]. by apply str_eqb_eq.
Qed.

(** X11: every event the rendered interface can fire is handled and
    leaves a list of records.  The identifiers of a drag are identifiers of
    rows, so the case of an identifier that is not in the list does not
    arise: a drop on another row takes the first record with the source
    identifier to the position of the first record with the target
    identifier. *)
Theorem offered_events_are_handled (l : list Todo) (e : event) :
  offered l e ->
  exists l', step l e l'
    /\ forall active over, e = DragEnd active (Some over) -> active <> over ->
         exists i j source target,
           l !! i = Some source /\ id source = active
           /\ l !! j = Some target /\ id target = over
           /\ i <> j /\ l' = relocate l i j /\ l' ≡ₚ l.
Proof.
  intros Hoff. exists (perform l e). split.
  - apply step_perform. destruct e as [| | |active over]; try by right.
    left. destruct Hoff as [(t & Ht & _) _]. intros ->. by apply elem_of_nil in Ht.
  - intros active over -> Hne. destruct Hoff as [(s & Hs & ->) (t & Ht & ->)].
    destruct (findIndex_found l s Hs) as (i & source & Hi & Hsrc & Hids).
    destruct (findIndex_found l t Ht) as (j & target & Hj & Htgt & Hidt).
    exists i, j, source, target. repeat split; [done..| | |].
    + intros <-. congruence.
    + simpl. apply str_eqb_neq in Hne. rewrite Hne, Hi, Hj.
      unfold wrap. destruct (Z.ltb_spec (Z.of_nat i) 0), (Z.ltb_spec (Z.of_nat j) 0);
        try lia. by rewrite !Nat2Z.id.
    + apply perform_DragEnd_Permutation.
Qed.

Lemma offered_events_are_handled_witness :
  offered [todoA; todoB; todoC] (DragEnd (lit "c") (Some (lit "a")))
  /\ exists l', step [todoA; todoB; todoC] (DragEnd (lit "c") (Some (lit "a"))) l'.
Proof.
  assert (offered [todoA; todoB; todoC] (DragEnd (lit "c") (Some (lit "a")))) as Ho.
  { split; [exists todoC | exists todoA]; (split; [|reflexivity]).
    - do 2 apply list_elem_of_further. apply list_elem_of_here.
    - apply list_elem_of_here. }
  split; [exact Ho|].
  destruct (offered_events_are_handled _ _ Ho) as (l' & Hs & _). by exists l'.
Defined.

(** ** The hook through several calls of the setter *)

Section SessionFacts.
Context {T : Type} {store : Store T}.

Lemma saveEffect_flags (v : T) (h : bool) (b : Browser) :
  hasWindow (saveEffect v h b) = hasWindow b
  /\ getThrows (saveEffect v h b) = getThrows b
  /\ setThrows (saveEffect v h b) = setThrows b.
Proof.
  unfold saveEffect, setItem. destruct (h && hasWindow b); [|done].
  destruct (setThrows b) eqn:E; simpl; by rewrite ?E.
Qed.

Lemma afterLoad_flags (b : Browser) :
  hasWindow (afterLoad b) = hasWindow b
  /\ getThrows (afterLoad b) = getThrows b
  /\ setThrows (afterLoad b) = setThrows b.
Proof.
  unfold afterLoad. destruct (hasWindow b) eqn:E; [|done].
  by destruct (readFails b).
Qed.

Lemma saveEffect_no_window (v : T) (h : bool) (b : Browser) :
  hasWindow b = false -> saveEffect v h b = b.
Proof. intros Hw. unfold saveEffect. by rewrite Hw, andb_false_r. Qed.

Lemma afterLoad_no_window (b : Browser) : hasWindow b = false -> afterLoad b = b.
Proof. intros Hw. unfold afterLoad. by rewrite Hw. Qed.

Lemma mounted_browser (b : Browser) :
  get (mounted b) = hydratedValue b
  /\ snd (mounted b) = saveEffect (hydratedValue b) true (afterLoad b).
Proof. unfold mounted. by rewrite run_3. Qed.

(** What a call of [set] does on a hydrated instance with nothing left to
    do: it bails out, or makes the new value the value in memory and runs
    the second effect with it. *)
Lemma set_browser (c : config) (a : SetStateAction T) :
  settled c ->
  settled (set a c)
  /\ (if same (get c) (applySetState (get c) a)
      then set a c = c
      else get (set a c) = applySetState (get c) a
           /\ snd (set a c) = saveEffect (applySetState (get c) a) true (snd c)).
Proof.
  intros Hc. destruct (same (get c) (applySetState (get c) a)) eqn:Hsame.
  - by rewrite (set_same c a Hc Hsame).
  - rewrite (set_changed c a Hc Hsame). split; [|done].
    unfold settled. simpl. repeat split; done.
Qed.

(** A property of the instance that every call of [set] keeps holds after
    any number of calls. *)
Lemma setEach_invariant (P : config -> Prop) (acts : list (SetStateAction T))
    (c : config) :
  (forall c a, settled c -> P c -> P (set a c)) ->
  settled c -> P c -> settled (setEach acts c) /\ P (setEach acts c).
Proof.
  intros Hstep. revert c. induction acts as [|a acts IH]; intros c Hc HP; [done|].
  apply (IH (set a c)); [by apply set_browser | by apply Hstep].
Qed.

Lemma setEach_flags (acts : list (SetStateAction T)) (b : Browser) :
  settled (setEach acts (mounted b))
  /\ hasWindow (snd (setEach acts (mounted b))) = hasWindow b
  /\ getThrows (snd (setEach acts (mounted b))) = getThrows b
  /\ setThrows (snd (setEach acts (mounted b))) = setThrows b.
Proof.
  apply (setEach_invariant
           (fun c => hasWindow (snd c) = hasWindow b
                     /\ getThrows (snd c) = getThrows b
                     /\ setThrows (snd c) = setThrows b)).
  - intros c a Hc (Hw & Hg & Hs). destruct (set_browser c a Hc) as [_ Hset].
    destruct (same (get c) (applySetState (get c) a)).
    + by rewrite Hset.
    + destruct Hset as [_ ->].
      destruct (saveEffect_flags (applySetState (get c) a) true (snd c))
        as (-> & -> & ->). done.
  - apply mounted_settled.
  - destruct (mounted_browser b) as [_ ->].
    destruct (saveEffect_flags (hydratedValue b) true (afterLoad b)) as (-> & -> & ->).
    apply afterLoad_flags.
Qed.

Lemma storedAt_saveEffect (v : T) (b : Browser) (k : jsstring) :
  storedAt k (saveEffect v true b) =
    if hasWindow b && negb (setThrows b) && str_eqb k key then Some (stringify v)
    else storedAt k b.
Proof.
  unfold storedAt. rewrite items_saveEffect.
  destruct (hasWindow b && negb (setThrows b)); [|done]. simpl.
  destruct (str_eqb k key) eqn:E.
  - apply str_eqb_eq in E. subst k. apply lookup_insert_eq.
  - apply str_eqb_neq in E. by apply lookup_insert_ne.
Qed.

(** The calls a call of [set] adds to the log. *)
Lemma calls_set (c : config) (a : SetStateAction T) :
  settled c ->
  calls (snd (set a c)) =
    calls (snd c)
    ++ (if same (get c) (applySetState (get c) a) || negb (hasWindow (snd c)) then []
        else SetItem key (stringify (applySetState (get c) a))
             :: (if setThrows (snd c) then [Warn (writeWarning key)] else [])).
Proof.
  intros Hc. destruct (set_browser c a Hc) as [_ Hset].
  destruct (same (get c) (applySetState (get c) a)); simpl.
  - by rewrite Hset, app_nil_r.
  - destruct Hset as [_ ->]. rewrite calls_saveEffect. by destruct (hasWindow (snd c)).
Qed.

(** Where the storage accepts writes, the text under the key is the text
    of the value in memory. *)
Lemma setEach_stored (b : Browser) (acts : list (SetStateAction T)) :
  hasWindow b = true -> setThrows b = false ->
  storedAt key (snd (setEach acts (mounted b)))
  = Some (stringify (get (setEach acts (mounted b)))).
Proof.
  intros Hw Hs.
  apply (setEach_invariant
           (fun c => (hasWindow (snd c) = true /\ setThrows (snd c) = false)
                     /\ storedAt key (snd c) = Some (stringify (get c))));
    [|apply mounted_settled|].
  - intros c a Hc [[Hwc Hsc] Hst]. destruct (set_browser c a Hc) as [_ Hset].
    destruct (same (get c) (applySetState (get c) a)); [by rewrite Hset|].
    destruct Hset as [-> ->].
    destruct (saveEffect_flags (applySetState (get c) a) true (snd c)) as (-> & _ & ->).
    split; [done|]. by rewrite storedAt_saveEffect, Hwc, Hsc, str_eqb_refl.
  - destruct (mounted_browser b) as [-> ->].
    destruct (saveEffect_flags (hydratedValue b) true (afterLoad b)) as (-> & _ & ->).
    destruct (afterLoad_flags b) as (-> & _ & ->).
    split; [done|].
    by rewrite storedAt_saveEffect, hasWindow_afterLoad, setThrows_afterLoad, Hw, Hs,
      str_eqb_refl.
Qed.
Lemma set_flags (c : config) (a : SetStateAction T) :
  settled c ->
  hasWindow (snd (set a c)) = hasWindow (snd c)
  /\ getThrows (snd (set a c)) = getThrows (snd c)
  /\ setThrows (snd (set a c)) = setThrows (snd c).
Proof.
  intros Hc. destruct (set_browser c a Hc) as [_ Hset].
  destruct (same (get c) (applySetState (get c) a)); [by rewrite Hset|].
  destruct Hset as [_ ->]. apply saveEffect_flags.
Qed.
End SessionFacts.

Section SessionTheorems.
Context {T : Type} {store : Store T}.

(** X12: where [window] is not defined the hook never touches the
    storage.  At every step of React's work on the mount (none of them
    when the component is only rendered to a string on the server, where
    no effect runs; all of them where effects run without a window) no
    method of the storage is called, nothing is logged, and the value is
    the initial value; no method is called through later calls of [set]
    either. *)
Theorem no_window_no_storage (b : Browser) (acts : list (SetStateAction T)) :
  hasWindow b = false ->
  (forall n, snd (run n (mount b)) = b /\ get (run n (mount b)) = initialValue)
  /\ snd (setEach acts (mounted b)) = b.
Proof.
  intros Hw.
  assert (hydratedValue b = initialValue) as Hv.
  { unfold hydratedValue. by rewrite Hw. }
  assert (snd (mounted b) = b) as Hm.
  { destruct (mounted_browser b) as [_ ->].
    rewrite saveEffect_no_window; [by apply afterLoad_no_window|].
    by rewrite hasWindow_afterLoad. }
  split.
  - intros [|[|[|n]]].
    + done.
    + rewrite run_1. split; [by apply afterLoad_no_window | done].
    + rewrite run_2. split; [by apply afterLoad_no_window | exact Hv].
    + rewrite run_ge_3 by lia. split; [exact Hm|]. rewrite run_3. exact Hv.
  - apply (setEach_invariant (fun c => snd c = b)); [|apply mounted_settled|exact Hm].
    intros c a Hc Hb. destruct (set_browser c a Hc) as [_ Hset].
    destruct (same (get c) (applySetState (get c) a)); [by rewrite Hset|].
    destruct Hset as [_ ->]. rewrite saveEffect_no_window; [done|]. by rewrite Hb.
Qed.

(** X13: the hook touches nothing but its own key: what is stored
    under any other key stays as it is through the mount and any calls of
    [set], every call of [getItem] and of [setItem] names the key, and the
    warnings are the two of the hook. *)
Theorem hook_touches_only_its_key (b : Browser) (acts : list (SetStateAction T)) :
  (forall k, k <> key -> storedAt k (snd (setEach acts (mounted b))) = storedAt k b)
  /\ exists made,
       calls (snd (setEach acts (mounted b))) = calls b ++ made
       /\ Forall (fun c => match c with
                           | GetItem k | SetItem k _ => k = key
                           | Warn m => m = readWarning key \/ m = writeWarning key
                           end) made.
Proof.
  set (own := fun c => match c with
                       | GetItem k | SetItem k _ => k = key
                       | Warn m => m = readWarning key \/ m = writeWarning key
                       end).
  assert (forall v b0, exists made,
            calls (saveEffect v true b0) = calls b0 ++ made /\ Forall own made) as Hsave.
  { intros v b0. eexists. split; [apply calls_saveEffect|].
    destruct (hasWindow b0); [|constructor].
    destruct (setThrows b0); [|by apply Forall_singleton].
    apply Forall_cons. split; [done|]. apply Forall_singleton. by right. }
  split.
  - intros k Hk. apply str_eqb_neq in Hk.
    apply (setEach_invariant (fun c => storedAt k (snd c) = storedAt k b));
      [|apply mounted_settled|].
    + intros c a Hc Hb. destruct (set_browser c a Hc) as [_ Hset].
      destruct (same (get c) (applySetState (get c) a)); [by rewrite Hset|].
      destruct Hset as [_ ->]. by rewrite storedAt_saveEffect, Hk, andb_false_r.
    + destruct (mounted_browser b) as [_ ->].
      rewrite storedAt_saveEffect, Hk, andb_false_r.
      unfold storedAt. by rewrite items_afterLoad.
  - apply (setEach_invariant
             (fun c => exists made, calls (snd c) = calls b ++ made /\ Forall own made));
      [|apply mounted_settled|].
    + intros c a Hc (made & Hmade & Hown). destruct (set_browser c a Hc) as [_ Hset].
      destruct (same (get c) (applySetState (get c) a)); [rewrite Hset; by exists made|].
      destruct Hset as [_ ->].
      destruct (Hsave (applySetState (get c) a) (snd c)) as (more & -> & Hmore).
      exists (made ++ more). rewrite Hmade, <- app_assoc. split; [done|].
      by apply Forall_app.
    + destruct (mounted_browser b) as [_ ->].
      destruct (Hsave (hydratedValue b) (afterLoad b)) as (more & -> & Hmore).
      rewrite calls_afterLoad, <- app_assoc. eexists. split; [done|].
      apply Forall_app. split; [|done].
      destruct (hasWindow b); [|constructor].
      destruct (readFails b); [|by apply Forall_singleton].
      apply Forall_cons. split; [done|]. apply Forall_singleton. by left.
Qed.

(** X14: in a browser whose storage accepts writes, once the
    instance is mounted the text stored under the key is the text of the
    value in memory, and it stays so through any calls of [set]. *)
Theorem storage_follows_memory (b : Browser) (acts : list (SetStateAction T)) :
  hasWindow b = true -> setThrows b = false ->
  storedAt key (snd (setEach acts (mounted b)))
  = Some (stringify (get (setEach acts (mounted b)))).
Proof.
  apply setEach_stored.
Qed.

(** X15: the value in memory does not depend on the storage working:
    whether or not there is a window, and whether or not the methods of the
    storage throw, after the mount and any calls of [set] the value in
    memory is what the calls, applied in order, make of the value
    hydration gave.  ([Object.is] holds of equal values only.) *)
Theorem memory_follows_sets (b : Browser) (acts : list (SetStateAction T)) :
  (forall x y, same x y = true -> x = y) ->
  get (setEach acts (mounted b)) = foldl applySetState (hydratedValue b) acts.
Proof.
  intros Hsame. destruct (mounted_browser b) as [<- _].
  pose proof (mounted_settled b) as Hc. revert Hc. generalize (mounted b).
  induction acts as [|a acts IH]; intros c Hc; [done|].
  destruct (set_browser c a Hc) as [Hc' Hset].
  change (setEach (a :: acts) c) with (setEach acts (set a c)).
  rewrite (IH _ Hc'). simpl. f_equal.
  destruct (same (get c) (applySetState (get c) a)) eqn:E.
  - rewrite Hset. by apply Hsame.
  - by destruct Hset.
Qed.

(** X16: when [setItem] throws (the storage is full or disabled) the
    content of the storage is never changed, and the calls made after the
    mount come in pairs: a call of [setItem] with the text of a value,
    followed by the warning of the failed write. *)
Theorem refused_writes_are_reported (b : Browser) (acts : list (SetStateAction T)) :
  setThrows b = true ->
  items (snd (setEach acts (mounted b))) = items b
  /\ exists vs,
       calls (snd (setEach acts (mounted b)))
       = calls (snd (mounted b))
         ++ (vs ≫= fun v => [SetItem key (stringify v); Warn (writeWarning key)]).
Proof.
  intros Hs.
  destruct (setEach_flags [] b) as (_ & _ & _ & Hsm). simpl in Hsm.
  assert (items (snd (mounted b)) = items b) as Hm.
  { destruct (mounted_browser b) as [_ ->].
    by rewrite items_saveEffect, setThrows_afterLoad, Hs, andb_false_r, items_afterLoad. }
  split.
  - apply (setEach_invariant
             (fun c => setThrows (snd c) = true /\ items (snd c) = items b));
      [|apply mounted_settled|by rewrite Hsm].
    intros c a Hc [Hsc Hi]. destruct (set_browser c a Hc) as [_ Hset].
    destruct (same (get c) (applySetState (get c) a)); [by rewrite Hset|].
    destruct Hset as [_ ->].
    destruct (saveEffect_flags (applySetState (get c) a) true (snd c)) as (_ & _ & ->).
    split; [done|]. by rewrite items_saveEffect, Hsc, andb_false_r.
  - apply (setEach_invariant
             (fun c => setThrows (snd c) = true
                       /\ exists vs,
                            calls (snd c)
                            = calls (snd (mounted b))
                              ++ (vs ≫= fun v => [SetItem key (stringify v);
                                                  Warn (writeWarning key)])));
      [|apply mounted_settled|].
    + intros c a Hc (Hsc & vs & Hvs). pose proof (calls_set c a Hc) as Hcalls.
      destruct (set_browser c a Hc) as [_ Hset].
      destruct (same (get c) (applySetState (get c) a)) eqn:E.
      * rewrite Hset. split; [done|]. by exists vs.
      * destruct Hset as [_ Hsnd]. split.
        { rewrite Hsnd.
          by destruct (saveEffect_flags (applySetState (get c) a) true (snd c))
            as (_ & _ & ->). }
        rewrite Hcalls, Hvs, Hsc. simpl. destruct (hasWindow (snd c)); simpl.
        -- exists (vs ++ [applySetState (get c) a]).
           rewrite bind_app, <- app_assoc. simpl. by rewrite ?app_nil_r.
        -- exists vs. by rewrite app_nil_r.
    + split; [by rewrite Hsm|]. exists []. simpl. by rewrite app_nil_r.
Qed.

(** X17: a read that fails at hydration costs the stored text.  When
    [getItem] throws, or the text found does not parse, the value in memory
    is the initial value, and the write that follows hydration puts the
    text of the initial value under the key, in place of the text that was
    there; the text stays only when [setItem] throws as well. *)
Theorem failed_read_resets_storage (b : Browser) :
  hasWindow b = true -> readFails b = true ->
  get (mounted b) = initialValue
  /\ Warn (readWarning key) ∈ calls (snd (mounted b))
  /\ storedAt key (snd (mounted b))
     = if setThrows b then storedAt key b else Some (stringify initialValue).
Proof.
  intros Hw Hf. destruct (mounted_browser b) as [Hget Hsnd].
  rewrite Hget, Hsnd, (hydratedValue_fails b Hf). split; [done|]. split.
  - rewrite calls_saveEffect, calls_afterLoad, Hw, Hf.
    rewrite !elem_of_app. left. right. apply list_elem_of_further, list_elem_of_here.
  - rewrite storedAt_saveEffect, hasWindow_afterLoad, setThrows_afterLoad, Hw, str_eqb_refl.
    destruct (setThrows b); simpl; [|done]. unfold storedAt. by rewrite items_afterLoad.
Qed.

(** X18: calls of [set] made before React renders again are applied
    in the order they were made, each function to the result of the call
    before it, and are written once: one render, and one call of [setItem]
    with the text of the final value; when the final value is the value in
    memory nothing is rendered and nothing is written. *)
Theorem batched_sets_write_once (c : config) (acts : list (SetStateAction T)) :
  settled c -> hasWindow (snd c) = true -> acts <> [] ->
  let v' := foldl applySetState (get c) acts in
  settled (setBatch acts c)
  /\ (if same (get c) v' then setBatch acts c = c
      else get (setBatch acts c) = v'
           /\ calls (snd (setBatch acts c))
              = calls (snd c)
                ++ SetItem key (stringify v')
                   :: (if setThrows (snd c) then [Warn (writeWarning key)] else [])).
Proof.
  intros Hc Hw Hne v'. rewrite (setBatch_shape c acts Hc Hne). fold v'.
  destruct (same (get c) v'); [done|]. split.
  - unfold settled. simpl. repeat split; done.
  - split; [done|]. simpl. by rewrite calls_saveEffect, Hw.
Qed.
End SessionTheorems.

Lemma same_js_eq (x y : jsval) : same_js x y = true -> x = y.
Proof.
  destruct x, y; simpl; try done.
  - intros H. apply bool_decide_eq_true in H. by subst.
  - intros H. apply str_eqb_eq in H. by subst.
Qed.

Lemma no_window_no_storage_witness :
  hasWindow serverBrowser = false
  /\ snd (setEach (store := testStore) [Value (VStr (lit "new-value"))]
            (mountedTest serverBrowser)) = serverBrowser.
Proof.
  split; [reflexivity|].
  exact (proj2
    (no_window_no_storage (store := testStore) serverBrowser
       [Value (VStr (lit "new-value"))] eq_refl)).
Defined.

Lemma storage_follows_memory_witness :
  hasWindow emptyBrowser = true /\ setThrows emptyBrowser = false
  /\ storedAt testKey
       (snd (setEach (store := testStore)
               [Value (VStr (lit "a")); Updater (fun _ => VBool true)]
               (mountedTest emptyBrowser)))
     = Some (lit "true").
Proof.
  split; [reflexivity|]. split; [reflexivity|].
  exact (storage_follows_memory (store := testStore) emptyBrowser
           [Value (VStr (lit "a")); Updater (fun _ => VBool true)] eq_refl eq_refl).
Defined.

Lemma memory_follows_sets_witness :
  get (setEach (store := testStore)
         [Value (VStr (lit "a")); Updater (fun v => VArr [v; v])]
         (mountedTest throwingBrowser))
  = VArr [VStr (lit "a"); VStr (lit "a")].
Proof.
  exact (memory_follows_sets (store := testStore) throwingBrowser
           [Value (VStr (lit "a")); Updater (fun v => VArr [v; v])] same_js_eq).
Defined.

Lemma refused_writes_are_reported_witness :
  setThrows fullBrowser = true
  /\ items (snd (setEach (store := testStore) [Value (VStr (lit "a"))]
                   (mountedTest fullBrowser))) = ∅.
Proof.
  split; [reflexivity|].
  exact (proj1 (refused_writes_are_reported (store := testStore) fullBrowser
                  [Value (VStr (lit "a"))] eq_refl)).
Defined.

Lemma failed_read_resets_storage_witness :
  hasWindow corruptBrowser = true
  /\ readFails (store := testStore) corruptBrowser = true
  /\ storedAt testKey (snd (mountedTest corruptBrowser))
     = Some (stored_text (VStr (lit "initial"))).
Proof.
  split; [reflexivity|]. split; [vm_compute; reflexivity|].
  refine (proj2 (proj2
    (failed_read_resets_storage (store := testStore) corruptBrowser eq_refl _))).
  vm_compute. reflexivity.
Defined.

Lemma batched_sets_write_once_witness :
  settled (store := testStore) (mountedTest emptyBrowser)
  /\ hasWindow (snd (mountedTest emptyBrowser)) = true
  /\ get (setBatch (store := testStore)
            [Value (VStr (lit "a")); Updater (fun v => VArr [v])]
            (mountedTest emptyBrowser))
     = VArr [VStr (lit "a")].
Proof.
  assert (settled (store := testStore) (mountedTest emptyBrowser)) as Hs
    by (repeat split; vm_compute; reflexivity).
  assert (hasWindow (snd (mountedTest emptyBrowser)) = true) as Hw
    by (vm_compute; reflexivity).
  split; [exact Hs|]. split; [exact Hw|].
  refine (proj1 (proj2
    (batched_sets_write_once (store := testStore) (mountedTest emptyBrowser)
       [Value (VStr (lit "a")); Updater (fun v => VArr [v])] Hs Hw _))).
  discriminate.
Defined.

Lemma records_Some (slots : list (option Todo)) (l : list Todo) :
  records slots = Some l -> slots = Some <$> l.
Proof. apply mapM_slots_Some. Qed.

(** What an event does to the component: the list in memory makes the step
    of the event, and the text under the key follows. *)
Lemma onEvent_step (c c' : Hook (list Todo) * Browser) (e : event) :
  settled (store := todoStore) c ->
  hasWindow (snd c) = true -> setThrows (snd c) = false ->
  storedAt (lit "todos") (snd c) = Some (serialize (get c)) ->
  onEvent c e = Some c' ->
  step (get c) e (get c')
  /\ settled (store := todoStore) c'
  /\ (hasWindow (snd c') = hasWindow (snd c)
      /\ getThrows (snd c') = getThrows (snd c)
      /\ setThrows (snd c') = setThrows (snd c))
  /\ storedAt (lit "todos") (snd c') = Some (serialize (get c')).
Proof.
  intros Hc Hw Hs Hst. unfold onEvent.
  assert (forall a l', applyAction (handle (get c) e) (get c) = Some <$> l' ->
            applySetState (get c) a = l' ->
            Some (set (store := todoStore) a c) = Some c' ->
            step (get c) e (get c')
            /\ settled (store := todoStore) c'
            /\ (hasWindow (snd c') = hasWindow (snd c)
                /\ getThrows (snd c') = getThrows (snd c)
                /\ setThrows (snd c') = setThrows (snd c))
            /\ storedAt (lit "todos") (snd c') = Some (serialize (get c'))) as Hset.
  { intros a l' Hd Ha [= <-].
    destruct (todoStore_writes c a Hc Hw Hs) as [Hget Hst'].
    split; [constructor; unfold dispatch; by rewrite Hget, Ha|].
    split; [by apply (set_browser (store := todoStore))|].
    split; [by apply (set_flags (store := todoStore))|]. exact Hst'. }
  destruct (handle (get c) e) as [[v|f]|] eqn:Hh.
  - by apply (Hset (Value v) v).
  - destruct (records (f (get c))) as [l'|] eqn:Hr; [|done].
    apply (Hset _ l'); [by apply records_Some|]. simpl. by rewrite Hr.
  - intros [= <-]. split; [constructor; unfold dispatch; by rewrite Hh|]. done.
Qed.

Lemma step_valid_time (l : list Todo) (e : event) (l' : list Todo) :
  match e with Add _ _ now => validTime now = true | _ => True end ->
  step l e l' ->
  Forall (fun t => validStamp t = true) l -> Forall (fun t => validStamp t = true) l'.
Proof.
  intros Hf Hs Hv. rewrite (step_functional _ _ _ Hs).
  destruct e as [text uuid now|i|i|active [over|]]; simpl in *.
  - destruct (str_eqb (trim text) []); [done|].
    apply Forall_app. split; [done|]. by apply Forall_singleton.
  - apply Forall_fmap. eapply Forall_impl; [exact Hv|].
    intros t Ht. simpl. by destruct (str_eqb (id t) i).
  - apply Forall_forall. intros t Ht. apply list_elem_of_In, List.filter_In in Ht as [Ht _].
    eapply Forall_forall in Hv; [exact Hv|]. by apply list_elem_of_In.
  - destruct (str_eqb active over); [done|].
    by rewrite relocate_Permutation.
  - done.
Qed.

Lemma onEvents_steps (es : list event) (c c' : Hook (list Todo) * Browser) :
  settled (store := todoStore) c ->
  hasWindow (snd c) = true -> getThrows (snd c) = false -> setThrows (snd c) = false ->
  storedAt (lit "todos") (snd c) = Some (serialize (get c)) ->
  Forall (fun t => validStamp t = true) (get c) ->
  Forall (fun e => match e with Add _ _ now => validTime now = true | _ => True end) es ->
  onEvents c es = Some c' ->
  steps (get c) es (get c')
  /\ (hasWindow (snd c') = true /\ getThrows (snd c') = false)
  /\ storedAt (lit "todos") (snd c') = Some (serialize (get c'))
  /\ Forall (fun t => validStamp t = true) (get c').
Proof.
  revert c. induction es as [|e es IH]; intros c Hc Hw Hg Hs Hst Hv Hes.
  - intros [= <-]. split; [constructor|done].
  - apply Forall_cons in Hes as [He Hes]. simpl.
    destruct (onEvent c e) as [c1|] eqn:E1; [|done]. intros Hrun.
    destruct (onEvent_step c c1 e Hc Hw Hs Hst E1) as (Hstep & Hc1 & (Hw1 & Hg1 & Hs1) & Hst1).
    destruct (IH c1) as (Hsteps & Hflags & Hst' & Hv'); try done; try congruence.
    { by eapply step_valid_time. }
    split; [by econstructor|done].
Qed.

(** X19: the list survives a reload of the page.  In a browser whose
    storage works and holds under the key nothing, or a text the component
    wrote, mount the component and let it handle events of the interface,
    one after the other, none of which leaves an [undefined] slot.  Then the
    list in memory has made the steps of the events, the text under the key
    is the text of that list, and mounting the component again on the
    storage it left gives that list, each date as its text. *)
Theorem todos_survive_reload (b : Browser) (es : list event)
    (c : Hook (list Todo) * Browser) :
  hasWindow b = true -> getThrows b = false -> setThrows b = false ->
  (storedAt (lit "todos") b = None
   \/ exists l0, Forall (fun t => validStamp t = true) l0
                 /\ storedAt (lit "todos") b = Some (serialize l0)) ->
  Forall (fun e => match e with Add _ _ now => validTime now = true | _ => True end) es ->
  onEvents (mounted (store := todoStore) b) es = Some c ->
  steps (get (mounted (store := todoStore) b)) es (get c)
  /\ storedAt (lit "todos") (snd c) = Some (serialize (get c))
  /\ get (mounted (store := todoStore) (snd c)) = reloaded <$> get c.
Proof.
  intros Hw Hg Hs Hown Hes Hrun.
  destruct (setEach_flags (store := todoStore) [] b) as (Hc & Hw' & Hg' & Hs').
  pose proof (setEach_stored (store := todoStore) b [] Hw Hs) as Hst.
  cbn [setEach foldl] in *.
  assert (Forall (fun t => validStamp t = true) (get (mounted (store := todoStore) b)))
    as Hv.
  { destruct Hown as [Hnone|(l0 & Hv0 & Hl0)].
    - rewrite todoStore_starts_empty; [constructor | by left].
    - rewrite (todoStore_reloads b l0 (reloaded <$> l0) Hw Hg Hl0)
        by (by apply deserialize_serialize).
      apply Forall_fmap, Forall_forall. intros t _. apply reloaded_valid. }
  destruct (onEvents_steps es _ c Hc) as (Hsteps & [Hwc Hgc] & Hstc & Hvc);
    try done; try congruence.
  split; [done|]. split; [done|].
  apply (todoStore_reloads _ (get c)); [done..|]. by apply deserialize_serialize.
Qed.

Lemma todos_survive_reload_witness :
  exists c,
    onEvents (mounted (store := todoStore) emptyBrowser)
      [Add (lit "Buy milk") (lit "a") 1700000000000;
       Add (lit "Walk dog") (lit "b") 1700000001000;
       DragEnd (lit "b") (Some (lit "a")); Toggle (lit "a")] = Some c
    /\ get (mounted (store := todoStore) (snd c)) = reloaded <$> get c.
Proof.
  destruct (onEvents (mounted (store := todoStore) emptyBrowser)
              [Add (lit "Buy milk") (lit "a") 1700000000000;
               Add (lit "Walk dog") (lit "b") 1700000001000;
               DragEnd (lit "b") (Some (lit "a")); Toggle (lit "a")]) as [c|] eqn:E;
    [|vm_compute in E; discriminate].
  exists c. split; [reflexivity|].
  refine (proj2 (proj2 (todos_survive_reload emptyBrowser _ c eq_refl eq_refl eq_refl
                          (or_introl eq_refl) _ E))).
  repeat constructor.
Defined.

(** ** [JSON.parse] on every text [JSON.stringify] writes *)

(** Induction on values, through the elements of an array and the fields of
    an object. *)
Lemma jsval_nested_ind (P : jsval -> Prop) :
  P VUndefined -> P VNull -> (forall b, P (VBool b)) -> (forall s, P (VStr s)) ->
  (forall ms, P (VDate ms)) ->
  (forall elems, Forall P elems -> P (VArr elems)) ->
  (forall fields, Forall (fun kx => P (snd kx)) fields -> P (VObj fields)) ->
  forall v, P v.
Proof.
  intros Hu Hn Hb Hs Hd Ha Ho. fix IH 1. intros [| |b|s|ms|elems|fields].
  - exact Hu.
  - exact Hn.
  - apply Hb.
  - apply Hs.
  - apply Hd.
  - apply Ha. induction elems as [|x elems IHl]; constructor; [apply IH | exact IHl].
  - apply Ho. induction fields as [|[k x] fields IHl]; constructor; [apply IH | exact IHl].
Qed.

(** More fuel does not change what a parse that did not run out gives. *)
Lemma parse_more_fuel (f : nat) :
  (forall s, parse_value f s <> Exhausted -> parse_value (S f) s = parse_value f s)
  /\ (forall s, parse_elements f s <> Exhausted ->
        parse_elements (S f) s = parse_elements f s)
  /\ (forall s, parse_members f s <> Exhausted ->
        parse_members (S f) s = parse_members f s).
Proof.
  induction f as [|f (IHv & IHe & IHm)]; [by repeat split|].
  assert (forall {A B} (o o' : outcome A) (k k' : A -> outcome B),
            bind o k <> Exhausted -> (o <> Exhausted -> o' = o) ->
            (forall a, o = Parsed a -> k a <> Exhausted -> k' a = k a) ->
            bind o' k' = bind o k) as Hbind.
  { intros A B o o' k k' Hne Ho Hk. destruct o as [a| | |]; simpl in *.
    - rewrite Ho by done. simpl. by apply Hk.
    - by rewrite Ho.
    - by rewrite Ho.
    - done. }
  split; [|split].
  - intros s. rewrite (parse_value_S (S f)), (parse_value_S f).
    destruct (strip (lit "null") _); [done|].
    destruct (strip (lit "true") _); [done|].
    destruct (strip (lit "false") _); [done|].
    destruct (skip_ws s) as [|c r']; [done|].
    destruct (c =? 34)%N; [done|].
    destruct (c =? 91)%N.
    { destruct (next 93 r'); [done|]. intros Hne.
      apply Hbind; [done|apply IHe|done]. }
    destruct (c =? 123)%N; [|done].
    destruct (next 125 r'); [done|]. intros Hne.
    apply Hbind; [done|apply IHm|done].
  - intros s. rewrite (parse_elements_S (S f)), (parse_elements_S f). intros Hne.
    apply Hbind; [done|apply IHv|]. intros [v r1] _. simpl.
    destruct (next 44 r1); [|done]. intros Hne'.
    apply Hbind; [done|apply IHe|done].
  - intros s. rewrite (parse_members_S (S f)), (parse_members_S f).
    destruct (next 34 s) as [r0|]; [|done]. intros Hne.
    apply Hbind; [done|done|]. intros [k r1] _. simpl.
    destruct (next 58 r1) as [r2|]; [|done]. intros Hne'.
    apply Hbind; [done|apply IHv|]. intros [v r3] _. simpl.
    destruct (next 44 r3); [|done]. intros Hne''.
    apply Hbind; [done|apply IHm|done].
Qed.

Lemma parse_value_more_fuel (f f' : nat) (s : jsstring) (o : outcome (jsval * jsstring)) :
  parse_value f s = o -> o <> Exhausted -> (f <= f')%nat -> parse_value f' s = o.
Proof.
  intros Hp Hne. induction 1 as [|f' _ IH]; [done|].
  destruct (parse_more_fuel f') as (Hv & _ & _). rewrite Hv; [done|]. by rewrite IH.
Qed.

(** The fuel [JSON_parse] gives is enough for whatever some fuel parses. *)
Lemma JSON_parse_fuel (f : nat) (s : jsstring) (v : jsval) :
  parse_value f s = Parsed (v, []) -> JSON_parse s = Parsed v.
Proof.
  intros Hp. unfold JSON_parse.
  assert (parse_value (S (2 * length s)) s = Parsed (v, [])) as ->; [|done].
  destruct (Nat.le_gt_cases f (S (2 * length s))) as [Hle|Hgt].
  - by apply (parse_value_more_fuel f).
  - pose proof (proj1 (parse_fuel (S (2 * length s))) s ltac:(lia)) as Hne.
    rewrite <- Hp. symmetry.
    apply (parse_value_more_fuel (S (2 * length s))); [done|done|lia].
Qed.

(** The text written for an element of an array and the value read back
    for it; the text written for a field of an object, if any, and the field
    read back. *)
Local Abbreviation element_text := (fun x : jsval => default (lit "null") (JSON_stringify x)).
Local Abbreviation element_value := (fun x : jsval => default VNull (revived x)).
Local Abbreviation member_text :=
  (fun kx : jsstring * jsval =>
     (fun s => quote (fst kx) ++ [58%N] ++ s) <$> JSON_stringify (snd kx)).
Local Abbreviation member_value :=
  (fun kx : jsstring * jsval => (fun x => (fst kx, x)) <$> revived (snd kx)).

Lemma revived_None (v : jsval) : revived v = None <-> JSON_stringify v = None.
Proof. destruct v as [| |[|]| | | |]; simpl; split; done. Qed.

(** A text [JSON.stringify] wrote starts with the first character of
    [null], [true] or [false], with a quote, a bracket or a brace. *)
Lemma element_text_head (v : jsval) :
  exists c r, default (lit "null") (JSON_stringify v) = c :: r
    /\ (c = 110 \/ c = 116 \/ c = 102 \/ c = 34 \/ c = 91 \/ c = 123)%N.
Proof.
  destruct v as [| |[|]|s|ms|elems|fields]; simpl;
    try (eexists _, _; split; [reflexivity|]; auto 10).
  destruct (validTime ms); eexists _, _; (split; [reflexivity|]); auto 10.
Qed.

Lemma next_other (c : N) (s tail : jsstring) (d : N) (r : jsstring) :
  s = d :: r -> (d = 110 \/ d = 116 \/ d = 102 \/ d = 34 \/ d = 91 \/ d = 123)%N ->
  (c = 93 \/ c = 125 \/ c = 44)%N ->
  next c (s ++ tail) = None.
Proof.
  intros -> Hd Hc. unfold next.
  destruct Hd as [-> | [-> | [-> | [-> | [-> | ->]]]]];
    destruct Hc as [-> | [-> | ->]]; reflexivity.
Qed.

Lemma parse_value_bracket (f : nat) (body : jsstring) :
  next 93 body = None ->
  parse_value (S f) (91%N :: body)
  = bind (parse_elements f body) (fun p => Parsed (VArr (fst p), snd p)).
Proof. intros H. rewrite parse_value_S. simpl. by rewrite H. Qed.

Lemma parse_value_brace (f : nat) (body : jsstring) :
  next 125 body = None ->
  parse_value (S f) (123%N :: body)
  = bind (parse_members f body)
      (fun p => Parsed (VObj (foldl obj_set [] (fst p)), snd p)).
Proof. intros H. rewrite parse_value_S. simpl. by rewrite H. Qed.

Lemma member_text_app (k s tail : jsstring) :
  (quote k ++ [58%N] ++ s) ++ tail = quote k ++ 58%N :: s ++ tail.
Proof. by rewrite <- !app_assoc. Qed.

(** The elements of a non-empty array are read back one after the other, up
    to the closing bracket. *)
Lemma parse_elements_texts (elems : list jsval) :
  Forall (fun x => exists f0, forall f rest, (f0 <= f)%nat ->
            parse_value f (default (lit "null") (JSON_stringify x) ++ rest)
            = Parsed (default VNull (revived x), rest)) elems ->
  elems <> [] ->
  exists f0, forall f rest, (f0 <= f)%nat ->
    parse_elements f (join_comma (element_text <$> elems) ++ 93%N :: rest)
    = Parsed (element_value <$> elems, rest).
Proof.
  induction 1 as [|x elems [fx Hx] _ IH]; [done|]. intros _.
  destruct elems as [|y elems].
  - exists (S fx). intros f rest Hf. destruct f as [|f]; [lia|].
    rewrite parse_elements_S. cbn [fmap list_fmap join_comma].
    rewrite Hx by lia. reflexivity.
  - destruct IH as [fl Hl]; [done|].
    exists (S (fx `max` fl)). intros f rest Hf. destruct f as [|f]; [lia|].
    rewrite parse_elements_S.
    change (join_comma (element_text <$> (x :: y :: elems)))
      with (default (lit "null") (JSON_stringify x)
            ++ 44%N :: join_comma (element_text <$> (y :: elems))).
    rewrite <- app_assoc, <- app_comm_cons.
    rewrite Hx by lia. change (bind (Parsed ?a) ?k) with (k a). cbv beta.
    change (next 44 (snd (?a, 44%N :: ?r))) with (Some r). cbv iota beta.
    rewrite Hl by lia. reflexivity.
Qed.

(** So are the fields of an object that have a text. *)
Lemma parse_members_texts (fields : list (jsstring * jsval)) :
  Forall (fun kx => exists f0, forall f rest, (f0 <= f)%nat ->
            parse_value f (default (lit "null") (JSON_stringify (snd kx)) ++ rest)
            = Parsed (default VNull (revived (snd kx)), rest)) fields ->
  omap member_text fields <> [] ->
  exists f0, forall f rest, (f0 <= f)%nat ->
    parse_members f (join_comma (omap member_text fields) ++ 125%N :: rest)
    = Parsed (omap member_value fields, rest).
Proof.
  induction 1 as [|[k x] fields [fx Hx] _ IH]; [done|].
  cbn [omap list_omap fst snd]. cbn [snd] in Hx.
  destruct (JSON_stringify x) as [s|] eqn:Es.
  - destruct (revived x) as [x'|] eqn:Er; [|apply revived_None in Er; congruence].
    cbn [fmap option_fmap option_map default from_option] in *. intros _.
    destruct (omap member_text fields) as [|m ms] eqn:Em.
    + assert (omap member_value fields = []) as ->.
      { clear -Em. induction fields as [|[k0 x0] fields IH]; [done|].
        cbn [omap list_omap fst snd] in *.
        destruct (JSON_stringify x0) eqn:E0; [done|].
        apply revived_None in E0. rewrite E0. simpl. by apply IH. }
      exists (S fx). intros f rest Hf. destruct f as [|f]; [lia|].
      cbn [join_comma]. rewrite <- !app_assoc. cbn [app].
      apply parse_members_last. apply Hx. lia.
    + destruct IH as [fl Hl]; [done|].
      exists (S (fx `max` fl)). intros f rest Hf. destruct f as [|f]; [lia|].
      rewrite join_comma_cons, <- !app_assoc. cbn [app].
      rewrite (parse_members_comma f k s _ x') by (apply Hx; lia).
      rewrite Hl by lia. reflexivity.
  - apply revived_None in Es as Er. rewrite Er.
    cbn [fmap option_fmap option_map]. intros Hne. by apply IH.
Qed.

(** What [JSON.stringify] wrote, or [null] in its place when it wrote
    nothing, is read back as the revived value, with any fuel from some
    amount on and whatever text follows. *)
Lemma parse_value_stringify (v : jsval) :
  exists f0, forall f rest, (f0 <= f)%nat ->
    parse_value f (default (lit "null") (JSON_stringify v) ++ rest)
    = Parsed (default VNull (revived v), rest).
Proof.
  induction v as [| |b|s|ms|elems IH|fields IH] using jsval_nested_ind.
  - exists 1%nat. intros [|f] rest Hf; [lia|]. reflexivity.
  - exists 1%nat. intros [|f] rest Hf; [lia|]. reflexivity.
  - exists 1%nat. intros [|f] rest Hf; [lia|]. by destruct b.
  - exists 1%nat. intros [|f] rest Hf; [lia|]. apply parse_value_string.
  - exists 1%nat. intros [|f] rest Hf; [lia|]. cbn [JSON_stringify revived default from_option].
    destruct (validTime ms); [apply parse_value_string | reflexivity].
  - destruct elems as [|x elems]; [by exists 1%nat; intros [|f] rest Hf; [lia|]|].
    destruct (parse_elements_texts (x :: elems) IH) as [fl Hl]; [done|].
    exists (S fl). intros [|f] rest Hf; [lia|].
    change (default (lit "null") (JSON_stringify (VArr (x :: elems))))
      with ([91%N] ++ join_comma (element_text <$> (x :: elems)) ++ [93%N]).
    change (default VNull (revived (VArr (x :: elems))))
      with (VArr (element_value <$> (x :: elems))).
    rewrite <- !app_assoc. cbn [app].
    rewrite parse_value_bracket.
    + rewrite Hl by lia. reflexivity.
    + destruct (element_text_head x) as (c & r & Hc & Hhead).
      assert (exists r', join_comma (element_text <$> (x :: elems)) = c :: r') as [r' ->].
      { destruct elems as [|y elems].
        - cbn [fmap list_fmap join_comma]. rewrite Hc. eauto.
        - rewrite !fmap_cons, join_comma_cons. cbv beta. rewrite Hc. simpl. eauto. }
      apply (next_other 93 _ _ c r'); [done|done|auto].
  - change (default (lit "null") (JSON_stringify (VObj fields)))
      with ([123%N] ++ join_comma (omap member_text fields) ++ [125%N]).
    change (default VNull (revived (VObj fields)))
      with (VObj (foldl obj_set [] (omap member_value fields))).
    match goal with
    | |- context [join_comma ?l] => destruct l as [|m ms] eqn:Em
    end.
    + assert (omap member_value fields = []) as Ev.
      { clear -Em. induction fields as [|[k0 x0] fields IH]; [done|].
        cbn [omap list_omap fst snd] in *.
        destruct (JSON_stringify x0) eqn:E0; [done|].
        apply revived_None in E0. rewrite E0. simpl. by apply IH. }
      exists 1%nat. intros [|f] rest Hf; [lia|].
      match goal with
      | |- context [foldl obj_set [] ?l] => replace l with (@nil (jsstring * jsval))
      end.
      reflexivity.
    + destruct (parse_members_texts fields IH) as [fl Hl].
      { intros Hnil. assert (m :: ms = []) as Hbad by exact (eq_trans (eq_sym Em) Hnil).
        discriminate. }
      assert (forall f rest, (fl <= f)%nat ->
                parse_members f (join_comma (m :: ms) ++ 125%N :: rest)
                = Parsed (omap member_value fields, rest)) as Hl'.
      { rewrite <- Em. exact Hl. }
      exists (S fl). intros [|f] rest Hf; [lia|].
      rewrite <- !app_assoc. cbn [app].
      rewrite parse_value_brace.
      * rewrite Hl' by lia. reflexivity.
      * assert (exists r', join_comma (m :: ms) = 34%N :: r') as [r' ->].
        { assert (exists r0, m = 34%N :: r0) as [r0 ->].
          { clear -Em. induction fields as [|[k0 x0] fields IH]; [done|].
            cbn [omap list_omap fst snd] in Em.
            destruct (JSON_stringify x0); [|by apply IH].
            injection Em as <- _. unfold quote. simpl. eauto. }
          destruct ms; simpl; eauto. }
        reflexivity.
Qed.

Lemma revived_plain (v : jsval) : plain v = true -> revived v = Some v.
Proof.
  induction v as [| |b|s|ms|elems IH|fields IH] using jsval_nested_ind; try done.
  intros Hp. simpl in *. do 2 f_equal.
  induction IH as [|x elems Hx _ IHl]; [done|].
  simpl in Hp. apply andb_true_iff in Hp as [Hpx Hpl].
  rewrite fmap_cons, (Hx Hpx), (IHl Hpl). done.
Qed.

Lemma JSON_parse_stored_text (v : jsval) :
  JSON_parse (stored_text v)
  = match revived v with Some v' => Parsed v' | None => SyntaxError end.
Proof.
  destruct (parse_value_stringify v) as [f0 Hf]. specialize (Hf f0 [] ltac:(lia)).
  rewrite app_nil_r in Hf. unfold stored_text.
  destruct (JSON_stringify v) as [s|] eqn:Es.
  - destruct (revived v) as [v'|] eqn:Er; [|apply revived_None in Er; congruence].
    simpl in *. by apply (JSON_parse_fuel f0).
  - apply revived_None in Es as ->. reflexivity.
Qed.

Lemma stored_text_head (v : jsval) : exists c r, stored_text v = c :: r.
Proof.
  unfold stored_text. destruct (JSON_stringify v) as [s|] eqn:Es.
  - destruct (element_text_head v) as (c & r & Hc & _). rewrite Es in Hc. simpl in *. eauto.
  - simpl. eexists _, _. reflexivity.
Qed.

(** X20: [JSON.parse] reads back what [JSON.stringify] wrote, for
    every value without numbers.  The value read is the value written with
    each date replaced by its text, each [undefined] element of an array by
    [null], and each [undefined] field left out; when [JSON.stringify] gave
    [undefined] the text stored for it is no JSON text and [JSON.parse]
    throws.  A value made of [null], booleans, strings and arrays of such
    values is read back as it is. *)
Theorem JSON_parse_reads_back (v : jsval) :
  JSON_parse (stored_text v)
  = match revived v with Some v' => Parsed v' | None => SyntaxError end
  /\ (plain v = true -> JSON_parse (stored_text v) = Parsed v).
Proof.
  split; [apply JSON_parse_stored_text|].
  intros Hp. by rewrite JSON_parse_stored_text, (revived_plain v Hp).
Qed.

(** X21: a value without numbers survives a reload of the page.  In
    a browser whose storage works and holds under the key no text with a
    number in it, and whatever [Object.is] says of the values set, after
    the mount and any calls of [set], mounting the hook
    again on the storage it left gives the value that was in memory as
    [JSON.parse] reads it back, and the initial value when the value in
    memory was [undefined]; a string, a boolean, [null] and arrays of them
    come back as they were. *)
Theorem values_survive_reload (objectIs : jsval -> jsval -> bool) (k : jsstring)
    (init : jsval) (b : Browser) (acts : list (SetStateAction jsval)) :
  hasWindow b = true -> getThrows b = false -> setThrows b = false ->
  (forall s, storedAt k b = Some s -> JSON_parse s <> Unmodelled) ->
  let c := setEach (store := jsStore objectIs k init) acts
             (mounted (store := jsStore objectIs k init) b) in
  get (mounted (store := jsStore objectIs k init) (snd c)) = default init (revived (get c))
  /\ (plain (get c) = true ->
      get (mounted (store := jsStore objectIs k init) (snd c)) = get c).
Proof.
  intros Hw Hg Hs _ c.
  assert (get (mounted (store := jsStore objectIs k init) (snd c))
          = default init (revived (get c))) as Hget.
  { destruct (setEach_flags (store := jsStore objectIs k init) acts b)
      as (_ & Hw' & Hg' & _).
    pose proof (setEach_stored (store := jsStore objectIs k init) b acts Hw Hs) as Hst.
    fold c in Hw', Hg', Hst.
    destruct (mounted_browser (store := jsStore objectIs k init) (snd c)) as [-> _].
    unfold hydratedValue. rewrite Hw', Hg', Hw, Hg. cbn [negb andb].
    rewrite Hst. cbn [stringify jsStore].
    destruct (stored_text_head (get c)) as (c0 & r0 & Ht). rewrite Ht, <- Ht.
    cbn [parse jsStore initialValue]. unfold parse_js.
    rewrite JSON_parse_stored_text. by destruct (revived (get c)). }
  split; [exact Hget|]. intros Hp. by rewrite Hget, (revived_plain _ Hp).
Qed.

Lemma values_survive_reload_witness :
  get (setEach (store := testStore)
         [Value (VArr [VStr (lit "a"); VUndefined; VDate 1700000000000])]
         (mountedTest emptyBrowser))
  = VArr [VStr (lit "a"); VUndefined; VDate 1700000000000]
  /\ get (mountedTest
            (snd (setEach (store := testStore)
                    [Value (VArr [VStr (lit "a"); VUndefined; VDate 1700000000000])]
                    (mountedTest emptyBrowser))))
     = VArr [VStr (lit "a"); VNull; VStr (lit "2023-11-14T22:13:20.000Z")].
Proof.
  assert (get (setEach (store := testStore)
                 [Value (VArr [VStr (lit "a"); VUndefined; VDate 1700000000000])]
                 (mountedTest emptyBrowser))
          = VArr [VStr (lit "a"); VUndefined; VDate 1700000000000]) as Hget
    by (vm_compute; reflexivity).
  split; [exact Hget|].
  assert (forall s, storedAt testKey emptyBrowser = Some s -> JSON_parse s <> Unmodelled)
    as Hnum by (intros s Hs; vm_compute in Hs; discriminate).
  pose proof (proj1 (values_survive_reload same_js testKey (VStr (lit "initial")) emptyBrowser
                       [Value (VArr [VStr (lit "a"); VUndefined; VDate 1700000000000])]
                       eq_refl eq_refl eq_refl Hnum)) as H.
  cbv zeta in H. unfold mountedTest.
  change (jsStore same_js testKey (VStr (lit "initial"))) with testStore in H.
  rewrite H. unfold mountedTest in Hget. rewrite Hget. vm_compute. reflexivity.
Defined.

